(** * turbo-geth: timestamp suffixes, change-index walks, DbState and proofs

    A shallow embedding of the history/rewind code of [ethdb/walk.go], of the
    timestamp suffix codec ([encodeTimestamp] / [decodeTimestamp]) and of the
    trie-less state reader [DbState], followed by the properties the
    specification states about them.

    Conventions.  A Go [byte] is a [Z] in [0, 256); a [uint64] is a [Z] with
    its wrap-around written out ([u64]); a [[]byte] is a [list Z]; a Go [map]
    is a [gmap]; a run-time panic is an explicit outcome. *)

From Stdlib Require Import ZArith Lia List Bool Sorted.
From Stdlib Require Import String.
From stdpp Require Import gmap list strings.

#[local] Set Warnings "-register-all".

Local Open Scope Z_scope.

(** ** Machine integers and byte strings *)

Abbreviation bytes := (list Z).

(** [byte(x)]: conversion of an integer to [uint8] keeps the low 8 bits. *)
Definition to_byte (x : Z) : Z := Z.land x 255.

(** [uint64] arithmetic wraps modulo 2^64. *)
Definition u64 (x : Z) : Z := x mod 2 ^ 64.

(** [bytes.Compare]: lexicographic comparison of byte strings. *)
Fixpoint bytes_compare (a b : bytes) : comparison :=
  match a, b with
  | [], [] => Eq
  | [], _ :: _ => Lt
  | _ :: _, [] => Gt
  | x :: a', y :: b' =>
      match x ?= y with
      | Eq => bytes_compare a' b'
      | c => c
      end
  end.

Definition bytes_lt (a b : bytes) : Prop := bytes_compare a b = Lt.

Definition bytes_ltb (a b : bytes) : bool :=
  match bytes_compare a b with Lt => true | _ => false end.

(** ** The timestamp suffix codec (cmd/hack/hack.go, same text in ethdb) *)

Module Timestamp.

(** The inner loop of [encodeTimestamp]:
    [for i := bytecount - 1; i > 0; i-- { suffix[i] = byte(b & 0xff); b >>= 8 }].
    [n] is the number of iterations left, [acc] the bytes [suffix[i+1..]]
    already written; the result is the final [b] and [suffix[1..]]. *)
Fixpoint fill_tail (n : nat) (b : Z) (acc : bytes) : Z * bytes :=
  match n with
  | O => (b, acc)
  | S n' => fill_tail n' (Z.shiftr b 8) (to_byte (Z.land b 255) :: acc)
  end.

(** The outer loop [for bytecount := 1; bytecount <= 8; bytecount++];
    [fuel] counts the iterations that remain.  When the loop runs out the
    suffix is still [nil]. *)
Fixpoint encode_loop (fuel : nat) (bytecount limit timestamp : Z) : bytes :=
  match fuel with
  | O => []
  | S fuel' =>
      if timestamp <? limit then
        let '(b, tail) := fill_tail (Z.to_nat (bytecount - 1)) timestamp [] in
        Z.lor (to_byte b) (to_byte (Z.shiftl (to_byte bytecount) 5)) :: tail
      else encode_loop fuel' (bytecount + 1) (u64 (Z.shiftl limit 8)) timestamp
  end.

Definition encodeTimestamp (timestamp : Z) : bytes :=
  encode_loop 8 1 32 timestamp.

(** The loop of [decodeTimestamp]:
    [for i := 1; i < bytecount; i++ { timestamp = timestamp<<8 | uint64(suffix[i]) }].
    Reading past the end of [suffix] panics ([None]). *)
Fixpoint decode_loop (n : nat) (i : nat) (timestamp : Z) (suffix : bytes) : option Z :=
  match n with
  | O => Some timestamp
  | S n' =>
      match suffix !! i with
      | None => None
      | Some x => decode_loop n' (S i) (u64 (Z.lor (Z.shiftl timestamp 8) x)) suffix
      end
  end.

(** [decodeTimestamp] returns the timestamp and the rest of the slice; it
    panics ([None]) on an empty slice or on one shorter than its length
    prefix announces. *)
Definition decodeTimestamp (suffix : bytes) : option (Z * bytes) :=
  match suffix with
  | [] => None
  | s0 :: _ =>
      let bytecount := Z.shiftr s0 5 in
      let timestamp := Z.land s0 31 in
      match decode_loop (Z.to_nat (bytecount - 1)) 1 timestamp suffix with
      | None => None
      | Some ts =>
          if bytecount <=? Z.of_nat (length suffix)
          then Some (ts, drop (Z.to_nat bytecount) suffix)
          else None
      end
  end.

End Timestamp.

Import Timestamp.

(** ** Errors and outcomes *)

(** Go [error] values.  [ErrKeyNotFound] is the dedicated not-found
    sentinel; [ErrStore] stands for every other error a store or a callback
    may produce (I/O, corruption, ...); [ErrPreimage] is the error
    [GetModifiedAccounts] builds with [fmt.Errorf]. *)
Inductive error :=
| ErrKeyNotFound
| ErrStore (code : Z)
| ErrPreimage (key : bytes).

(** The result of running a piece of code that threads a state of type [S]:
    it returns normally, returns a non-nil error, or panics (index out of
    range, slice bounds out of range). *)
Inductive run (S : Type) :=
| Done (s : S)
| Failed (s : S) (e : error)
| Panicked.
Arguments Done {S} s.
Arguments Failed {S} s e.
Arguments Panicked {S}.

(** A Go pair [(value []byte, err error)]; a nil slice is the empty list. *)
Abbreviation value_err := (bytes * option error)%type.

(** ** The [Getter] interface of package ethdb *)

(** A store as the [Getter] methods see it.  [db_bucket b] is the content
    of bucket [b] in the order the cursor delivers it, [db_scan_error b] an
    error the scan of [b] itself ends with, if any. *)
Record Getter := {
  db_get : bytes -> bytes -> value_err;
  db_get_as_of : bytes -> bytes -> bytes -> Z -> value_err;
  db_bucket : bytes -> list (bytes * bytes);
  db_scan_error : bytes -> option error
}.

Fixpoint drop_while {A : Type} (p : A -> bool) (l : list A) : list A :=
  match l with
  | [] => []
  | x :: l' => if p x then drop_while p l' else l
  end.

Fixpoint take_while {A : Type} (p : A -> bool) (l : list A) : list A :=
  match l with
  | [] => []
  | x :: l' => if p x then x :: take_while p l' else []
  end.

(** [fixedbits] leading bits of [k] agree with those of [startkey]. *)
Definition fixed_match (fixedbits : Z) (startkey k : bytes) : bool :=
  let n := Z.to_nat (fixedbits / 8) in
  let r := fixedbits mod 8 in
  bool_decide (take n startkey = take n k)
  && ((r =? 0)
      || (Z.shiftr (nth n startkey 0) (8 - r) =? Z.shiftr (nth n k 0) (8 - r))).

(** The iteration of [Walk] over the entries the cursor delivers. *)
Fixpoint walk_entries {S : Type} (walker : S -> bytes -> bytes -> run (bool * S))
    (scan_error : option error) (es : list (bytes * bytes)) (s : S) : run S :=
  match es with
  | [] => match scan_error with None => Done s | Some e => Failed s e end
  | (k, v) :: es' =>
      match walker s k v with
      | Done (true, s') => walk_entries walker scan_error es' s'
      | Done (false, s') => Done s'
      | Failed (_, s') e => Failed s' e
      | Panicked => Panicked
      end
  end.

(** Modelled from the spec: the method [Walk] of the store behind the
    [Getter] interface, which is not in the sources: an ordered scan of
    [bucket] that seeks to the first key not below [startkey], visits the
    keys that share its [fixedbits] leading bits, and stops early when the
    callback says so or fails. *)
Definition Walk {S : Type} (db : Getter) (bucket startkey : bytes) (fixedbits : Z)
    (walker : S -> bytes -> bytes -> run (bool * S)) (s : S) : run S :=
  walk_entries walker (db_scan_error db bucket)
    (take_while (fun kv => fixed_match fixedbits startkey kv.1)
       (drop_while (fun kv => bytes_ltb kv.1 startkey) (db_bucket db bucket)))
    s.

(** [binary.BigEndian.Uint32(v)]: panics when [v] has fewer than 4 bytes. *)
Definition be_uint32 (v : bytes) : option Z :=
  match v with
  | b0 :: b1 :: b2 :: b3 :: _ =>
      Some (Z.lor (Z.lor (Z.lor b3 (Z.shiftl b2 8)) (Z.shiftl b1 16)) (Z.shiftl b0 24))
  | _ => None
  end.

(** The key loop shared by both walkers of walk.go,
    [l := int(v[i]); i++; add(v[i:i+l]); i += l], repeated [keycount] times
    from offset [i]; [add] is what the walker does with each key.  Reading
    outside of [v] panics ([None]). *)
Fixpoint read_keys {T : Type} (add : bytes -> T -> T) (keycount : nat) (i : nat)
    (v : bytes) (t : T) : option T :=
  match keycount with
  | O => Some t
  | S n =>
      match v !! i with
      | None => None
      | Some l =>
          let i1 := S i in
          let hi := (i1 + Z.to_nat l)%nat in
          if (hi <=? length v)%nat
          then read_keys add n hi v (add (take (Z.to_nat l) (drop i1 v)) t)
          else None
      end
  end.

(** ** GoLLRB, as far as the code uses it: an ordered set of items *)

Module LLRB.

Section Tree.
Context {A : Type} (less : A -> A -> bool).

(** The items in ascending order. *)
Definition New : list A := [].

Fixpoint ReplaceOrInsert (x : A) (t : list A) : list A :=
  match t with
  | [] => [x]
  | y :: t' =>
      if less x y then x :: y :: t'
      else if less y x then y :: ReplaceOrInsert x t'
      else x :: t'
  end.

Definition Len (t : list A) : nat := length t.

Definition Min (t : list A) : option A := head t.

Fixpoint ascend {S : Type} (iterator : S -> A -> bool * S) (items : list A) (s : S) : S :=
  match items with
  | [] => s
  | x :: items' =>
      match iterator s x with
      | (true, s') => ascend iterator items' s'
      | (false, s') => s'
      end
  end.

Definition AscendGreaterOrEqual {S : Type} (pivot : A)
    (iterator : S -> A -> bool * S) (t : list A) (s : S) : S :=
  ascend iterator (filter (fun y => negb (less y pivot)) t) s.

End Tree.

End LLRB.

(** ** ethdb/walk.go *)

Module Walk.

Section WalkGo.

(** [SuffixBucket], the name of the change index, is declared elsewhere in
    package ethdb. *)
Variable SuffixBucket : bytes.

(** The callback [rewindData] passes to [Walk]; its state is the map [m]
    from bucket to the set of keys to consider. *)
Definition rewind_walker (timestampSrc : Z) (m : gmap bytes (gset bytes))
    (k v : bytes) : run (bool * gmap bytes (gset bytes)) :=
  match decodeTimestamp k with
  | None => Panicked
  | Some (timestamp, bucket) =>
      if timestamp >? timestampSrc then Done (false, m)
      else
        match be_uint32 v with
        | None => Panicked
        | Some keycount =>
            if keycount >? 0 then
              let t := default ∅ (m !! bucket) in
              match read_keys (fun key (t : gset bytes) => {[ key ]} ∪ t)
                      (Z.to_nat keycount) 4 v t with
              | None => Panicked
              | Some t' => Done (true, <[bucket := t']> m)
              end
            else Done (true, m)
        end
  end.

(** The loop over the keys of one bucket, [for keyStr := range t]. *)
Fixpoint rewind_keys {D : Type} (db : Getter) (timestampDst : Z)
    (df : D -> bytes -> bytes -> bytes -> D * option error)
    (bucket : bytes) (keys : list bytes) (d : D) : run D :=
  match keys with
  | [] => Done d
  | key :: keys' =>
      match bucket with
      | [] => Panicked
      | _ :: bucket1 =>
          let '(value, err) := db_get_as_of db bucket1 bucket key (u64 (timestampDst + 1)) in
          let value := match err with Some _ => [] | None => value end in
          match df d bucket key value with
          | (d', Some e) => Failed d' e
          | (d', None) => rewind_keys db timestampDst df bucket keys' d'
          end
      end
  end.

(** The loop over the buckets, [for bucketStr, t := range m]. *)
Fixpoint rewind_buckets {D : Type} (db : Getter) (timestampDst : Z)
    (df : D -> bytes -> bytes -> bytes -> D * option error)
    (bs : list (bytes * gset bytes)) (d : D) : run D :=
  match bs with
  | [] => Done d
  | (bucket, t) :: bs' =>
      match rewind_keys db timestampDst df bucket (elements t) d with
      | Done d' => rewind_buckets db timestampDst df bs' d'
      | r => r
      end
  end.

(** [rewindData].  The callback [df] is a closure; [D] is the state it
    captures.  Go leaves the iteration order of a map unspecified: here the
    maps are visited in the order of [map_to_list] and [elements]. *)
Definition rewindData {D : Type} (db : Getter) (timestampSrc timestampDst : Z)
    (df : D -> bytes -> bytes -> bytes -> D * option error) (d : D) : run D :=
  let suffixDst := encodeTimestamp (u64 (timestampDst + 1)) in
  match Walk db SuffixBucket suffixDst 0 (rewind_walker timestampSrc) ∅ with
  | Panicked => Panicked
  | Failed _ e => Failed d e
  | Done m => rewind_buckets db timestampDst df (map_to_list m) d
  end.

(** [PutItem] and its order are declared elsewhere in package ethdb; the
    tree of [GetModifiedAccounts] only ever holds items with a nil value,
    so an item is its key, ordered by [bytes.Compare]. *)
Definition PutItem_less (a b : bytes) : bool := bytes_ltb a b.

Definition hAT : bytes := [104; 65; 84].

Definition secure_key_prefix : bytes :=
  [115; 101; 99; 117; 114; 101; 45; 107; 101; 121; 45].

(** The callback [GetModifiedAccounts] passes to [Walk]. *)
Definition modified_walker (endtimestamp : Z) (t : list bytes) (k v : bytes)
    : run (bool * list bytes) :=
  match decodeTimestamp k with
  | None => Panicked
  | Some (timestamp, bucket) =>
      if negb (bool_decide (bucket = hAT)) then Done (true, t)
      else if timestamp >? endtimestamp then Done (false, t)
      else
        match be_uint32 v with
        | None => Panicked
        | Some keycount =>
            match read_keys (LLRB.ReplaceOrInsert PutItem_less) (Z.to_nat keycount) 4 v t with
            | None => Panicked
            | Some t' => Done (true, t')
            end
        end
  end.

(** [copy(dst, src)] into a fixed array. *)
Definition copy_into (dst src : bytes) : bytes :=
  take (length dst) src ++ drop (length src) dst.

Definition zero_address : bytes := replicate 20 0.

(** The iterator of the second phase; its state is
    [(accounts, idx, extErr)]. *)
Definition preimage_iterator (db : Getter)
    (s : list bytes * nat * option error) (item : bytes)
    : bool * (list bytes * nat * option error) :=
  let '(accounts, idx, extErr) := s in
  let '(value, err) := db_get db secure_key_prefix item in
  match err with
  | Some _ => (false, (accounts, idx, Some (ErrPreimage item)))
  | None =>
      (true, (alter (fun a => copy_into a value) idx accounts, S idx, extErr))
  end.

(** [GetModifiedAccounts]: the address list and the error. *)
Definition GetModifiedAccounts (db : Getter) (starttimestamp endtimestamp : Z)
    : option (option (list bytes) * option error) :=
  let startCode := encodeTimestamp starttimestamp in
  match Walk db SuffixBucket startCode 0 (modified_walker endtimestamp) LLRB.New with
  | Panicked => None
  | Failed _ e => Some (None, Some e)
  | Done t =>
      let accounts := replicate (LLRB.Len t) zero_address in
      if (LLRB.Len t =? 0)%nat then Some (Some accounts, None)
      else
        match LLRB.Min t with
        | None => Some (Some accounts, None)
        | Some min =>
            let '(accounts', _, extErr) :=
              LLRB.AscendGreaterOrEqual PutItem_less min (preimage_iterator db) t
                (accounts, O, None) in
            match extErr with
            | Some e => Some (None, Some e)
            | None => Some (Some accounts', None)
            end
        end
  end.

End WalkGo.

End Walk.

(** ** core/state: DbState, the state reader over the database only *)

Module State.

(** [storageItem]; the tree orders items by [seckey]. *)
Record storageItem := {
  item_key : bytes;
  item_seckey : bytes;
  item_value : bytes
}.

Definition storageItem_less (a b : storageItem) : bool :=
  match bytes_compare (item_seckey a) (item_seckey b) with Lt => true | _ => false end.

(** [DbState]: the store, the block number and the per-address trees of
    storage overrides. *)
Record DbState := {
  dbs_db : Getter;
  dbs_blockNr : Z;
  dbs_storage : gmap bytes (list storageItem)
}.

Definition NewDbState (db : Getter) (blockNr : Z) : DbState :=
  {| dbs_db := db; dbs_blockNr := blockNr; dbs_storage := ∅ |}.

Definition SetBlockNr (dbs : DbState) (blockNr : Z) : DbState :=
  {| dbs_db := dbs_db dbs; dbs_blockNr := blockNr; dbs_storage := dbs_storage dbs |}.

(** The bucket names are declared elsewhere in package state; the history
    bucket of the accounts is the ["hAT"] of walk.go, and a history bucket
    is its bucket with an ['h'] in front (walk.go reads [bucket[1:]]). *)
Definition AccountsHistoryBucket : bytes := [104; 65; 84].
Definition AccountsBucket : bytes := [65; 84].
Definition StorageHistoryBucket : bytes := [104; 83; 84].
Definition StorageBucket : bytes := [83; 84].

Section Reader.

(** What the file uses and does not define: the Keccak-256 of the pooled
    hasher, the account type with its decoder, the code bucket and the hash
    of the empty code. *)
Variable keccak256 : bytes -> bytes.
Variable Account : Type.
Variable encodingToAccount : bytes -> option Account * option error.
Variable CodeBucket : bytes.
Variable emptyCodeHash : bytes.

Definition ReadAccountData (dbs : DbState) (address : bytes)
    : option Account * option error :=
  let buf := keccak256 address in
  let '(enc, err) :=
    db_get_as_of (dbs_db dbs) AccountsBucket AccountsHistoryBucket buf
      (u64 (dbs_blockNr dbs + 1)) in
  match err, enc with
  | Some _, _ => (None, None)
  | None, [] => (None, None)
  | None, _ => encodingToAccount enc
  end.

Definition ReadAccountStorage (dbs : DbState) (address key : bytes) : value_err :=
  let buf := keccak256 key in
  let '(enc, err) :=
    db_get_as_of (dbs_db dbs) StorageBucket StorageHistoryBucket (address ++ buf)
      (u64 (dbs_blockNr dbs + 1)) in
  match err with
  | Some _ => ([], None)
  | None => (enc, None)
  end.

Definition ReadAccountCode (dbs : DbState) (codeHash : bytes) : value_err :=
  if bool_decide (codeHash = emptyCodeHash) then ([], None)
  else db_get (dbs_db dbs) CodeBucket codeHash.

Definition ReadAccountCodeSize (dbs : DbState) (codeHash : bytes) : Z * option error :=
  let '(code, err) := ReadAccountCode dbs codeHash in
  match err with
  | Some e => (0, Some e)
  | None => (Z.of_nat (length code), None)
  end.

(** The writer methods return the error and the state they leave. *)
Definition UpdateAccountData (dbs : DbState) (address : bytes)
    (original account : option Account) : option error * DbState :=
  (None, dbs).

Definition DeleteAccount (dbs : DbState) (address : bytes)
    (original : option Account) : option error * DbState :=
  (None, dbs).

Definition UpdateAccountCode (dbs : DbState) (codeHash code : bytes)
    : option error * DbState :=
  (None, dbs).

Definition WriteAccountStorage (dbs : DbState) (address key original value : bytes)
    : option error * DbState :=
  let t := default LLRB.New (dbs_storage dbs !! address) in
  let i := {| item_key := key; item_seckey := keccak256 key; item_value := value |} in
  (None,
   {| dbs_db := dbs_db dbs;
      dbs_blockNr := dbs_blockNr dbs;
      dbs_storage := <[address := LLRB.ReplaceOrInsert storageItem_less i t]> (dbs_storage dbs) |}).

End Reader.

End State.

(** ** The trie and its proofs (package trie)

    Of package trie the sources hold the proof tests only.  The node model,
    [Update], [Hash], [Prove] and [VerifyProof] are modelled from sections 3,
    4.1, 4.2 and 4.3 of the specification. *)

Module Trie.

(** Modelled from the spec: the type TrieNode of package trie, which is not
    in the sources (section 3): Leaf(keySuffix, value),
    Extension(keyFragment, child), Branch(16 child slots),
    HashPlaceholder(hash), ValueNode(bytes); [Empty] is the nil node of an
    empty slot or an empty trie.  Key suffixes and fragments are lists of
    nibbles. *)
Inductive node :=
| Empty
| Leaf (keySuffix : list Z) (value : bytes)
| Extension (keyFragment : list Z) (child : node)
| Branch (children : list node)
| HashPlaceholder (hash : bytes)
| ValueNode (value : bytes).

(** Modelled from the spec: the type Trie, which is not in the sources: a
    root node and the bucket that names the dataset. *)
Record Trie := {
  trie_root : node;
  trie_bucket : bytes
}.

(** A key as nibbles, two per byte, high nibble first. *)
Definition key_nibbles (key : bytes) : list Z :=
  flat_map (fun b => [Z.shiftr b 4; Z.land b 15]) key.

Fixpoint common_prefix (a b : list Z) : list Z :=
  match a, b with
  | x :: a', y :: b' => if x =? y then x :: common_prefix a' b' else []
  | _, _ => []
  end.

Definition is_prefix (p key : list Z) : bool :=
  bool_decide (take (length p) key = p).

Definition empty_children : list node := replicate 16 Empty.

(** [n] below the fragment [frag]; no Extension with an empty fragment. *)
Definition extend (frag : list Z) (n : node) : node :=
  match frag with
  | [] => n
  | _ => Extension frag n
  end.

(** The Branch that holds [n1] in slot [x] and [n2] in slot [y]. *)
Definition fork (x : Z) (n1 : node) (y : Z) (n2 : node) : node :=
  Branch (<[Z.to_nat y := n2]> (<[Z.to_nat x := n1]> empty_children)).

(** Modelled from the spec: the restructuring of [Trie.Update], which is
    not in the sources (section 4.2): splitting a Leaf or an Extension where
    the key diverges, creating a Branch for the two rests.  A key that ends
    inside the trie or runs past a Leaf has no place in a Branch of 16
    slots, and an unresolved HashPlaceholder needs the resolver: the node is
    left as it is there. *)
Fixpoint insert (n : node) (key : list Z) (value : bytes) : node :=
  match n with
  | Empty => Leaf key value
  | Leaf ks v =>
      let p := common_prefix ks key in
      match drop (length p) ks, drop (length p) key with
      | [], [] => Leaf ks value
      | x :: rs, y :: rk => extend p (fork x (Leaf rs v) y (Leaf rk value))
      | _, _ => n
      end
  | Extension f c =>
      let p := common_prefix f key in
      match drop (length p) f, drop (length p) key with
      | [], rk => Extension f (insert c rk value)
      | x :: rf, y :: rk => extend p (fork x (extend rf c) y (Leaf rk value))
      | _ :: _, [] => n
      end
  | Branch cs =>
      match key with
      | [] => n
      | x :: rk =>
          Branch ((fix go (cs : list node) (i : nat) : list node :=
                     match cs with
                     | [] => []
                     | c :: cs' =>
                         match i with
                         | O => insert c rk value :: cs'
                         | S i' => c :: go cs' i'
                         end
                     end) cs (Z.to_nat x))
      end
  | HashPlaceholder _ => n
  | ValueNode _ => n
  end.

(** Modelled from the spec: [Trie.Update(key, value, timestamp)]. *)
Definition Update (t : Trie) (key value : bytes) (timestamp : Z) : Trie :=
  {| trie_root := insert (trie_root t) (key_nibbles key) value;
     trie_bucket := trie_bucket t |}.

(** What following [key] inside a node reaches: a value, nothing, or a
    HashPlaceholder with the rest of the key. *)
Inductive step :=
| Found (value : bytes)
| Absent
| Next (hash : bytes) (rest : list Z).

(** Modelled from the spec: following the key nibbles through Extension
    and Branch nodes until a Leaf, a point where the path cannot continue,
    or a HashPlaceholder (sections 4.2 and 4.3). *)
Fixpoint descend (n : node) (key : list Z) : step :=
  match n with
  | Empty => Absent
  | Leaf ks v => if bool_decide (ks = key) then Found v else Absent
  | Extension f c =>
      if is_prefix f key then descend c (drop (length f) key) else Absent
  | Branch cs =>
      match key with
      | [] => Absent
      | x :: rk =>
          (fix go (cs : list node) (i : nat) : step :=
             match cs with
             | [] => Absent
             | c :: cs' =>
                 match i with
                 | O => descend c rk
                 | S i' => go cs' i'
                 end
             end) cs (Z.to_nat x)
      end
  | HashPlaceholder h => Next h key
  | ValueNode v => match key with [] => Found v | _ => Absent end
  end.

(** Modelled from the spec: [Trie.Get(key)]: the value or absent. *)
Definition Get (t : Trie) (key : bytes) : option bytes :=
  match descend (trie_root t) (key_nibbles key) with
  | Found v => Some v
  | _ => None
  end.

(** The nodes visited from [n] along [key], root first, each with the
    rest of the key at it. *)
Fixpoint path (n : node) (key : list Z) : list (node * list Z) :=
  match n with
  | Empty => []
  | Leaf _ _ => [(n, key)]
  | Extension f c =>
      (n, key) :: (if is_prefix f key then path c (drop (length f) key) else [])
  | Branch cs =>
      (n, key) ::
        match key with
        | [] => []
        | x :: rk =>
            (fix go (cs : list node) (i : nat) : list (node * list Z) :=
               match cs with
               | [] => []
               | c :: cs' =>
                   match i with
                   | O => path c rk
                   | S i' => go cs' i'
                   end
               end) cs (Z.to_nat x)
        end
  | HashPlaceholder _ => []
  | ValueNode _ => [(n, key)]
  end.

(** The verdict of a proof check; [depth] counts the proof nodes read. *)
Inductive proof_error :=
| MissingNode (depth : nat) (hash : bytes)
| HashMismatch (depth : nat) (hash : bytes)
| BadNode (depth : nat).

Inductive verdict :=
| Value (value : bytes) (depth : nat)
| NotPresent (depth : nat)
| Invalid (e : proof_error)
| OutOfFuel.

(** The value a verdict returns: [Some (Some v)] a value, [Some None]
    absent with no error, [None] an error or no verdict. *)
Definition returned (r : verdict) : option (option bytes) :=
  match r with
  | Value v _ => Some (Some v)
  | NotPresent _ => Some None
  | _ => None
  end.

Section Proofs.

(** What the spec leaves open: the canonical encoding of a node with its
    decoder, and the content hash. *)
Variable encode : node -> bytes.
Variable decode : bytes -> option node.
Variable hash : bytes -> bytes.

(** Modelled from the spec: small node inlining (section 4.1): a subtree
    whose encoding is at most 32 bytes is embedded in its parent, any other
    is referred to by the hash of its encoding. *)
Definition node_ref (c : node) : node :=
  match c with
  | Empty => Empty
  | HashPlaceholder h => HashPlaceholder h
  | _ => if (length (encode c) <=? 32)%nat then c else HashPlaceholder (hash (encode c))
  end.

(** A node with its subtrees replaced by their references: the form that
    is encoded and hashed. *)
Fixpoint collapse (n : node) : node :=
  match n with
  | Extension f c => Extension f (node_ref (collapse c))
  | Branch cs => Branch (map (fun c => node_ref (collapse c)) cs)
  | _ => n
  end.

Definition node_encoding (n : node) : bytes := encode (collapse n).

Definition node_hash (n : node) : bytes := hash (node_encoding n).

(** Modelled from the spec: [Trie.Hash()]: the root is always hashed. *)
Definition Hash (t : Trie) : bytes := node_hash (trie_root t).

(** A node that is stored under its own hash rather than inlined. *)
Definition addressable (n : node) : bool :=
  negb (length (node_encoding n) <=? 32)%nat.

(** The nodes of a proof: the root and, of the further nodes on the path,
    those that are not inlined in their parent. *)
Definition proof_nodes (n : node) (key : list Z) : list node :=
  match path n key with
  | [] => []
  | r :: below => r.1 :: (filter (fun m => addressable m.1 = true) below).*1
  end.

(** Modelled from the spec: [Trie.Prove(key, fromLevel, proofStore)]
    (section 4.3): walks root-to-leaf along [key] and inserts the
    (hash, encoding) pair of each visited node into the proof store,
    skipping the first [fromLevel] of them. *)
Definition Prove (t : Trie) (key : bytes) (fromLevel : nat)
    (proofStore : gmap bytes bytes) : gmap bytes bytes :=
  foldl (fun store n => <[node_hash n := node_encoding n]> store) proofStore
    (drop fromLevel (proof_nodes (trie_root t) (key_nibbles key))).

(** The loop of [VerifyProof]; [fuel] bounds its iterations. *)
Fixpoint verify (fuel : nat) (wantHash : bytes) (key : list Z)
    (proofStore : gmap bytes bytes) (depth : nat) : verdict :=
  match fuel with
  | O => OutOfFuel
  | S fuel' =>
      match proofStore !! wantHash with
      | None => Invalid (MissingNode depth wantHash)
      | Some buf =>
          if bool_decide (hash buf = wantHash) then
            match decode buf with
            | None => Invalid (BadNode depth)
            | Some n =>
                match descend n key with
                | Found v => Value v (S depth)
                | Absent => NotPresent (S depth)
                | Next h rest => verify fuel' h rest proofStore (S depth)
                end
            end
          else Invalid (HashMismatch depth wantHash)
      end
  end.

(** Modelled from the spec: [VerifyProof(rootHash, key, proofStore)]
    (section 4.3): starting at [rootHash], looks up the encoding for the
    current hash, recomputes its hash and rejects on mismatch, decodes it
    and follows the key until a value, a point where the path cannot
    continue, or a missing entry. *)
Definition VerifyProof (fuel : nat) (rootHash : bytes) (key : bytes)
    (proofStore : gmap bytes bytes) : verdict :=
  verify fuel rootHash (key_nibbles key) proofStore 0.

End Proofs.

(** [mutateByte]: byte [r] of [b] replaced by [new]. *)
Definition mutateByte (b : bytes) (r : nat) (new : Z) : bytes := <[r := new]> b.

End Trie.

(** ** The statements about the trie *)

Module TrieSpec.
Import Trie.

(** A node below which nothing is left to resolve. *)
Fixpoint resolved (n : node) : Prop :=
  match n with
  | Extension _ c => resolved c
  | Branch cs =>
      (fix all (cs : list node) : Prop :=
         match cs with
         | [] => True
         | c :: cs' => resolved c /\ all cs'
         end) cs
  | HashPlaceholder _ => False
  | _ => True
  end.

(** The verdict that returns what following the key reaches. *)
Definition reached (s : step) : option (option (list Z)) :=
  match s with
  | Found v => Some (Some v)
  | Absent => Some None
  | Next _ _ => None
  end.

(** Nibbles. *)
Definition nibbles (key : list Z) : Prop := Forall (fun x => 0 <= x < 16) key.

(** A fully resolved trie all of whose keys have [d] nibbles left. *)
Inductive keyed : nat -> node -> Prop :=
| keyed_empty d : keyed d Empty
| keyed_leaf d ks v : length ks = d -> nibbles ks -> keyed d (Leaf ks v)
| keyed_extension d f c :
    (length f <= d)%nat -> nibbles f -> keyed (d - length f) c ->
    keyed d (Extension f c)
| keyed_branch d cs :
    length cs = 16%nat -> Forall (keyed d) cs -> keyed (S d) (Branch cs).

(** Bytes. *)
Definition octets (key : list Z) : Prop := Forall (fun b => 0 <= b < 256) key.

(** Modelled from the spec: the empty trie of a bucket ([new(Trie)] in the
    tests). *)
Definition empty_trie (bucket : list Z) : Trie :=
  {| trie_root := Empty; trie_bucket := bucket |}.

(** The trie the tests build: the pairs inserted in order. *)
Definition build (bucket : list Z) (kvs : list (list Z * list Z)) : Trie :=
  foldl (fun t kv => Update t kv.1 kv.2 0) (empty_trie bucket) kvs.

(** The map [vals] the tests keep beside the trie. *)
Definition vals_of (kvs : list (list Z * list Z)) : gmap (list Z) (list Z) :=
  foldl (fun m kv => <[kv.1 := kv.2]> m) ∅ kvs.

Section Stored.

Variable encode : node -> list Z.
Variable hash : list Z -> list Z.

(** What the reference to a child leads to: the first node on the path
    below that is stored under its own hash, or what the inlined nodes
    reach. *)
Definition first_stored encode hash (below : list (node * list Z)) (otherwise : step) : step :=
  match filter (fun m : node * list Z => addressable encode hash m.1 = true) below with
  | (m, km) :: _ => Next (node_hash encode hash m) km
  | [] => otherwise
  end.

(** The proof store holds the encoding of [m] under its hash. *)
Definition entry_good (store : gmap (list Z) (list Z)) (m : node) : Prop :=
  store !! node_hash encode hash m = Some (node_encoding encode hash m).

(** The proof store holds nothing under the hash of [m], or something
    that does not hash to it. *)
Definition entry_bad (store : gmap (list Z) (list Z)) (m : node) : Prop :=
  store !! node_hash encode hash m = None \/
  exists e, store !! node_hash encode hash m = Some e /\ hash e <> node_hash encode hash m.

End Stored.

(** *** A concrete codec for the concrete checks

    A postfix encoding read by a stack machine, two bytes per instruction:
    [0; z] appends [z] to the list being read, [1; _] closes that list,
    [2; _] pushes [Empty], and [3] to [7] build a Leaf, an Extension, a
    Branch of the given number of children, a HashPlaceholder and a
    ValueNode from what is on the stacks. *)

Definition example_encode_list (l : list Z) : list Z :=
  flat_map (fun z => [0; z]) l ++ [1; 0].

Fixpoint example_encode (n : node) : list Z :=
  match n with
  | Empty => [2; 0]
  | Leaf ks v => example_encode_list ks ++ example_encode_list v ++ [3; 0]
  | Extension f c => example_encode c ++ example_encode_list f ++ [4; 0]
  | Branch cs =>
      (fix all (cs : list node) : list Z :=
         match cs with
         | [] => []
         | c :: cs' => example_encode c ++ all cs'
         end) cs ++ [5; Z.of_nat (length cs)]
  | HashPlaceholder h => example_encode_list h ++ [6; 0]
  | ValueNode v => example_encode_list v ++ [7; 0]
  end.

Fixpoint example_run (b : list Z) (cur : list Z) (lists : list (list Z))
    (nodes : list node) : option (list node) :=
  match b with
  | [] => match cur, lists with [], [] => Some nodes | _, _ => None end
  | [_] => None
  | op :: arg :: rest =>
      if op =? 0 then example_run rest (cur ++ [arg]) lists nodes
      else if op =? 1 then example_run rest [] (cur :: lists) nodes
      else if op =? 2 then example_run rest cur lists (Empty :: nodes)
      else if op =? 3 then
        match lists with
        | v :: ks :: lists' => example_run rest cur lists' (Leaf ks v :: nodes)
        | _ => None
        end
      else if op =? 4 then
        match lists, nodes with
        | f :: lists', c :: nodes' => example_run rest cur lists' (Extension f c :: nodes')
        | _, _ => None
        end
      else if op =? 5 then
        let k := Z.to_nat arg in
        if (k <=? length nodes)%nat
        then example_run rest cur lists (Branch (rev (take k nodes)) :: drop k nodes)
        else None
      else if op =? 6 then
        match lists with
        | h :: lists' => example_run rest cur lists' (HashPlaceholder h :: nodes)
        | _ => None
        end
      else if op =? 7 then
        match lists with
        | v :: lists' => example_run rest cur lists' (ValueNode v :: nodes)
        | _ => None
        end
      else None
  end.

Definition example_decode (b : list Z) : option node :=
  match example_run b [] [] [] with
  | Some [n] => Some n
  | _ => None
  end.

(** The identity, a hash without collisions. *)
Definition example_hash (b : list Z) : list Z := b.

(** The pairs of the concrete checks, and the encoding of the Branch their
    trie holds below its root. *)
Definition example_pairs : list (list Z * list Z) := [([1], [10]); ([2], [20]); ([1], [11])].

Definition example_branch_encoding : list Z :=
  [2; 0; 1; 0; 0; 11; 1; 0; 3; 0; 1; 0; 0; 20; 1; 0; 3; 0; 2; 0; 2; 0;
   2; 0; 2; 0; 2; 0; 2; 0; 2; 0; 2; 0; 2; 0; 2; 0; 2; 0; 2; 0; 2; 0;
   5; 16].

End TrieSpec.

(** ** Specification-level functions used in the statements *)

(** The [n] low bytes of [x], most significant first. *)
Fixpoint be_bytes (n : nat) (x : Z) : bytes :=
  match n with
  | O => []
  | S n' => (x / 256 ^ Z.of_nat n') mod 256 :: be_bytes n' x
  end.

(** The length of the suffix of a timestamp below 2^53. *)
Definition bytecount_of (t : Z) : Z :=
  if t <? 2 ^ 5 then 1 else if t <? 2 ^ 13 then 2 else if t <? 2 ^ 21 then 3
  else if t <? 2 ^ 29 then 4 else if t <? 2 ^ 37 then 5 else if t <? 2 ^ 45 then 6
  else 7.

(** The keys a value of the change index lists, in the order it lists
    them: the reading loop of the walkers with the keys kept as a list. *)
Definition read_key_list (keycount : nat) (i : nat) (v : bytes) : option (list bytes) :=
  read_keys (fun key (acc : list bytes) => acc ++ [key]) keycount i v [].

(** The change index records [key] of [bucket] as changed at timestamp [ts]. *)
Definition recorded (index : list (bytes * bytes)) (ts : Z) (bucket key : bytes) : Prop :=
  exists k v keycount keys,
    (k, v) ∈ index /\
    decodeTimestamp k = Some (ts, bucket) /\
    be_uint32 v = Some keycount /\
    read_key_list (Z.to_nat keycount) 4 v = Some keys /\
    key ∈ keys.

(** An entry the store's writer can have produced: the suffix of a
    timestamp below 2^53 followed by a bucket name, and a key count followed
    by that many length-prefixed keys. *)
Definition entry_ok (kv : bytes * bytes) : Prop :=
  exists ts bucket keycount keys,
    0 <= ts < 2 ^ 53 /\ bucket <> [] /\
    kv.1 = encodeTimestamp ts ++ bucket /\
    be_uint32 kv.2 = Some keycount /\
    read_key_list (Z.to_nat keycount) 4 kv.2 = Some keys.

(** A change index as a B+tree holds it: keys in strictly ascending byte
    order, every entry well formed. *)
Definition index_ok (index : list (bytes * bytes)) : Prop :=
  StronglySorted (fun a b => bytes_lt a.1 b.1) index /\ Forall entry_ok index.

(** What [rewindData] hands to the callback for [key] of [bucket]: the
    value [GetAsOf] reports as of [timestampDst + 1], nil when it fails. *)
Definition value_as_of (db : Getter) (timestampDst : Z) (bucket key : bytes) : bytes :=
  let '(value, err) := db_get_as_of db (tail bucket) bucket key (timestampDst + 1) in
  match err with Some _ => [] | None => value end.

(** The callback invoked once per pair of [calls], in order, until it
    returns an error. *)
Fixpoint run_calls {D : Type} (db : Getter) (timestampDst : Z)
    (df : D -> bytes -> bytes -> bytes -> D * option error)
    (calls : list (bytes * bytes)) (d : D) : run D :=
  match calls with
  | [] => Done d
  | (bucket, key) :: calls' =>
      match df d bucket key (value_as_of db timestampDst bucket key) with
      | (d', Some e) => Failed d' e
      | (d', None) => run_calls db timestampDst df calls' d'
      end
  end.

(** The map [m] of [rewindData] holds [key] under [bucket]. *)
Definition holds (m : gmap (list Z) (gset (list Z))) (bucket key : list Z) : Prop :=
  exists t, m !! bucket = Some t /\ key ∈ t.

(** The pairs of a list of buckets in iteration order. *)
Definition calls_of (bs : list (list Z * gset (list Z))) : list (list Z * list Z) :=
  flat_map (fun bt => map (pair bt.1) (elements bt.2)) bs.

(** The addresses the second phase of [GetModifiedAccounts] builds from the
    keys of the tree, in order: the preimage of each key copied into an
    address; at the first key whose lookup fails, the error of the code. *)
Fixpoint preimages (db : Getter) (keys : list bytes) : list bytes * option error :=
  match keys with
  | [] => ([], None)
  | key :: keys' =>
      match db_get db Walk.secure_key_prefix key with
      | (_, Some _) => ([], Some (ErrPreimage key))
      | (value, None) =>
          let '(addresses, e) := preimages db keys' in
          (Walk.copy_into Walk.zero_address value :: addresses, e)
      end
  end.

(** ** A small store used in the concrete checks *)

Definition example_suffix_bucket : bytes := [83; 85; 70; 70; 73; 88].

(** Changes of the accounts: key [[9]] at timestamp 3, keys [[1]] and [[2]]
    at 6, key [[1]] again at 7, key [[5]] at 9. *)
Definition example_index : list (bytes * bytes) :=
  [ (encodeTimestamp 3 ++ Walk.hAT, [0; 0; 0; 1; 1; 9]);
    (encodeTimestamp 6 ++ Walk.hAT, [0; 0; 0; 2; 1; 1; 1; 2]);
    (encodeTimestamp 7 ++ Walk.hAT, [0; 0; 0; 1; 1; 1]);
    (encodeTimestamp 9 ++ Walk.hAT, [0; 0; 0; 1; 1; 5]) ].

Definition example_bucket (b : bytes) : list (bytes * bytes) :=
  if bool_decide (b = example_suffix_bucket) then example_index else [].

(** A store whose reads succeed: every key holds the value [[7]]. *)
Definition example_db : Getter :=
  {| db_get := fun _ key => (key ++ [0], None);
     db_get_as_of := fun _ _ _ _ => ([7], None);
     db_bucket := example_bucket;
     db_scan_error := fun _ => None |}.

(** The same store with every read failing with an error that is not the
    not-found sentinel. *)
Definition failing_db : Getter :=
  {| db_get := fun _ _ => ([], Some (ErrStore 5));
     db_get_as_of := fun _ _ _ _ => ([], Some (ErrStore 5));
     db_bucket := example_bucket;
     db_scan_error := fun _ => None |}.

(** The same store with every key absent. *)
Definition absent_db : Getter :=
  {| db_get := fun _ _ => ([], Some ErrKeyNotFound);
     db_get_as_of := fun _ _ _ _ => ([], Some ErrKeyNotFound);
     db_bucket := example_bucket;
     db_scan_error := fun _ => None |}.

(** A store whose scan of the change index fails. *)
Definition broken_scan_db : Getter :=
  {| db_get := fun _ _ => ([], Some (ErrStore 5));
     db_get_as_of := fun _ _ _ _ => ([], Some (ErrStore 5));
     db_bucket := fun _ => [];
     db_scan_error := fun _ => Some (ErrStore 9) |}.

(** A callback that records its arguments and succeeds, and one that
    records them and fails. *)
Definition recording_df (trace : list (bytes * bytes * bytes)) (bucket key value : bytes)
    : list (bytes * bytes * bytes) * option error :=
  (trace ++ [(bucket, key, value)], None).

Definition refusing_df (trace : list (bytes * bytes * bytes)) (bucket key value : bytes)
    : list (bytes * bytes * bytes) * option error :=
  (trace ++ [(bucket, key, value)], Some (ErrStore 1)).

(** ** Deletion and the canonical-minimal form *)

Module TrieDelete.
Import Trie TrieSpec.

(** [n] below the fragment [f], with the fragment merged into a Leaf or an
    Extension: an Extension whose only child is an Extension or a Leaf does
    not stay. *)
Definition prepend (f : list Z) (n : node) : node :=
  match n with
  | Empty => Empty
  | Leaf ks v => Leaf (f ++ ks) v
  | Extension f' c => Extension (f ++ f') c
  | _ => extend f n
  end.

(** The slots of a Branch that hold a child, with their numbers from [i] on. *)
Fixpoint live_from (i : nat) (cs : list node) : list (nat * node) :=
  match cs with
  | [] => []
  | c :: cs' =>
      match c with
      | Empty => live_from (S i) cs'
      | _ => (i, c) :: live_from (S i) cs'
      end
  end.

(** A Branch after one of its children changed: with no child left it is
    [Empty], with one it collapses into that child below its nibble. *)
Definition collapse_branch (cs : list node) : node :=
  match live_from 0 cs with
  | [] => Empty
  | [(i, c)] => prepend [Z.of_nat i] c
  | _ => Branch cs
  end.

(** Modelled from the spec: the restructuring of [Trie.Delete], which is
    not in the sources (section 4.2): collapsing Branch nodes and merging an
    Extension whose only child is another Extension. *)
Fixpoint remove (n : node) (key : list Z) : node :=
  match n with
  | Empty => Empty
  | Leaf ks v => if bool_decide (ks = key) then Empty else n
  | Extension f c =>
      if is_prefix f key then prepend f (remove c (drop (length f) key)) else n
  | Branch cs =>
      match key with
      | [] => n
      | x :: rk =>
          collapse_branch
            ((fix go (cs : list node) (i : nat) : list node :=
                match cs with
                | [] => []
                | c :: cs' =>
                    match i with
                    | O => remove c rk :: cs'
                    | S i' => c :: go cs' i'
                    end
                end) cs (Z.to_nat x))
      end
  | HashPlaceholder _ => n
  | ValueNode _ => n
  end.

(** Modelled from the spec: [Trie.Delete(key, timestamp)]. *)
Definition Delete (t : Trie) (key : list Z) (timestamp : Z) : Trie :=
  {| trie_root := remove (trie_root t) (key_nibbles key);
     trie_bucket := trie_bucket t |}.

(** Slot [i] of a Branch holds a child. *)
Definition live_child (cs : list node) (i : nat) : Prop :=
  exists c, cs !! i = Some c /\ c <> Empty.

(** Modelled from the spec: the canonical-minimal form (section 3): no
    Extension with an empty fragment or with a child other than a Branch,
    no Branch with fewer than two live children. *)
Inductive minimal : node -> Prop :=
| minimal_empty : minimal Empty
| minimal_leaf ks v : minimal (Leaf ks v)
| minimal_extension f cs :
    f <> [] -> minimal (Branch cs) -> minimal (Extension f (Branch cs))
| minimal_branch cs i j :
    i <> j -> live_child cs i -> live_child cs j -> Forall minimal cs ->
    minimal (Branch cs).

(** A lookup of [key], of [d] nibbles, finds a value in [n]. *)
Definition finds (n : node) (d : nat) (key : list Z) : Prop :=
  length key = d /\ nibbles key /\ exists v, descend n key = Found v.

End TrieDelete.

(** ** TrieDbState and unwinding *)

Module Unwind.
Import Trie TrieSpec TrieDelete.

(** One mutation of a block, a key and its new value, applied to the trie:
    an empty value removes the key. *)
Definition apply_op (timestamp : Z) (t : Trie) (op : bytes * bytes) : Trie :=
  match op.2 with
  | [] => Delete t op.1 timestamp
  | _ => Update t op.1 op.2 timestamp
  end.

(** The trie after the blocks that follow block [blockNr], each a list of
    mutations in order. *)
Fixpoint apply_blocks (t : Trie) (blockNr : Z) (blocks : list (list (bytes * bytes)))
    : Trie :=
  match blocks with
  | [] => t
  | ops :: blocks' =>
      apply_blocks (foldl (apply_op (blockNr + 1)) t ops) (blockNr + 1) blocks'
  end.

(** The trie that exists natively at block [n]: blocks 1 to [n] applied to
    the empty trie. *)
Definition trie_at (bucket : bytes) (blocks : list (list (bytes * bytes))) (n : nat)
    : Trie :=
  apply_blocks (empty_trie bucket) 0 (take n blocks).

(** The mutations of blocks 1 to [n], in order. *)
Definition ops_until (blocks : list (list (bytes * bytes))) (n : nat)
    : list (bytes * bytes) :=
  concat (take n blocks).

(** The value of [key] after the mutations [ops]: that of the last one on
    [key]; empty when there is none or the last one removed the key. *)
Definition value_after (ops : list (bytes * bytes)) (key : bytes) : bytes :=
  default [] (vals_of ops !! key).

(** The last value the mutations [ops] give to the key with nibbles [key']. *)
Definition last_write (ops : list (bytes * bytes)) (key' : list Z) : option bytes :=
  foldl (fun acc op => if bool_decide (key_nibbles op.1 = key') then Some op.2 else acc)
    None ops.

(** What a lookup finds for a value: nothing for the empty one. *)
Definition found_of (value : bytes) : step :=
  match value with
  | [] => Absent
  | _ => Found value
  end.

(** Block [ts] changes [key]. *)
Definition changed_at (blocks : list (list (bytes * bytes))) (ts : Z) (key : bytes) : Prop :=
  0 < ts /\ exists ops, blocks !! Z.to_nat (ts - 1) = Some ops /\ key ∈ ops.*1.

(** Modelled from the spec: the side index of the store, which is not in
    the sources (section 4.5): it holds, keyed by timestamp, the set of
    (bucket, key) pairs changed at that timestamp.  The history bucket of
    [bucket] is named by [h] followed by the name of [bucket], as
    [rewindData] takes it apart. *)
Definition index_records (index : list (bytes * bytes)) (bucket : bytes)
    (blocks : list (list (bytes * bytes))) : Prop :=
  forall ts hBucket key,
    recorded index ts hBucket key <-> hBucket = 104 :: bucket /\ changed_at blocks ts key.

(** Modelled from the spec: the contract of [GetAsOf] of the store, which is
    not in the sources (sections 4.5 and 8): the value effective immediately
    before [timestamp], absent before the first write of the key and after
    its removal.  An absent key comes back as a nil value or as an error. *)
Definition as_of_ok (db : Getter) (bucket : bytes) (blocks : list (list (bytes * bytes)))
    : Prop :=
  forall key timestamp, 0 < timestamp ->
    match db_get_as_of db bucket (104 :: bucket) key timestamp with
    | (value, None) => value = value_after (ops_until blocks (Z.to_nat (timestamp - 1))) key
    | (_, Some _) => value_after (ops_until blocks (Z.to_nat (timestamp - 1))) key = []
    end.

(** Modelled from the spec: the type TrieDbState, which is not in the
    sources (section 3): a Trie bound to a store and a current timestamp. *)
Record TrieDbState := {
  tds_t : Trie;
  tds_db : Getter;
  tds_blockNr : Z
}.

Section UnwindTo.

Variable SuffixBucket : bytes.

(** The callback [UnwindTo] hands to [rewindData]: each yielded value
    applied as a Trie Update or Delete. *)
Definition unwind_df (timestamp : Z) (t : Trie) (bucket key value : bytes)
    : Trie * option error :=
  (apply_op timestamp t (key, value), None).

(** Modelled from the spec: [TrieDbState.UnwindTo(target)], which is not in
    the sources (section 4.5): it drives [rewindData] from the current
    timestamp to [target] and applies each yielded value as a Trie Update or
    Delete.  The history of the store is append-only and stays. *)
Definition UnwindTo (tds : TrieDbState) (target : Z) : run TrieDbState :=
  match Walk.rewindData SuffixBucket (tds_db tds) (tds_blockNr tds) target
          (unwind_df target) (tds_t tds) with
  | Done t => Done {| tds_t := t; tds_db := tds_db tds; tds_blockNr := target |}
  | Failed t e =>
      Failed {| tds_t := t; tds_db := tds_db tds; tds_blockNr := tds_blockNr tds |} e
  | Panicked => Panicked
  end.

End UnwindTo.

End Unwind.

(** ** A store that records blocks *)

Module History.
Import Trie TrieSpec TrieDelete Unwind.

(** The keys of a value of the change index, each behind its length. *)
Definition encode_keys (keys : list bytes) : bytes :=
  flat_map (fun key => Z.of_nat (length key) :: key) keys.

(** The entry of the change index for the block of timestamp [ts] with the
    mutations [ops], in the layout [rewindData] reads: the key is the suffix
    of [ts] followed by the name of the history bucket, the value the number
    of keys, big-endian on 4 bytes, followed by the keys. *)
Definition index_entry (bucket : bytes) (ts : Z) (ops : list (bytes * bytes))
    : bytes * bytes :=
  (encodeTimestamp ts ++ 104 :: bucket,
   be_bytes 4 (Z.of_nat (length ops)) ++ encode_keys ops.*1).

(** The change index of the blocks that follow block [blockNr]; a block
    without mutations leaves no entry. *)
Fixpoint change_index (bucket : bytes) (blockNr : Z) (blocks : list (list (bytes * bytes)))
    : list (bytes * bytes) :=
  match blocks with
  | [] => []
  | ops :: blocks' =>
      match ops with
      | [] => change_index bucket (blockNr + 1) blocks'
      | _ => index_entry bucket (blockNr + 1) ops :: change_index bucket (blockNr + 1) blocks'
      end
  end.

(** A value as a read returns it: the not-found error for an absent one. *)
Definition read_value (value : bytes) : value_err :=
  match value with
  | [] => ([], Some ErrKeyNotFound)
  | _ => (value, None)
  end.

(** Modelled from the spec: a store that has recorded blocks 1 to
    [length blocks] of mutations of [bucket] (sections 4.5 and 8): [Get]
    reads the live value, [GetAsOf] the value effective immediately before
    the timestamp, and the bucket [SuffixBucket] holds the change index. *)
Definition history_db (SuffixBucket bucket : bytes) (blocks : list (list (bytes * bytes)))
    : Getter :=
  {| db_get := fun b key =>
       if bool_decide (b = bucket) then read_value (value_after (concat blocks) key)
       else ([], Some ErrKeyNotFound);
     db_get_as_of := fun b hb key timestamp =>
       if bool_decide (b = bucket /\ hb = 104 :: bucket)
       then read_value (value_after (ops_until blocks (Z.to_nat (timestamp - 1))) key)
       else ([], Some ErrKeyNotFound);
     db_bucket := fun b =>
       if bool_decide (b = SuffixBucket) then change_index bucket 0 blocks else [];
     db_scan_error := fun _ => None |}.

(** Blocks of two accounts: both created in block 1, the first changed in
    block 2, the second removed and a third created in block 3. *)
Definition example_blocks : list (list (bytes * bytes)) :=
  [ [([1], [10]); ([2], [20])];
    [([1], [11])];
    [([2], []); ([3], [30])] ].

(** Modelled from the spec: the same store for a chain whose blocks up to
    [base] change nothing and whose blocks [base + 1], [base + 2], ... hold
    the mutations [blocks].  The entries of the change index are in block
    order, which is the order of their keys where the suffixes of the
    timestamps have one length. *)
Definition history_db_from (SuffixBucket bucket : bytes) (base : Z)
    (blocks : list (list (bytes * bytes))) : Getter :=
  {| db_get := fun b key =>
       if bool_decide (b = bucket) then read_value (value_after (concat blocks) key)
       else ([], Some ErrKeyNotFound);
     db_get_as_of := fun b hb key timestamp =>
       if bool_decide (b = bucket /\ hb = 104 :: bucket)
       then read_value
              (value_after (ops_until blocks (Z.to_nat (timestamp - 1 - base))) key)
       else ([], Some ErrKeyNotFound);
     db_bucket := fun b =>
       if bool_decide (b = SuffixBucket) then change_index bucket base blocks else [];
     db_scan_error := fun _ => None |}.

(** Two blocks on one account: created in the first, changed in the
    second. *)
Definition late_blocks : list (list (bytes * bytes)) :=
  [ [([3], [29])];
    [([3], [30])] ].

End History.

(** ** cmd/hack: prefixLen *)

Module Hack.

(** The loop of [prefixLen],
    [for ; i < length; i++ { if a[i] != b[i] { break } }],
    with [fuel] iterations left.  An index out of range would panic; the
    loop never reaches one, [length] being the shorter length. *)
Fixpoint prefixLen_loop (fuel : nat) (a b : bytes) (i length : nat) : option nat :=
  match fuel with
  | O => Some i
  | S fuel' =>
      if (i <? length)%nat then
        match a !! i, b !! i with
        | Some x, Some y =>
            if bool_decide (x = y) then prefixLen_loop fuel' a b (S i) length else Some i
        | _, _ => None
        end
      else Some i
  end.

(** [prefixLen]: the length of the common prefix of [a] and [b]. *)
Definition prefixLen (a b : bytes) : option nat :=
  let length := if (length b <? length a)%nat then length b else length a in
  prefixLen_loop length a b 0 length.

End Hack.

(** ** core/block_validator.go *)

Module Core.

(** Of a block and its header, the fields the validator reads. *)
Record Block := {
  block_Number : Z;
  block_ParentHash : bytes;
  block_GasUsed : Z;
  block_GasLimit : Z;
  block_Bloom : bytes;
  block_ReceiptHash : bytes;
  block_Root : bytes;
  block_UncleHash : bytes;
  block_TxHash : bytes
}.

Section Params.

(** [params.GasLimitBoundDivisor] and [params.MinGasLimit] are declared in
    package params. *)
Variable GasLimitBoundDivisor : Z.
Variable MinGasLimit : Z.

(** [CalcGasLimit], on uint64 throughout. *)
Definition CalcGasLimit (parent : Block) (gasFloor gasCeil : Z) : Z :=
  let contrib :=
    u64 (block_GasUsed parent + block_GasUsed parent / 2) / GasLimitBoundDivisor in
  let decay := u64 (block_GasLimit parent / GasLimitBoundDivisor - 1) in
  let limit := u64 (u64 (block_GasLimit parent - decay) + contrib) in
  let limit := if limit <? MinGasLimit then MinGasLimit else limit in
  if limit <? gasFloor then
    let limit := u64 (block_GasLimit parent + decay) in
    if limit >? gasFloor then gasFloor else limit
  else if limit >? gasCeil then
    let limit := u64 (block_GasLimit parent - decay) in
    if limit <? gasCeil then gasCeil else limit
  else limit.

End Params.

(** The errors of the validator: the two sentinels of package consensus it
    returns, the errors it builds with [fmt.Errorf], each with the values it
    prints, and an error handed on from a callee. *)
Inductive validation_error :=
| ErrUnknownAncestor
| ErrPrunedAncestor
| UncleRootMismatch (have want : bytes)
| TxRootMismatch (have want : bytes)
| InvalidGasUsed (remote local : Z)
| InvalidBloom (remote local : bytes)
| InvalidReceiptRoot (remote local : bytes)
| InvalidMerkleRoot (remote local : bytes)
| FromCallee (e : error).

(** The chain as [ValidateBody] consults it: the flag [noHistory], whether
    [GetBlockByHash] finds a block, [HasBlockAndState] and [HasBlock]. *)
Record BlockChain := {
  bc_noHistory : bool;
  bc_GetBlockByHash : bytes -> bool;
  bc_HasBlockAndState : bytes -> Z -> bool;
  bc_HasBlock : bytes -> Z -> bool
}.

(** [ValidateBody].  [verifyUncles] is what [v.engine.VerifyUncles] returns
    for the block, [uncleHash] and [txHash] what [types.CalcUncleHash] and
    [types.DeriveSha] compute from its uncles and transactions. *)
Definition ValidateBody (bc : BlockChain) (verifyUncles : option error)
    (uncleHash txHash : bytes) (block : Block) : option validation_error :=
  if negb (bc_noHistory bc) && negb (bc_GetBlockByHash bc (block_ParentHash block))
  then Some ErrUnknownAncestor
  else
    match verifyUncles with
    | Some e => Some (FromCallee e)
    | None =>
        if negb (bool_decide (uncleHash = block_UncleHash block))
        then Some (UncleRootMismatch uncleHash (block_UncleHash block))
        else if negb (bool_decide (txHash = block_TxHash block))
        then Some (TxRootMismatch txHash (block_TxHash block))
        else if bc_noHistory bc then None
        else if negb (bc_HasBlockAndState bc (block_ParentHash block)
                        (u64 (block_Number block - 1)))
        then
          if negb (bc_HasBlock bc (block_ParentHash block) (u64 (block_Number block - 1)))
          then Some ErrUnknownAncestor
          else Some ErrPrunedAncestor
        else None
    end.

(** The dump of the tries [ValidateState] starts, into [root_<n>.txt] or
    [right_<n>.txt]; the file may fail to open, which the code lets pass. *)
Inductive snapshot :=
| WrongTries (number : Z)
| RightTries (number : Z).

(** [ValidateState]: the error and the dump started.  [dblks] is the map of
    watched block numbers, [rbloom] and [receiptSha] what [types.CreateBloom]
    and [types.DeriveSha] compute from the receipts, [intermediateRoot] what
    [tds.IntermediateRoot] returns. *)
Definition ValidateState (dblks : gmap Z bool) (block : Block) (usedGas : Z)
    (rbloom receiptSha : bytes) (intermediateRoot : bytes * option error)
    : option validation_error * option snapshot :=
  if negb (block_GasUsed block =? usedGas)
  then (Some (InvalidGasUsed (block_GasUsed block) usedGas), None)
  else if negb (bool_decide (rbloom = block_Bloom block))
  then (Some (InvalidBloom (block_Bloom block) rbloom), None)
  else if negb (bool_decide (receiptSha = block_ReceiptHash block))
  then (Some (InvalidReceiptRoot (block_ReceiptHash block) receiptSha), None)
  else
    let '(root, err) := intermediateRoot in
    if negb (bool_decide (block_Root block = root)) then
      match err with
      | Some e => (Some (FromCallee e), None)
      | None =>
          (Some (InvalidMerkleRoot (block_Root block) root),
           Some (WrongTries (block_Number block)))
      end
    else
      match dblks !! block_Number block with
      | Some true => (None, Some (RightTries (block_Number block)))
      | _ => (None, None)
      end.

End Core.

(** The trees of storage overrides of a [DbState] are in ascending order of
    [seckey], without repetition. *)
Definition overrides_sorted (dbs : State.DbState) : Prop :=
  forall address t, State.dbs_storage dbs !! address = Some t ->
    StronglySorted (fun a b => bytes_lt (State.item_seckey a) (State.item_seckey b)) t.

(** ** core/state: DbState.ForEachStorage *)

Module StateIter.
Import State.

(** [common.Hash{}], 32 zero bytes. *)
Definition emptyHash : bytes := replicate 32 0.

(** Go's [int] is taken at 64 bits: sums wrap into [-2^63, 2^63). *)
Definition int (x : Z) : Z := (x + 2 ^ 63) mod 2 ^ 64 - 2 ^ 63.

(** GoLLRB's [Has]: the tree holds an item that is neither below nor above
    [x]; and [InsertNoReplace]: [x] goes behind the items that are not above
    it. *)
Definition Has (x : storageItem) (t : list storageItem) : bool :=
  existsb (fun y => negb (storageItem_less x y) && negb (storageItem_less y x)) t.

Fixpoint InsertNoReplace (x : storageItem) (t : list storageItem) : list storageItem :=
  match t with
  | [] => [x]
  | y :: t' => if storageItem_less x y then x :: y :: t' else y :: InsertNoReplace x t'
  end.

Section ForEachStorage.

(** What the method uses and the file does not define: [common.BytesToHash]
    (to which [Hash.SetBytes] on a zero hash amounts), [trie.SecureKeyPrefix],
    and the method [WalkAsOf] of the store, taken as the list of entries it
    hands to its walker, in order. *)
Variable BytesToHash : bytes -> bytes.
Variable SecureKeyPrefix : bytes.
Variable WalkAsOf : Getter -> bytes -> bytes -> bytes -> Z -> Z -> list (bytes * bytes).

(** The iterator over the overrides of the address; its state is
    [(st, lastSecKey, overrideCounter)].  The counters of the method count
    items of a tree and stay far below 2^63; the sums with [maxResults] can
    wrap. *)
Definition override_iterator (maxResults : Z) (s : list storageItem * bytes * Z)
    (item : storageItem) : bool * (list storageItem * bytes * Z) :=
  let '(st, lastSecKey, overrideCounter) := s in
  let st := LLRB.ReplaceOrInsert storageItem_less item st in
  if bool_decide (item_value item <> emptyHash) then
    let overrideCounter := overrideCounter + 1 in
    (overrideCounter <? maxResults,
     (st, Walk.copy_into lastSecKey (item_seckey item), overrideCounter))
  else (overrideCounter <? maxResults, (st, lastSecKey, overrideCounter)).

(** The walker handed to [WalkAsOf]; its state is the tree [st].  [ks[20:]]
    panics on a key shorter than 20 bytes. *)
Definition storage_walker (addr : bytes) (maxResults : Z) (lastSecKey : bytes)
    (overrideCounter numDeletes : Z) (st : list storageItem) (ks vs : bytes)
    : run (bool * list storageItem) :=
  if negb (bool_decide (take (length addr) ks = addr)) then Done (false, st)
  else
    match vs with
    | [] => Done (true, st)
    | _ =>
        if (length ks <? 20)%nat then Panicked
        else
          let seckey := drop 20 ks in
          let si_seckey := Walk.copy_into emptyHash seckey in
          if Has {| item_key := emptyHash; item_seckey := si_seckey;
                    item_value := emptyHash |} st
          then Done (true, st)
          else
            let si := {| item_key := emptyHash; item_seckey := si_seckey;
                         item_value := BytesToHash vs |} in
            let st := InsertNoReplace si st in
            match bytes_compare seckey lastSecKey with
            | Gt => Done (Z.of_nat (LLRB.Len st) <? int (maxResults + numDeletes), st)
            | _ =>
                Done (Z.of_nat (LLRB.Len st)
                        <? int (int (maxResults + overrideCounter) + numDeletes),
                      st)
            end
    end.

(** The iterator of the last phase.  Its state is the state [c] of the
    callback, [results], and the keys it has filled in, each with the
    [seckey] of its item: the items are pointers, and those that came from
    the overrides are the items of that tree. *)
Definition result_iterator {C : Type} (db : Getter)
    (cb : C -> bytes -> bytes -> bytes -> bool * C) (maxResults : Z)
    (s : C * Z * list (bytes * bytes)) (item : storageItem)
    : bool * (C * Z * list (bytes * bytes)) :=
  let '(c, results, filled) := s in
  if bool_decide (item_value item <> emptyHash) then
    let '(key, filled) :=
      if bool_decide (item_key item = emptyHash) then
        match db_get db SecureKeyPrefix (item_seckey item) with
        | (value, None) =>
            (Walk.copy_into (item_key item) value,
             filled ++ [(item_seckey item, Walk.copy_into (item_key item) value)])
        | (_, Some _) => (item_key item, filled)
        end
      else (item_key item, filled) in
    let c := (cb c key (item_seckey item) (item_value item)).2 in
    (results + 1 <? maxResults, (c, results + 1, filled))
  else (results <? maxResults, (c, results, filled)).

(** The invocations of the callback in the last phase over [items], as
    [(key, seckey, value)], with [results] invocations made before. *)
Fixpoint result_calls (db : Getter) (maxResults results : Z) (items : list storageItem)
    : list (bytes * bytes * bytes) :=
  match items with
  | [] => []
  | item :: items' =>
      if bool_decide (item_value item <> emptyHash) then
        let key :=
          if bool_decide (item_key item = emptyHash) then
            match db_get db SecureKeyPrefix (item_seckey item) with
            | (value, None) => Walk.copy_into (item_key item) value
            | (_, Some _) => item_key item
            end
          else item_key item in
        (key, item_seckey item, item_value item)
          :: (if results + 1 <? maxResults
              then result_calls db maxResults (results + 1) items' else [])
      else if results <? maxResults then result_calls db maxResults results items' else []
  end.

(** An item of the tree of overrides after the last phase: its key filled
    in when it went through [st] and the last phase filled it. *)
Definition fill_key (st : list storageItem) (filled : list (bytes * bytes))
    (item : storageItem) : storageItem :=
  if existsb (fun y => bool_decide (item_seckey y = item_seckey item)) st then
    match find (fun p : bytes * bytes => bool_decide (p.1 = item_seckey item)) filled with
    | Some p =>
        {| item_key := p.2; item_seckey := item_seckey item; item_value := item_value item |}
    | None => item
    end
  else item.

(** [ForEachStorage]: the state the callback is left in and the [DbState];
    [None] for a panic.  The error of [WalkAsOf] is not looked at. *)
Definition ForEachStorage {C : Type} (dbs : DbState) (addr start : bytes)
    (cb : C -> bytes -> bytes -> bytes -> bool * C) (maxResults : Z) (c : C)
    : option (C * DbState) :=
  let s := Walk.copy_into (replicate 20 0) addr ++ Walk.copy_into (replicate 32 0) start in
  let min := {| item_key := emptyHash; item_seckey := BytesToHash start;
                item_value := emptyHash |} in
  let '(st, lastSecKey, overrideCounter) :=
    match dbs_storage dbs !! addr with
    | Some t =>
        LLRB.AscendGreaterOrEqual storageItem_less min (override_iterator maxResults) t
          (LLRB.New, emptyHash, 0)
    | None => (LLRB.New, emptyHash, 0)
    end in
  let numDeletes := Z.of_nat (LLRB.Len st) - overrideCounter in
  let walked :=
    walk_entries (storage_walker addr maxResults lastSecKey overrideCounter numDeletes) None
      (WalkAsOf (dbs_db dbs) StorageBucket StorageHistoryBucket s 0 (u64 (dbs_blockNr dbs + 1)))
      st in
  let finish (st2 : list storageItem) :=
    let '(c', _, filled) :=
      LLRB.AscendGreaterOrEqual storageItem_less min
        (result_iterator (dbs_db dbs) cb maxResults) st2 (c, 0, []) in
    (c',
     {| dbs_db := dbs_db dbs;
        dbs_blockNr := dbs_blockNr dbs;
        dbs_storage :=
          match dbs_storage dbs !! addr with
          | Some t => <[addr := map (fill_key st filled) t]> (dbs_storage dbs)
          | None => dbs_storage dbs
          end |}) in
  match walked with
  | Done st2 => Some (finish st2)
  | Failed st2 _ => Some (finish st2)
  | Panicked => None
  end.

End ForEachStorage.

(** A state with two overrides of one address, the first a deletion, and a
    store with four slots of that address. *)
Definition example_address : bytes := replicate 20 1.

Definition example_slot (n : Z) : bytes := replicate 31 0 ++ [n].

Definition example_BytesToHash (b : bytes) : bytes :=
  replicate (32 - length b) 0 ++ drop (length b - 32) b.

Definition example_overrides : DbState :=
  {| dbs_db := example_db;
     dbs_blockNr := 7;
     dbs_storage :=
       {[ example_address :=
            [ {| item_key := example_slot 3; item_seckey := example_slot 3;
                 item_value := emptyHash |};
              {| item_key := example_slot 5; item_seckey := example_slot 5;
                 item_value := example_slot 9 |} ] ]} |}.

Definition example_WalkAsOf (db : Getter) (bucket hBucket startkey : bytes)
    (fixedbits timestamp : Z) : list (bytes * bytes) :=
  [ (example_address ++ example_slot 1, [4]);
    (example_address ++ example_slot 3, [7]);
    (example_address ++ example_slot 5, [8]);
    (example_address ++ example_slot 6, [1]) ].

End StateIter.

(** The order of a tree of [storageItem]s, and the items with a value. *)
Abbreviation by_seckey :=
  (fun a b : State.storageItem => bytes_lt (State.item_seckey a) (State.item_seckey b)).

Abbreviation nonzero :=
  (fun it : State.storageItem => State.item_value it <> StateIter.emptyHash).

(** * Properties *)

(** ** The codec on concrete timestamps *)

Example encodeTimestamp_5 : encodeTimestamp 5 = [37].
Proof. reflexivity. Qed.

Example encodeTimestamp_32 : encodeTimestamp 32 = [64; 32].
Proof. reflexivity. Qed.

Example encodeTimestamp_top : encodeTimestamp (2 ^ 53 - 1) = [255; 255; 255; 255; 255; 255; 255].
Proof. reflexivity. Qed.

Example encodeTimestamp_out_of_range : encodeTimestamp (2 ^ 61) = [].
Proof. reflexivity. Qed.

Example decodeTimestamp_300 : decodeTimestamp (encodeTimestamp 300 ++ [7; 8]) = Some (300, [7; 8]).
Proof. reflexivity. Qed.

(** ** Bit-level facts *)

Lemma testbit_small_high x k n :
  0 <= x < 2 ^ k -> k <= n -> Z.testbit x n = false.
Proof.
  intros Hx Hn. destruct (Z.eq_dec x 0) as [->|Hne]; [apply Z.bits_0|].
  apply Z.bits_above_log2; [lia|].
  assert (0 <= k). { destruct (Z.lt_ge_cases k 0); [|lia]. rewrite Z.pow_neg_r in Hx; lia. }
  assert (Z.log2 x < k) by (apply Z.log2_lt_pow2; lia). lia.
Qed.

Lemma land_disjoint a x k :
  0 <= k -> 0 <= x < 2 ^ k -> Z.land (a * 2 ^ k) x = 0.
Proof.
  intros Hk Hx. apply Z.bits_inj'; intros n Hn.
  rewrite Z.land_spec, Z.bits_0.
  destruct (Z.lt_ge_cases n k).
  - rewrite Z.mul_pow2_bits_low by lia. reflexivity.
  - rewrite (testbit_small_high x k n) by lia. apply andb_false_r.
Qed.

Lemma lor_disjoint_add a x k :
  0 <= k -> 0 <= x < 2 ^ k -> Z.lor (a * 2 ^ k) x = a * 2 ^ k + x.
Proof.
  intros Hk Hx. pose proof (land_disjoint a x k Hk Hx) as H0.
  rewrite <- Z.lxor_lor by exact H0. symmetry. apply Z.add_nocarry_lxor, H0.
Qed.

Lemma to_byte_mod x : to_byte x = x mod 256.
Proof. unfold to_byte. change 255 with (Z.ones 8). rewrite Z.land_ones by lia. reflexivity. Qed.

Lemma to_byte_small x : 0 <= x < 256 -> to_byte x = x.
Proof. intros. rewrite to_byte_mod. apply Z.mod_small; lia. Qed.


Lemma be_bytes_snoc n x : be_bytes (S n) x = be_bytes n (x / 256) ++ [x mod 256].
Proof.
  induction n as [|n IH].
  - simpl. rewrite Z.div_1_r. reflexivity.
  - change (be_bytes (S (S n)) x) with ((x / 256 ^ Z.of_nat (S n)) mod 256 :: be_bytes (S n) x).
    rewrite IH. simpl be_bytes at 2. simpl app. f_equal. f_equal.
    rewrite Nat2Z.inj_succ, Z.pow_succ_r by lia.
    rewrite Z.div_div by lia. reflexivity.
Qed.

Lemma fill_tail_spec n b acc :
  fill_tail n b acc = (b / 256 ^ Z.of_nat n, be_bytes n b ++ acc).
Proof.
  revert b acc. induction n as [|n IH]; intros b acc.
  - simpl. rewrite Z.div_1_r. reflexivity.
  - cbn [fill_tail]. rewrite IH, be_bytes_snoc, <- app_assoc. simpl app.
    rewrite Z.shiftr_div_pow2 by lia. change (2 ^ 8) with 256.
    rewrite Nat2Z.inj_succ, Z.pow_succ_r by lia.
    rewrite Z.div_div by lia.
    rewrite to_byte_mod. change 255 with (Z.ones 8). rewrite Z.land_ones by lia.
    change (2 ^ 8) with 256. rewrite Z.mod_mod by lia. reflexivity.
Qed.

Lemma be_bytes_length n x : length (be_bytes n x) = n.
Proof. induction n; simpl; auto. Qed.

Lemma be_bytes_compare n : forall x y,
  bytes_compare (be_bytes n x) (be_bytes n y)
  = (x mod 256 ^ Z.of_nat n ?= y mod 256 ^ Z.of_nat n).
Proof.
  induction n as [|n IH]; intros x y.
  - simpl. rewrite !Z.mod_1_r. reflexivity.
  - cbn [be_bytes bytes_compare]. rewrite IH.
    rewrite Nat2Z.inj_succ, Z.pow_succ_r by lia.
    set (p := 256 ^ Z.of_nat n). assert (0 < p) by (apply Z.pow_pos_nonneg; lia).
    rewrite (Z.mul_comm 256 p).
    rewrite !Z.rem_mul_r by lia.
    pose proof (Z.mod_pos_bound x p). pose proof (Z.mod_pos_bound y p).
    pose proof (Z.mod_pos_bound (x / p) 256). pose proof (Z.mod_pos_bound (y / p) 256).
    destruct (Z.compare_spec ((x / p) mod 256) ((y / p) mod 256)) as [E|L|G].
    + rewrite E. destruct (Z.compare_spec (x mod p) (y mod p)); symmetry.
      * apply Z.compare_eq_iff. lia.
      * apply Z.compare_lt_iff. lia.
      * apply Z.compare_gt_iff. lia.
    + symmetry. apply Z.compare_lt_iff. nia.
    + symmetry. apply Z.compare_gt_iff. nia.
Qed.

Lemma decode_loop_spec n : forall pre ts x rest,
  0 <= ts -> 0 <= x -> ts * 256 ^ Z.of_nat n + x mod 256 ^ Z.of_nat n < 2 ^ 64 ->
  decode_loop n (length pre) ts (pre ++ be_bytes n x ++ rest)
  = Some (ts * 256 ^ Z.of_nat n + x mod 256 ^ Z.of_nat n).
Proof.
  induction n as [|n IH]; intros pre ts x rest Hts Hx Hb.
  - simpl. rewrite Z.mod_1_r. f_equal. lia.
  - cbn [decode_loop be_bytes].
    rewrite Nat2Z.inj_succ, Z.pow_succ_r in Hb |- * by lia.
    set (p := 256 ^ Z.of_nat n) in *. assert (0 < p) by (apply Z.pow_pos_nonneg; lia).
    rewrite (Z.mul_comm 256 p) in Hb |- *.
    rewrite Z.rem_mul_r in Hb |- * by lia.
    pose proof (Z.mod_pos_bound x p ltac:(lia)).
    pose proof (Z.mod_pos_bound (x / p) 256 ltac:(lia)).
    set (h := (x / p) mod 256) in *.
    assert (Hl : (pre ++ (h :: be_bytes n x) ++ rest) !! length pre = Some h).
    { rewrite lookup_app_r by lia. rewrite Nat.sub_diag. reflexivity. }
    rewrite Hl.
    assert (Hu : u64 (Z.lor (Z.shiftl ts 8) h) = ts * 256 + h).
    { rewrite Z.shiftl_mul_pow2 by lia. rewrite lor_disjoint_add by (change (2^8) with 256; lia).
      change (2 ^ 8) with 256. unfold u64. apply Z.mod_small. nia. }
    rewrite Hu.
    replace (S (length pre)) with (length (pre ++ [h])) by (rewrite length_app; simpl; lia).
    replace (pre ++ (h :: be_bytes n x) ++ rest) with ((pre ++ [h]) ++ be_bytes n x ++ rest)
      by (rewrite <- app_assoc; reflexivity).
    rewrite IH by nia. f_equal. lia.
Qed.


Lemma encode_loop_skip f bc limit t :
  limit <= t ->
  encode_loop (S f) bc limit t = encode_loop f (bc + 1) (u64 (Z.shiftl limit 8)) t.
Proof. intros H. cbn [encode_loop]. destruct (Z.ltb_spec t limit); [lia|reflexivity]. Qed.

Lemma encode_loop_hit f bc limit t :
  0 <= t < limit -> 1 <= bc <= 7 -> limit = 32 * 256 ^ (bc - 1) ->
  encode_loop (S f) bc limit t
  = (32 * bc + t / 256 ^ (bc - 1)) :: be_bytes (Z.to_nat (bc - 1)) t.
Proof.
  intros Ht Hbc Hl. cbn [encode_loop]. destruct (Z.ltb_spec t limit); [|lia].
  rewrite fill_tail_spec, app_nil_r. rewrite Z2Nat.id by lia.
  assert (0 < 256 ^ (bc - 1)) by (apply Z.pow_pos_nonneg; lia).
  assert (0 <= t / 256 ^ (bc - 1) < 32).
  { split; [apply Z.div_pos; lia|]. apply Z.div_lt_upper_bound; lia. }
  f_equal.
  rewrite (to_byte_small (t / _)) by lia.
  rewrite (to_byte_small bc) by lia.
  rewrite Z.shiftl_mul_pow2 by lia.
  rewrite (to_byte_small (bc * 2 ^ 5)) by lia.
  rewrite Z.lor_comm, lor_disjoint_add by lia. lia.
Qed.

Lemma bytecount_of_range t : 0 <= t < 2 ^ 53 ->
  1 <= bytecount_of t <= 7 /\
  t < 32 * 256 ^ (bytecount_of t - 1) /\
  (bytecount_of t = 1 \/ 32 * 256 ^ (bytecount_of t - 2) <= t).
Proof.
  intros Ht. unfold bytecount_of.
  repeat (match goal with |- context [?a <? ?b] => destruct (Z.ltb_spec a b) end);
    repeat split; try (simpl; lia); try (right; simpl; lia); left; reflexivity.
Qed.

Ltac norm_limit :=
  match goal with
  | |- context [u64 (Z.shiftl ?l 8)] =>
      let v := eval vm_compute in (u64 (Z.shiftl l 8)) in
      change (u64 (Z.shiftl l 8)) with v
  end;
  match goal with
  | |- context [encode_loop _ (?b + 1)] =>
      let v := eval vm_compute in (b + 1) in change (b + 1) with v
  end.

Lemma encodeTimestamp_closed t : 0 <= t < 2 ^ 53 ->
  encodeTimestamp t
  = (32 * bytecount_of t + t / 256 ^ (bytecount_of t - 1))
      :: be_bytes (Z.to_nat (bytecount_of t - 1)) t.
Proof.
  intros Ht. unfold encodeTimestamp, bytecount_of.
  repeat (match goal with |- context [?a <? ?b] => destruct (Z.ltb_spec a b) end);
    repeat (rewrite encode_loop_skip by lia; norm_limit);
    (rewrite encode_loop_hit; [reflexivity| lia | lia | reflexivity]).
Qed.

Lemma decode_encode_app t rest : 0 <= t < 2 ^ 53 ->
  decodeTimestamp (encodeTimestamp t ++ rest) = Some (t, rest).
Proof.
  intros Ht. rewrite encodeTimestamp_closed by exact Ht.
  destruct (bytecount_of_range t Ht) as (Hk & Hhi & _).
  set (k := bytecount_of t) in *.
  assert (Hp : 0 < 256 ^ (k - 1)) by (apply Z.pow_pos_nonneg; lia).
  set (p := 256 ^ (k - 1)) in *.
  assert (Hb : 0 <= t / p < 32).
  { split; [apply Z.div_pos; lia|]. apply Z.div_lt_upper_bound; lia. }
  set (b := t / p) in *.
  cbn [app decodeTimestamp].
  assert (Hs : Z.shiftr (32 * k + b) 5 = k).
  { rewrite Z.shiftr_div_pow2 by lia. change (2 ^ 5) with 32.
    symmetry. apply (Z.div_unique _ _ _ b); lia. }
  assert (Hm : Z.land (32 * k + b) 31 = b).
  { change 31 with (Z.ones 5). rewrite Z.land_ones by lia. change (2 ^ 5) with 32.
    symmetry. apply (Z.mod_unique _ _ k b); lia. }
  rewrite Hs, Hm.
  pose proof (decode_loop_spec (Z.to_nat (k - 1)) [32 * k + b] b t rest) as Hd.
  rewrite Z2Nat.id in Hd by lia. fold p in Hd.
  pose proof (Z.mod_pos_bound t p Hp).
  pose proof (Z.div_mod t p ltac:(lia)). fold b in H0.
  change (length [32 * k + b]) with 1%nat in Hd.
  change ([32 * k + b] ++ be_bytes (Z.to_nat (k - 1)) t ++ rest)
    with ((32 * k + b) :: be_bytes (Z.to_nat (k - 1)) t ++ rest) in Hd.
  rewrite Hd by nia.
  cbn [length]. rewrite length_app, be_bytes_length.
  destruct (Z.leb_spec k (Z.of_nat (S (Z.to_nat (k - 1) + length rest)))); [|lia].
  f_equal. f_equal; [lia|].
  replace (Z.to_nat k) with (S (Z.to_nat (k - 1))) by lia.
  cbn [drop]. rewrite drop_app_length'; [reflexivity | symmetry; apply be_bytes_length].
Qed.

Lemma bytes_lt_head x y a b : x < y -> bytes_lt (x :: a) (y :: b).
Proof. intros H. unfold bytes_lt. cbn. apply Z.compare_lt_iff in H. rewrite H. reflexivity. Qed.

Lemma bytecount_of_mono t1 t2 : 0 <= t1 -> t1 <= t2 -> bytecount_of t1 <= bytecount_of t2.
Proof.
  intros. unfold bytecount_of.
  repeat (match goal with |- context [?a <? ?b] => destruct (Z.ltb_spec a b) end); lia.
Qed.

Lemma bytes_compare_app_lt a b r1 r2 :
  length a = length b -> bytes_compare a b = Lt -> bytes_compare (a ++ r1) (b ++ r2) = Lt.
Proof.
  revert b. induction a as [|x a IH]; intros [|y b] Hl Hc; simpl in *; try discriminate.
  destruct (x ?= y); try discriminate; auto.
Qed.

Lemma encodeTimestamp_length t : 0 <= t < 2 ^ 53 ->
  Z.of_nat (length (encodeTimestamp t)) = bytecount_of t.
Proof.
  intros Ht. rewrite encodeTimestamp_closed by exact Ht.
  pose proof (bytecount_of_range t Ht). cbn [length]. rewrite be_bytes_length. lia.
Qed.

(** Order preservation below 2^53, also with anything appended. *)
Lemma encodeTimestamp_lt_app t1 t2 r1 r2 :
  0 <= t1 -> t1 < t2 -> t2 < 2 ^ 53 ->
  bytes_lt (encodeTimestamp t1 ++ r1) (encodeTimestamp t2 ++ r2).
Proof.
  intros H0 Hlt H2.
  rewrite !encodeTimestamp_closed by lia.
  destruct (bytecount_of_range t1 ltac:(lia)) as (Hk1 & Hhi1 & Hlo1).
  destruct (bytecount_of_range t2 ltac:(lia)) as (Hk2 & Hhi2 & Hlo2).
  pose proof (bytecount_of_mono t1 t2 H0 ltac:(lia)) as Hm.
  set (k1 := bytecount_of t1) in *. set (k2 := bytecount_of t2) in *.
  assert (Hp1 : 0 < 256 ^ (k1 - 1)) by (apply Z.pow_pos_nonneg; lia).
  assert (Hp2 : 0 < 256 ^ (k2 - 1)) by (apply Z.pow_pos_nonneg; lia).
  assert (Hb1 : 0 <= t1 / 256 ^ (k1 - 1) < 32).
  { split; [apply Z.div_pos; lia|]. apply Z.div_lt_upper_bound; lia. }
  assert (Hb2 : 0 <= t2 / 256 ^ (k2 - 1) < 32).
  { split; [apply Z.div_pos; lia|]. apply Z.div_lt_upper_bound; lia. }
  destruct (Z.eq_dec k1 k2) as [E|NE].
  - rewrite <- E in *. set (p := 256 ^ (k1 - 1)) in *.
    assert (t1 / p <= t2 / p) by (apply Z.div_le_mono; lia).
    destruct (Z.eq_dec (t1 / p) (t2 / p)) as [Eb|NEb].
    + unfold bytes_lt. cbn [app bytes_compare]. rewrite Eb, Z.compare_refl.
      apply bytes_compare_app_lt; [rewrite !be_bytes_length; reflexivity|].
      rewrite be_bytes_compare. rewrite Z2Nat.id by lia. fold p.
      apply Z.compare_lt_iff.
      pose proof (Z.div_mod t1 p ltac:(lia)). pose proof (Z.div_mod t2 p ltac:(lia)). nia.
    + apply bytes_lt_head. lia.
  - apply bytes_lt_head. lia.
Qed.

Lemma encodeTimestamp_lt t1 t2 :
  0 <= t1 -> t1 < t2 -> t2 < 2 ^ 53 ->
  bytes_lt (encodeTimestamp t1) (encodeTimestamp t2).
Proof.
  intros. pose proof (encodeTimestamp_lt_app t1 t2 [] [] H H0 H1) as Hx.
  rewrite !app_nil_r in Hx. exact Hx.
Qed.

(** ** The timestamp codec at and below 2^53 *)

(** Below 2^53 the codec is a round trip. *)
Lemma decodeTimestamp_encodeTimestamp t : 0 <= t < 2 ^ 53 ->
  decodeTimestamp (encodeTimestamp t) = Some (t, []).
Proof.
  intros Ht. pose proof (decode_encode_app t [] Ht) as H.
  rewrite app_nil_r in H. exact H.
Qed.

(** C6 (the code misses the claim): a timestamp of 2^53 is in the encodable
    domain (below 2^61; [encodeTimestamp] gives it 8 bytes), but the length
    8 does not fit the three top bits of the first byte: [byte(8) << 5]
    wraps to 0, the suffix starts with a length prefix of 0, and
    [decodeTimestamp] returns timestamp 0 with the whole suffix left over
    instead of 2^53 with an empty rest. *)
Theorem decodeTimestamp_encodeTimestamp_2_53 :
  0 <= 2 ^ 53 < 2 ^ 61 /\
  encodeTimestamp (2 ^ 53) = [0; 32; 0; 0; 0; 0; 0; 0] /\
  decodeTimestamp (encodeTimestamp (2 ^ 53)) = Some (0, [0; 32; 0; 0; 0; 0; 0; 0]) /\
  decodeTimestamp (encodeTimestamp (2 ^ 53)) <> Some (2 ^ 53, []).
Proof.
  split; [lia|]. split; [reflexivity|]. split; [reflexivity|].
  vm_compute. discriminate.
Qed.

(** C7 (the code misses the claim): 0 < 2^53, both in the encodable domain,
    yet the suffix of 2^53 starts with byte 0 (its length prefix 8 wrapped
    to 0) and sorts before the suffix [[32]] of 0. *)
Theorem encodeTimestamp_order_2_53 :
  0 < 2 ^ 53 /\ 2 ^ 53 < 2 ^ 61 /\
  encodeTimestamp 0 = [32] /\
  encodeTimestamp (2 ^ 53) = [0; 32; 0; 0; 0; 0; 0; 0] /\
  bytes_lt (encodeTimestamp (2 ^ 53)) (encodeTimestamp 0) /\
  ~ bytes_lt (encodeTimestamp 0) (encodeTimestamp (2 ^ 53)).
Proof.
  repeat split; try reflexivity; try lia.
  vm_compute. discriminate.
Qed.

(** ** Byte-string order *)

Lemma bytes_compare_antisym a : forall b,
  bytes_compare b a = CompOpp (bytes_compare a b).
Proof.
  induction a as [|x a IH]; intros [|y b]; cbn; try reflexivity.
  rewrite (Z.compare_antisym x y). destruct (x ?= y); cbn; auto.
Qed.

Lemma bytes_lt_asym a b : bytes_lt a b -> ~ bytes_lt b a.
Proof.
  unfold bytes_lt. intros H1 H2. rewrite bytes_compare_antisym, H1 in H2. discriminate.
Qed.

Lemma bytes_compare_prefix a r : bytes_compare (a ++ r) a <> Lt.
Proof.
  induction a as [|x a IH]; cbn.
  - destruct r; discriminate.
  - rewrite Z.compare_refl. exact IH.
Qed.

Lemma bytes_ltb_lt a b : bytes_ltb a b = true <-> bytes_lt a b.
Proof. unfold bytes_ltb, bytes_lt. destruct (bytes_compare a b); split; congruence. Qed.

(** ** The key loop *)

Lemma read_keys_snoc n v : forall i (acc : list (list Z)),
  read_keys (fun key acc => acc ++ [key]) n i v acc
  = (fun ks => acc ++ ks) <$> read_keys (fun key acc => acc ++ [key]) n i v [].
Proof.
  induction n as [|n IH]; intros i acc; cbn [read_keys].
  - cbn. rewrite app_nil_r. reflexivity.
  - destruct (v !! i) as [l|]; [|reflexivity].
    destruct (_ <=? _)%nat; [|reflexivity].
    rewrite IH. rewrite (IH _ ([] ++ _)).
    rewrite <- option_fmap_compose. apply option_fmap_ext. intros ks. cbn.
    rewrite <- app_assoc. reflexivity.
Qed.

Lemma read_keys_fold {T} (add : list Z -> T -> T) n v : forall i t,
  read_keys add n i v t
  = (fun ks => foldl (fun t k => add k t) t ks) <$> read_key_list n i v.
Proof.
  unfold read_key_list.
  induction n as [|n IH]; intros i t; cbn [read_keys].
  - reflexivity.
  - destruct (v !! i) as [l|]; [|reflexivity].
    destruct (_ <=? _)%nat; [|reflexivity].
    rewrite IH. rewrite (read_keys_snoc n v _ ([] ++ _)).
    rewrite <- option_fmap_compose. apply option_fmap_ext. intros ks. reflexivity.
Qed.

Lemma foldl_union_elem (ks : list (list Z)) : forall (t : gset (list Z)) key,
  key ∈ foldl (fun t k => {[ k ]} ∪ t) t ks <-> key ∈ t \/ key ∈ ks.
Proof.
  induction ks as [|k ks IH]; intros t key; cbn.
  - rewrite elem_of_nil. tauto.
  - rewrite IH, elem_of_union, elem_of_singleton, elem_of_cons. tauto.
Qed.

(** ** The walker of [rewindData] *)


Section RewindFacts.

Variable SuffixBucket : list Z.

Lemma rewind_walker_late src m ts bucket v :
  0 <= ts < 2 ^ 53 -> src < ts ->
  Walk.rewind_walker src m (encodeTimestamp ts ++ bucket) v = Done (false, m).
Proof.
  intros Hts Hlt. unfold Walk.rewind_walker.
  rewrite decode_encode_app by exact Hts.
  destruct (Z.gtb_spec ts src); [reflexivity | lia].
Qed.

Lemma rewind_walker_in src m ts bucket v keycount keys :
  0 <= ts < 2 ^ 53 -> ts <= src ->
  be_uint32 v = Some keycount ->
  read_key_list (Z.to_nat keycount) 4 v = Some keys ->
  exists m',
    Walk.rewind_walker src m (encodeTimestamp ts ++ bucket) v = Done (true, m') /\
    (forall b key, holds m' b key <-> holds m b key \/ (b = bucket /\ key ∈ keys)) /\
    (forall b, is_Some (m' !! b) -> is_Some (m !! b) \/ b = bucket).
Proof.
  intros Hts Hle Hkc Hkeys. unfold Walk.rewind_walker.
  rewrite decode_encode_app by exact Hts.
  destruct (Z.gtb_spec ts src) as [Hgt|_]; [lia|].
  rewrite Hkc.
  destruct (Z.gtb_spec keycount 0) as [Hpos|Hzero].
  - rewrite read_keys_fold, Hkeys. cbn [fmap option_fmap option_map].
    eexists. split; [reflexivity|]. split.
    + intros b key. unfold holds. destruct (decide (b = bucket)) as [->|Hne].
      * rewrite lookup_insert_eq. split.
        -- intros (t & Ht & Hin). injection Ht as <-.
           apply foldl_union_elem in Hin. destruct Hin as [Hin|Hin]; [|auto].
           left. destruct (m !! bucket) as [t0|] eqn:E; cbn in Hin.
           ++ eauto.
           ++ apply not_elem_of_empty in Hin. contradiction.
        -- intros [(t & Ht & Hin)|[_ Hin]]; eexists; (split; [reflexivity|]);
             apply foldl_union_elem; [left|right; exact Hin].
           rewrite Ht. exact Hin.
      * rewrite lookup_insert_ne by congruence. split; [auto|].
        intros [Hm|[Hb _]]; [exact Hm | contradiction].
    + intros b Hb. destruct (decide (b = bucket)) as [->|Hne]; [auto|].
      rewrite lookup_insert_ne in Hb by congruence. auto.
  - eexists. split; [reflexivity|]. split.
    + intros b key. split; [auto|]. intros [Hm|[_ Hin]]; [exact Hm|].
      assert (Z.to_nat keycount = O) as E0 by lia. rewrite E0 in Hkeys.
      cbn in Hkeys. injection Hkeys as <-. apply elem_of_nil in Hin. contradiction.
    + auto.
Qed.


Lemma recorded_cons k v es ts b key :
  recorded ((k, v) :: es) ts b key
  <-> (exists keycount keys, decodeTimestamp k = Some (ts, b) /\ be_uint32 v = Some keycount /\
         read_key_list (Z.to_nat keycount) 4 v = Some keys /\ key ∈ keys)
      \/ recorded es ts b key.
Proof.
  unfold recorded. split.
  - intros (k' & v' & kc & keys & Hin & Hd & Hkc & Hkeys & Hkey).
    apply elem_of_cons in Hin. destruct Hin as [Heq|Hin].
    + injection Heq as -> ->. left. eauto 10.
    + right. eauto 10.
  - intros [(kc & keys & Hd & Hkc & Hkeys & Hkey)|(k' & v' & kc & keys & Hin & Hrest)].
    + exists k, v, kc, keys. split; [apply list_elem_of_here|auto].
    + exists k', v', kc, keys. split; [apply list_elem_of_further, Hin|auto].
Qed.

Lemma recorded_nil ts b key : ~ recorded [] ts b key.
Proof. intros (k & v & kc & keys & Hin & _). apply elem_of_nil in Hin. exact Hin. Qed.

Lemma index_ok_inv kv es : index_ok (kv :: es) ->
  entry_ok kv /\ index_ok es /\ Forall (fun b => bytes_lt kv.1 b.1) es.
Proof.
  intros [Hs Hf]. inversion Hs; subst. inversion Hf; subst.
  repeat split; assumption.
Qed.

(** In a well-formed index the timestamps ascend with the keys. *)
Lemma index_ok_later k v es ts bucket :
  index_ok ((k, v) :: es) -> 0 <= ts < 2 ^ 53 -> k = encodeTimestamp ts ++ bucket ->
  forall ts' b key, recorded es ts' b key -> ts <= ts'.
Proof.
  intros Hok Hts Hk ts' b key (k' & v' & kc & keys & Hin & Hd & _).
  destruct (index_ok_inv _ _ Hok) as (_ & [_ Hf] & Hlt).
  rewrite Forall_forall in Hlt, Hf.
  specialize (Hlt _ Hin). specialize (Hf _ Hin).
  destruct Hf as (ts2 & b2 & _ & _ & Hts2 & _ & Hk2 & _). cbn [fst snd] in Hk2, Hlt.
  rewrite Hk2, decode_encode_app in Hd by exact Hts2. injection Hd as -> ->.
  destruct (Z.le_gt_cases ts ts') as [Hle|Hgt]; [exact Hle|exfalso].
  apply (bytes_lt_asym _ _ Hlt). subst k k'.
  apply encodeTimestamp_lt_app; lia.
Qed.

Lemma walk_rewind src es : index_ok es -> forall m,
  exists m',
    walk_entries (Walk.rewind_walker src) None es m = Done m' /\
    (forall b key, holds m' b key
       <-> holds m b key \/ exists ts, ts <= src /\ recorded es ts b key) /\
    (forall b, is_Some (m' !! b) -> is_Some (m !! b) \/ b <> []).
Proof.
  induction es as [|[k v] es IH]; intros Hok m.
  - exists m. split; [reflexivity|]. split; [|auto].
    intros b key. split; [auto|]. intros [Hm|(ts & _ & Hr)]; [exact Hm|].
    exfalso. exact (recorded_nil _ _ _ Hr).
  - destruct (index_ok_inv _ _ Hok) as (Hent & Hok' & _).
    destruct Hent as (ts & bucket & kc & keys & Hts & Hne & Hk & Hkc & Hkeys).
    cbn [fst snd] in Hk, Hkc, Hkeys. cbn [walk_entries].
    destruct (Z.le_gt_cases ts src) as [Hle|Hgt].
    + destruct (rewind_walker_in src m ts bucket v kc keys Hts Hle Hkc Hkeys)
        as (m1 & Hw & Hh & Hdom).
      rewrite Hk, Hw.
      destruct (IH Hok' m1) as (m' & Hw' & Hh' & Hdom').
      exists m'. split; [exact Hw'|]. split.
      * intros b key. rewrite Hh', Hh. split.
        -- intros [[Hm|[-> Hkey]]|(ts' & Hle' & Hr)].
           ++ left. exact Hm.
           ++ right. exists ts. split; [exact Hle|]. apply recorded_cons. left.
              exists kc, keys. rewrite decode_encode_app by exact Hts. auto.
           ++ right. exists ts'. split; [exact Hle'|]. apply recorded_cons. right. exact Hr.
        -- intros [Hm|(ts' & Hle' & Hr)]; [left; left; exact Hm|].
           apply recorded_cons in Hr.
           destruct Hr as [(kc' & keys' & Hd & Hkc' & Hkeys' & Hkey)|Hr].
           ++ rewrite decode_encode_app in Hd by exact Hts. injection Hd as <- <-.
              rewrite Hkc in Hkc'. injection Hkc' as <-.
              rewrite Hkeys in Hkeys'. injection Hkeys' as <-.
              left. right. auto.
           ++ right. eauto.
      * intros b Hb. destruct (Hdom' b Hb) as [H1|H1]; [|auto].
        destruct (Hdom b H1) as [H2| ->]; auto.
    + rewrite Hk, rewind_walker_late by (try exact Hts; lia).
      exists m. split; [reflexivity|]. split; [|auto].
      intros b key. split; [auto|]. intros [Hm|(ts' & Hle' & Hr)]; [exact Hm|exfalso].
      apply recorded_cons in Hr.
      destruct Hr as [(kc' & keys' & Hd & _)|Hr].
      * rewrite decode_encode_app in Hd by exact Hts. injection Hd as <- <-. lia.
      * pose proof (index_ok_later k v es ts bucket Hok Hts Hk _ _ _ Hr). lia.
Qed.

(** The seek of [Walk] to the suffix of a timestamp. *)
Lemma drop_while_from t es : index_ok es -> 0 <= t < 2 ^ 53 ->
  index_ok (drop_while (fun kv => bytes_ltb kv.1 (encodeTimestamp t)) es) /\
  (forall ts b key,
     recorded (drop_while (fun kv => bytes_ltb kv.1 (encodeTimestamp t)) es) ts b key
     <-> recorded es ts b key /\ t <= ts).
Proof.
  intros Hok Ht. induction es as [|[k v] es IH]; cbn [drop_while fst].
  - split; [exact Hok|]. intros ts b key. split; [intros Hr|intros [Hr _]];
      exfalso; exact (recorded_nil _ _ _ Hr).
  - destruct (index_ok_inv _ _ Hok) as (Hent & Hok' & _).
    destruct Hent as (ts & bucket & kc & keys & Hts & Hne & Hk & Hkc & Hkeys).
    cbn [fst snd] in Hk, Hkc, Hkeys.
    destruct (bytes_ltb k (encodeTimestamp t)) eqn:E.
    + destruct (IH Hok') as (Hok2 & Hrec). split; [exact Hok2|].
      intros ts' b key. rewrite Hrec, recorded_cons. split; [tauto|].
      intros [[(kc' & keys' & Hd & _)|Hr] Hlt]; [exfalso|tauto].
      rewrite Hk, decode_encode_app in Hd by exact Hts. injection Hd as <- <-.
      apply bytes_ltb_lt in E.
      destruct (Z.eq_dec ts t) as [->|Hneq].
      * rewrite Hk in E. exact (bytes_compare_prefix _ _ E).
      * apply (bytes_lt_asym _ _ E). rewrite Hk.
        rewrite <- (app_nil_r (encodeTimestamp t)).
        apply encodeTimestamp_lt_app; lia.
    + split; [exact Hok|]. intros ts' b key. split; [|tauto].
      intros Hr. split; [exact Hr|].
      assert (Hge : t <= ts).
      { destruct (Z.le_gt_cases t ts) as [Hle|Hgt]; [exact Hle|exfalso].
        assert (bytes_lt k (encodeTimestamp t)) as Hlt.
        { rewrite Hk, <- (app_nil_r (encodeTimestamp t)).
          apply encodeTimestamp_lt_app; lia. }
        apply bytes_ltb_lt in Hlt. congruence. }
      apply recorded_cons in Hr. destruct Hr as [(kc' & keys' & Hd & _)|Hr].
      * rewrite Hk, decode_encode_app in Hd by exact Hts. injection Hd as <- <-. exact Hge.
      * pose proof (index_ok_later k v es ts bucket Hok Hts Hk _ _ _ Hr). lia.
Qed.

Lemma drop_while_index dst es : index_ok es -> 0 <= dst -> dst + 1 < 2 ^ 53 ->
  index_ok (drop_while (fun kv => bytes_ltb kv.1 (encodeTimestamp (dst + 1))) es) /\
  (forall ts b key,
     recorded (drop_while (fun kv => bytes_ltb kv.1 (encodeTimestamp (dst + 1))) es) ts b key
     <-> recorded es ts b key /\ dst < ts).
Proof.
  intros Hok H0 Hhi.
  destruct (drop_while_from (dst + 1) es Hok ltac:(lia)) as (Hok' & Hrec).
  split; [exact Hok'|]. intros ts b key. rewrite Hrec.
  split; intros [Hr Hlt]; (split; [exact Hr|lia]).
Qed.

Lemma take_while_fixed_0 startkey (es : list (list Z * list Z)) :
  take_while (fun kv => fixed_match 0 startkey kv.1) es = es.
Proof.
  induction es as [|kv es IH]; cbn [take_while]; [reflexivity|].
  assert (fixed_match 0 startkey kv.1 = true) as ->.
  { unfold fixed_match. cbn. rewrite bool_decide_eq_true_2 by reflexivity. reflexivity. }
  rewrite IH. reflexivity.
Qed.


(** *** The second phase: one callback invocation per pair *)

Lemma run_calls_app {D} db dst (df : D -> list Z -> list Z -> list Z -> D * option error)
    l1 l2 d :
  run_calls db dst df (l1 ++ l2) d
  = match run_calls db dst df l1 d with
    | Done d' => run_calls db dst df l2 d'
    | r => r
    end.
Proof.
  revert d. induction l1 as [|[b k] l1 IH]; intros d; cbn [app run_calls]; [reflexivity|].
  destruct (df d b k _) as [d' [e|]]; [reflexivity|apply IH].
Qed.

Lemma rewind_keys_run {D} db dst (df : D -> list Z -> list Z -> list Z -> D * option error)
    bucket keys d :
  bucket <> [] -> 0 <= dst + 1 < 2 ^ 64 ->
  Walk.rewind_keys db dst df bucket keys d
  = run_calls db dst df (map (pair bucket) keys) d.
Proof.
  intros Hne Hr. destruct bucket as [|b0 bucket1]; [contradiction|].
  revert d. induction keys as [|key keys IH]; intros d; cbn [Walk.rewind_keys map run_calls].
  - reflexivity.
  - unfold value_as_of. cbn [tail]. unfold u64. rewrite Z.mod_small by exact Hr.
    destruct (db_get_as_of db bucket1 (b0 :: bucket1) key (dst + 1)) as [value err].
    destruct (df d (b0 :: bucket1) key _) as [d' [e|]]; [reflexivity|apply IH].
Qed.


Lemma rewind_buckets_run {D} db dst (df : D -> list Z -> list Z -> list Z -> D * option error)
    bs : forall d,
  Forall (fun bt => bt.1 <> []) bs -> 0 <= dst + 1 < 2 ^ 64 ->
  Walk.rewind_buckets db dst df bs d = run_calls db dst df (calls_of bs) d.
Proof.
  induction bs as [|[b t] bs IH]; intros d Hne Hr; cbn [Walk.rewind_buckets calls_of flat_map].
  - reflexivity.
  - inversion Hne; subst. cbn [fst snd] in *.
    rewrite run_calls_app, rewind_keys_run by assumption.
    destruct (run_calls db dst df (map (pair b) (elements t)) d); try reflexivity.
    apply IH; assumption.
Qed.

Lemma calls_of_elem bs b key :
  (b, key) ∈ calls_of bs <-> exists t, (b, t) ∈ bs /\ key ∈ t.
Proof.
  unfold calls_of. rewrite list_elem_of_In, in_flat_map. split.
  - intros ([b' t] & Hin & Hk). cbn [fst snd] in Hk.
    apply in_map_iff in Hk. destruct Hk as (k' & Heq & Hk'). injection Heq as -> ->.
    exists t. split; [apply list_elem_of_In, Hin|].
    apply elem_of_elements, list_elem_of_In, Hk'.
  - intros (t & Hin & Hk). exists (b, t). split; [apply list_elem_of_In, Hin|].
    cbn [fst snd]. apply in_map. apply list_elem_of_In, elem_of_elements, Hk.
Qed.

Lemma calls_of_NoDup bs : NoDup (bs.*1) -> NoDup (calls_of bs).
Proof.
  induction bs as [|[b t] bs IH]; intros Hnd; cbn.
  - constructor.
  - cbn in Hnd. apply NoDup_cons in Hnd. destruct Hnd as [Hb Hnd].
    apply NoDup_app. split; [|split].
    + apply NoDup_fmap_2; [intros x y Heq; congruence | apply NoDup_elements].
    + intros [b' k] Hin1 Hin2. apply list_elem_of_fmap in Hin1.
      destruct Hin1 as (k' & Heq & _). injection Heq as -> ->.
      apply calls_of_elem in Hin2. destruct Hin2 as (t' & Hin & _).
      apply Hb. apply list_elem_of_fmap. exists (b, t'). auto.
    + apply IH, Hnd.
Qed.

(** What a run of [rewindData] amounts to, for 0 <= dst < src < 2^53 over a
    well-formed change index: the map [m] it collects holds exactly the
    pairs recorded as changed in (dst, src], and the callback runs over the
    pairs of [m] in iteration order. *)
Lemma rewindData_run db src dst :
  0 <= dst -> dst < src -> src < 2 ^ 53 ->
  index_ok (db_bucket db SuffixBucket) ->
  db_scan_error db SuffixBucket = None ->
  exists m : gmap (list Z) (gset (list Z)),
    (forall bucket key,
       (bucket, key) ∈ calls_of (map_to_list m)
       <-> exists ts, dst < ts <= src /\ recorded (db_bucket db SuffixBucket) ts bucket key) /\
    (forall (D : Type) (df : D -> list Z -> list Z -> list Z -> D * option error) (d : D),
       Walk.rewindData SuffixBucket db src dst df d
       = run_calls db dst df (calls_of (map_to_list m)) d).
Proof.
  intros H0 Hlt Hsrc Hok Hscan.
  destruct (drop_while_index dst _ Hok H0 ltac:(lia)) as (Hok' & Hrec).
  destruct (walk_rewind src _ Hok' ∅) as (m & Hwalk & Hholds & Hdom).
  exists m. split.
  - intros bucket key. rewrite calls_of_elem.
    transitivity (holds m bucket key).
    { unfold holds. split; intros (t & Ht & Hk); exists t; split; auto;
        apply elem_of_map_to_list; exact Ht. }
    rewrite Hholds. split.
    + intros [(t & Ht & _)|(ts & Hle & Hr)].
      * rewrite lookup_empty in Ht. discriminate.
      * apply Hrec in Hr. destruct Hr as [Hr Hgt]. exists ts. auto.
    + intros (ts & [Hgt Hle] & Hr). right. exists ts. split; [exact Hle|].
      apply Hrec. auto.
  - intros D df d. unfold Walk.rewindData, Walk.
    rewrite Hscan, take_while_fixed_0.
    unfold u64. rewrite Z.mod_small by lia. rewrite Hwalk.
    apply rewind_buckets_run; [|lia].
    apply Forall_forall. intros [b t] Hin. cbn [fst].
    apply elem_of_map_to_list in Hin.
    destruct (Hdom b ltac:(eauto)) as [Hs|Hs]; [|exact Hs].
    rewrite lookup_empty in Hs. destruct Hs as [? Hs]. discriminate.
Qed.

(** C5 (as amended): over a well-formed change index whose scan does not
    fail, and for 0 <= timestampDst < timestampSrc < 2^53, there is a
    duplicate-free list [calls] of exactly the (bucket, key) pairs the index
    records as changed at some timestamp in (timestampDst, timestampSrc],
    such that [rewindData] runs the callback over [calls] in order, once per
    pair, with the value [GetAsOf] reports as of timestampDst + 1 (nil when
    that read fails), and stops at the first error the callback returns,
    returning it: a key changed at several timestamps is still handed over
    once, and as long as the callback returns no error every pair is. *)
Theorem rewindData_calls db src dst :
  0 <= dst -> dst < src -> src < 2 ^ 53 ->
  index_ok (db_bucket db SuffixBucket) ->
  db_scan_error db SuffixBucket = None ->
  exists calls : list (list Z * list Z),
    NoDup calls /\
    (forall bucket key,
       (bucket, key) ∈ calls
       <-> exists ts, dst < ts <= src /\ recorded (db_bucket db SuffixBucket) ts bucket key) /\
    (forall (D : Type) (df : D -> list Z -> list Z -> list Z -> D * option error) (d : D),
       Walk.rewindData SuffixBucket db src dst df d = run_calls db dst df calls d).
Proof.
  intros H0 Hlt Hsrc Hok Hscan.
  destruct (rewindData_run db src dst H0 Hlt Hsrc Hok Hscan) as (m & Hmem & Hrun).
  exists (calls_of (map_to_list m)). split; [|split].
  - apply calls_of_NoDup, NoDup_fst_map_to_list.
  - exact Hmem.
  - exact Hrun.
Qed.

End RewindFacts.

Lemma example_index_ok : index_ok example_index.
Proof.
  split.
  - repeat constructor; reflexivity.
  - repeat constructor.
    + exists 3, Walk.hAT, 1, [[9]]. repeat split; try reflexivity; try lia; discriminate.
    + exists 6, Walk.hAT, 2, [[1]; [2]]. repeat split; try reflexivity; try lia; discriminate.
    + exists 7, Walk.hAT, 1, [[1]]. repeat split; try reflexivity; try lia; discriminate.
    + exists 9, Walk.hAT, 1, [[5]]. repeat split; try reflexivity; try lia; discriminate.
Defined.

(** C5, a concrete instance: the example store rewound from 7 to 5. *)
Lemma rewindData_calls_witness :
  exists calls : list (bytes * bytes),
    NoDup calls /\
    (forall bucket key,
       (bucket, key) ∈ calls
       <-> exists ts, 5 < ts <= 7 /\
             recorded (db_bucket example_db example_suffix_bucket) ts bucket key) /\
    (forall (D : Type) (df : D -> bytes -> bytes -> bytes -> D * option error) (d : D),
       Walk.rewindData example_suffix_bucket example_db 7 5 df d
       = run_calls example_db 5 df calls d).
Proof.
  apply (rewindData_calls example_suffix_bucket example_db 7 5);
    [lia | lia | lia | exact example_index_ok | reflexivity].
Defined.

(** C5 as stated fails: keys [[1]] and [[2]] of the accounts are both
    recorded as changed at timestamp 6, inside (5, 7], but with a callback
    that returns an error [rewindData] stops after its first invocation. *)
Lemma rewindData_stops_at_callback_error :
  recorded example_index 6 Walk.hAT [1] /\
  recorded example_index 6 Walk.hAT [2] /\
  exists trace e,
    Walk.rewindData example_suffix_bucket example_db 7 5 refusing_df [] = Failed trace e /\
    length trace = 1%nat.
Proof.
  split; [|split].
  - exists (encodeTimestamp 6 ++ Walk.hAT), [0; 0; 0; 2; 1; 1; 1; 2], 2, [[1]; [2]].
    split; [apply list_elem_of_further, list_elem_of_here|].
    repeat split; try reflexivity. apply list_elem_of_here.
  - exists (encodeTimestamp 6 ++ Walk.hAT), [0; 0; 0; 2; 1; 1; 1; 2], 2, [[1]; [2]].
    split; [apply list_elem_of_further, list_elem_of_here|].
    repeat split; try reflexivity. apply list_elem_of_further, list_elem_of_here.
  - eexists. eexists. split; [vm_compute; reflexivity | reflexivity].
Qed.

Example rewindData_example :
  Walk.rewindData example_suffix_bucket example_db 7 5 recording_df []
  = Done [(Walk.hAT, [1], [7]); (Walk.hAT, [2], [7])].
Proof. vm_compute. reflexivity. Qed.

(** ** DbState *)

Lemma ReplaceOrInsert_elem {A} (less : A -> A -> bool) (x : A) (t : list A) :
  x ∈ LLRB.ReplaceOrInsert less x t.
Proof.
  induction t as [|y t IH]; cbn [LLRB.ReplaceOrInsert].
  - apply list_elem_of_here.
  - destruct (less x y); [apply list_elem_of_here|].
    destruct (less y x); [apply list_elem_of_further, IH | apply list_elem_of_here].
Qed.

Section DbStateFacts.

Import State.

Variable keccak256 : bytes -> bytes.
Variable Account : Type.

(** C10: [UpdateAccountData], [DeleteAccount] and [UpdateAccountCode] return
    nil and leave the [DbState] as it is; [WriteAccountStorage] returns nil,
    leaves the store handle, the block number and the trees of the other
    addresses alone, and replaces the tree of its address by the one that
    holds the written item. *)
Theorem DbState_writers_frame (dbs : DbState) (address key original value : bytes)
    (orig account : option Account) (codeHash code : bytes) :
  UpdateAccountData Account dbs address orig account = (None, dbs) /\
  DeleteAccount Account dbs address orig = (None, dbs) /\
  UpdateAccountCode dbs codeHash code = (None, dbs) /\
  let r := WriteAccountStorage keccak256 dbs address key original value in
  let i := {| item_key := key; item_seckey := keccak256 key; item_value := value |} in
  r.1 = None /\
  dbs_db r.2 = dbs_db dbs /\
  dbs_blockNr r.2 = dbs_blockNr dbs /\
  (forall a, a <> address -> dbs_storage r.2 !! a = dbs_storage dbs !! a) /\
  dbs_storage r.2 !! address
    = Some (LLRB.ReplaceOrInsert storageItem_less i
              (default LLRB.New (dbs_storage dbs !! address))) /\
  (exists t, dbs_storage r.2 !! address = Some t /\ i ∈ t) /\
  (dbs_storage dbs !! address = None -> dbs_storage r.2 <> dbs_storage dbs).
Proof.
  repeat split; cbn.
  - intros a Ha. apply lookup_insert_ne. congruence.
  - apply lookup_insert_eq.
  - eexists. split; [apply lookup_insert_eq|]. apply ReplaceOrInsert_elem.
  - intros Hnone Heq.
    assert (H : <[address:=LLRB.ReplaceOrInsert storageItem_less
                   {| item_key := key; item_seckey := keccak256 key; item_value := value |}
                   (default LLRB.New (dbs_storage dbs !! address))]> (dbs_storage dbs)
                !! address = dbs_storage dbs !! address) by (rewrite Heq; reflexivity).
    rewrite lookup_insert_eq, Hnone in H. discriminate.
Qed.

End DbStateFacts.

(** ** Errors of the underlying reads *)

Section ReadErrors.

Import State.

Variable keccak256 : bytes -> bytes.
Variable Account : Type.
Variable encodingToAccount : bytes -> option Account * option error.
Variable CodeBucket : bytes.
Variable emptyCodeHash : bytes.
Variable SuffixBucket : bytes.

(** C9 (as amended): an error of [GetAsOf], the not-found sentinel or any
    other, is absorbed: [ReadAccountData] and [ReadAccountStorage] return
    (nil, nil) and [rewindData] hands a nil value to the callback and goes
    on.  What does propagate unmodified is the error of [Get] out of
    [ReadAccountCode], and out of [rewindData] the error of [Walk] and the
    error of the callback. *)
Theorem read_errors_absorbed_or_propagated :
  (forall dbs address enc e,
     db_get_as_of (dbs_db dbs) AccountsBucket AccountsHistoryBucket (keccak256 address)
       (u64 (dbs_blockNr dbs + 1)) = (enc, Some e) ->
     ReadAccountData keccak256 Account encodingToAccount dbs address = (None, None)) /\
  (forall dbs address key enc e,
     db_get_as_of (dbs_db dbs) StorageBucket StorageHistoryBucket (address ++ keccak256 key)
       (u64 (dbs_blockNr dbs + 1)) = (enc, Some e) ->
     ReadAccountStorage keccak256 dbs address key = ([], None)) /\
  (forall dbs codeHash,
     codeHash <> emptyCodeHash ->
     ReadAccountCode CodeBucket emptyCodeHash dbs codeHash
     = db_get (dbs_db dbs) CodeBucket codeHash) /\
  (forall (D : Type) (df : D -> bytes -> bytes -> bytes -> D * option error)
          db dst b0 bucket1 key keys d value e,
     db_get_as_of db bucket1 (b0 :: bucket1) key (u64 (dst + 1)) = (value, Some e) ->
     Walk.rewind_keys db dst df (b0 :: bucket1) (key :: keys) d
     = match df d (b0 :: bucket1) key [] with
       | (d', Some e') => Failed d' e'
       | (d', None) => Walk.rewind_keys db dst df (b0 :: bucket1) keys d'
       end) /\
  (forall (D : Type) (df : D -> bytes -> bytes -> bytes -> D * option error)
          db src dst d m e,
     Walk db SuffixBucket (encodeTimestamp (u64 (dst + 1))) 0 (Walk.rewind_walker src) ∅
     = Failed m e ->
     Walk.rewindData SuffixBucket db src dst df d = Failed d e).
Proof.
  split; [|split; [|split; [|split]]].
  - intros dbs address enc e H. unfold ReadAccountData. rewrite H. reflexivity.
  - intros dbs address key enc e H. unfold ReadAccountStorage. rewrite H. reflexivity.
  - intros dbs codeHash Hne. unfold ReadAccountCode.
    rewrite bool_decide_eq_false_2 by exact Hne. reflexivity.
  - intros D df db dst b0 bucket1 key keys d value e H.
    cbn [Walk.rewind_keys]. rewrite H. reflexivity.
  - intros D df db src dst d m e H. unfold Walk.rewindData. rewrite H. reflexivity.
Qed.

End ReadErrors.

(** C9, concrete instances: the failing store read at block 7, its code
    read, and a store whose scan fails. *)
Lemma read_errors_witness :
  State.ReadAccountData (fun x => x) unit (fun _ => (Some tt, None))
    (State.NewDbState failing_db 7) [1] = (None, None) /\
  State.ReadAccountStorage (fun x => x) (State.NewDbState failing_db 7) [1] [2] = ([], None) /\
  State.ReadAccountCode [67] [0] (State.NewDbState failing_db 7) [1] = ([], Some (ErrStore 5)) /\
  Walk.rewindData example_suffix_bucket broken_scan_db 7 5 recording_df []
  = Failed [] (ErrStore 9).
Proof.
  destruct (read_errors_absorbed_or_propagated (fun x => x) unit (fun _ => (Some tt, None))
              [67] [0] example_suffix_bucket) as (H1 & H2 & H3 & _ & H5).
  split; [|split; [|split]].
  - apply (H1 (State.NewDbState failing_db 7) [1] [] (ErrStore 5)). reflexivity.
  - apply (H2 (State.NewDbState failing_db 7) [1] [2] [] (ErrStore 5)). reflexivity.
  - rewrite (H3 (State.NewDbState failing_db 7) [1]) by discriminate. reflexivity.
  - apply (H5 _ recording_df broken_scan_db 7 5 [] ∅ (ErrStore 9)). reflexivity.
Defined.

(** C9 as stated fails: on the failing store [GetAsOf] fails with an error
    that is not the not-found sentinel, yet [ReadAccountData] returns
    (nil, nil), exactly what it returns on the store where the key is
    absent, and [rewindData] completes without error after handing nil
    values to the callback. *)
Lemma read_error_is_absorbed :
  db_get_as_of failing_db State.AccountsBucket State.AccountsHistoryBucket [1] (u64 (7 + 1))
  = ([], Some (ErrStore 5)) /\
  ErrStore 5 <> ErrKeyNotFound /\
  State.ReadAccountData (fun x => x) unit (fun _ => (Some tt, None))
    (State.NewDbState failing_db 7) [1] = (None, None) /\
  State.ReadAccountData (fun x => x) unit (fun _ => (Some tt, None))
    (State.NewDbState absent_db 7) [1] = (None, None) /\
  Walk.rewindData example_suffix_bucket failing_db 7 5 recording_df []
  = Done [(Walk.hAT, [1], []); (Walk.hAT, [2], [])].
Proof.
  split; [reflexivity|]. split; [discriminate|].
  split; [reflexivity|]. split; [reflexivity|].
  vm_compute. reflexivity.
Qed.

(** ** GetModifiedAccounts *)

(** *** The tree *)

Lemma bytes_compare_eq a : forall b, bytes_compare a b = Eq -> a = b.
Proof.
  induction a as [|x a IH]; intros [|y b] H; cbn in H; try discriminate; [reflexivity|].
  destruct (Z.compare_spec x y) as [->|Hlt|Hgt]; try discriminate.
  f_equal. apply IH. exact H.
Qed.

Lemma bytes_lt_trans a : forall b c, bytes_lt a b -> bytes_lt b c -> bytes_lt a c.
Proof.
  unfold bytes_lt.
  induction a as [|x a IH]; intros [|y b] [|z c] H1 H2; cbn in *; try discriminate;
    try reflexivity.
  destruct (Z.compare_spec x y) as [->|Hxy|Hxy]; try discriminate.
  - destruct (Z.compare_spec y z) as [->|Hyz|Hyz]; try discriminate; [|reflexivity].
    eapply IH; eassumption.
  - destruct (Z.compare_spec y z) as [->|Hyz|Hyz]; try discriminate.
    + apply Z.compare_lt_iff in Hxy. rewrite Hxy. reflexivity.
    + assert (x < z) as Hxz by lia. apply Z.compare_lt_iff in Hxz. rewrite Hxz. reflexivity.
Qed.

Lemma bytes_lt_irrefl a : ~ bytes_lt a a.
Proof. intros H. exact (bytes_lt_asym _ _ H H). Qed.

Lemma bytes_ltb_false a b : bytes_ltb a b = false -> bytes_ltb b a = false -> a = b.
Proof.
  unfold bytes_ltb. intros H1 H2. rewrite (bytes_compare_antisym a b) in H2.
  destruct (bytes_compare a b) eqn:E; try discriminate.
  apply bytes_compare_eq. exact E.
Qed.

Lemma ReplaceOrInsert_elems x t key :
  key ∈ LLRB.ReplaceOrInsert Walk.PutItem_less x t <-> key = x \/ key ∈ t.
Proof.
  induction t as [|y t IH]; cbn [LLRB.ReplaceOrInsert].
  - rewrite list_elem_of_singleton. split; [auto|]. intros [H|H]; [exact H|inversion H].
  - unfold Walk.PutItem_less at 1 2.
    destruct (bytes_ltb x y) eqn:E1.
    + rewrite elem_of_cons. tauto.
    + destruct (bytes_ltb y x) eqn:E2.
      * rewrite !elem_of_cons, IH. tauto.
      * rewrite (bytes_ltb_false x y E1 E2), !elem_of_cons. tauto.
Qed.

Lemma ReplaceOrInsert_sorted x t :
  StronglySorted bytes_lt t ->
  StronglySorted bytes_lt (LLRB.ReplaceOrInsert Walk.PutItem_less x t).
Proof.
  induction 1 as [|y t Hs IH Hy]; cbn [LLRB.ReplaceOrInsert].
  - repeat constructor.
  - unfold Walk.PutItem_less at 1 2.
    destruct (bytes_ltb x y) eqn:E1.
    + apply bytes_ltb_lt in E1. constructor; [constructor; assumption|].
      constructor; [exact E1|]. eapply Forall_impl; [exact Hy|].
      intros z Hz. eapply bytes_lt_trans; eassumption.
    + destruct (bytes_ltb y x) eqn:E2.
      * constructor; [exact IH|]. apply Forall_forall. intros z Hz.
        apply ReplaceOrInsert_elems in Hz. destruct Hz as [->|Hz].
        -- apply bytes_ltb_lt. exact E2.
        -- rewrite Forall_forall in Hy. auto.
      * rewrite (bytes_ltb_false x y E1 E2). constructor; assumption.
Qed.

Lemma insert_keys_spec keys : forall t,
  StronglySorted bytes_lt t ->
  StronglySorted bytes_lt
    (foldl (fun t k => LLRB.ReplaceOrInsert Walk.PutItem_less k t) t keys) /\
  forall key,
    key ∈ foldl (fun t k => LLRB.ReplaceOrInsert Walk.PutItem_less k t) t keys
    <-> key ∈ t \/ key ∈ keys.
Proof.
  induction keys as [|k keys IH]; intros t Hs; cbn [foldl].
  - split; [exact Hs|]. intros key. split; [auto|]. intros [H|H]; [exact H|inversion H].
  - destruct (IH _ (ReplaceOrInsert_sorted k t Hs)) as [Hs' He]. split; [exact Hs'|].
    intros key. rewrite He, ReplaceOrInsert_elems, elem_of_cons. tauto.
Qed.

(** *** Below 2^53 *)

Lemma walk_modified end_ es : index_ok es -> forall t,
  StronglySorted bytes_lt t ->
  exists t',
    walk_entries (Walk.modified_walker end_) None es t = Done t' /\
    StronglySorted bytes_lt t' /\
    forall key, key ∈ t' <-> key ∈ t \/ exists ts, ts <= end_ /\ recorded es ts Walk.hAT key.
Proof.
  induction es as [|[k v] es IH]; intros Hok t Hs.
  - exists t. split; [reflexivity|]. split; [exact Hs|].
    intros key. split; [auto|]. intros [Hm|(ts & _ & Hr)]; [exact Hm|].
    exfalso. exact (recorded_nil _ _ _ Hr).
  - destruct (index_ok_inv _ _ Hok) as (Hent & Hok' & _).
    destruct Hent as (ts & bucket & kc & keys & Hts & Hne & Hk & Hkc & Hkeys).
    cbn [fst snd] in Hk, Hkc, Hkeys. subst k. cbn [walk_entries].
    unfold Walk.modified_walker at 1. rewrite decode_encode_app by exact Hts.
    destruct (decide (bucket = Walk.hAT)) as [->|Hb].
    + rewrite bool_decide_eq_true_2 by reflexivity. cbn [negb].
      destruct (Z.gtb_spec ts end_) as [Hgt|Hle].
      * exists t. split; [reflexivity|]. split; [exact Hs|].
        intros key. split; [auto|]. intros [Hm|(ts' & Hle' & Hr)]; [exact Hm|exfalso].
        apply recorded_cons in Hr. destruct Hr as [(kc' & keys' & Hd & _)|Hr].
        -- rewrite decode_encode_app in Hd by exact Hts. injection Hd as <-. lia.
        -- pose proof (index_ok_later _ v es ts Walk.hAT Hok Hts eq_refl _ _ _ Hr). lia.
      * rewrite Hkc, read_keys_fold, Hkeys. cbn [fmap option_fmap option_map].
        destruct (insert_keys_spec keys t Hs) as [Hs1 He1].
        destruct (IH Hok' _ Hs1) as (t' & Hw & Hs' & He').
        exists t'. split; [exact Hw|]. split; [exact Hs'|].
        intros key. rewrite He', He1. split.
        -- intros [[Hm|Hkey]|(ts' & Hle' & Hr)].
           ++ left. exact Hm.
           ++ right. exists ts. split; [exact Hle|]. apply recorded_cons. left.
              exists kc, keys. rewrite decode_encode_app by exact Hts. auto.
           ++ right. exists ts'. split; [exact Hle'|]. apply recorded_cons. right. exact Hr.
        -- intros [Hm|(ts' & Hle' & Hr)]; [left; left; exact Hm|].
           apply recorded_cons in Hr.
           destruct Hr as [(kc' & keys' & Hd & Hkc' & Hkeys' & Hkey)|Hr].
           ++ rewrite Hkc in Hkc'. injection Hkc' as <-.
              rewrite Hkeys in Hkeys'. injection Hkeys' as <-.
              left. right. exact Hkey.
           ++ right. eauto.
    + rewrite bool_decide_eq_false_2 by exact Hb. cbn [negb].
      destruct (IH Hok' t Hs) as (t' & Hw & Hs' & He').
      exists t'. split; [exact Hw|]. split; [exact Hs'|].
      intros key. rewrite He'. split.
      * intros [Hm|(ts' & Hle' & Hr)]; [auto|]. right. exists ts'. split; [exact Hle'|].
        apply recorded_cons. right. exact Hr.
      * intros [Hm|(ts' & Hle' & Hr)]; [auto|]. right. exists ts'. split; [exact Hle'|].
        apply recorded_cons in Hr. destruct Hr as [(kc' & keys' & Hd & _)|Hr]; [|exact Hr].
        rewrite decode_encode_app in Hd by exact Hts. injection Hd as _ Hbb. congruence.
Qed.

Lemma ascend_from_min min t :
  StronglySorted bytes_lt (min :: t) ->
  filter (fun y => negb (Walk.PutItem_less y min)) (min :: t) = min :: t.
Proof.
  intros Hs. inversion Hs as [|? ? _ Hmin]; subst.
  assert (Hall : Forall (fun y => negb (Walk.PutItem_less y min)) (min :: t)).
  { constructor.
    - unfold Walk.PutItem_less. destruct (bytes_ltb min min) eqn:E; [|exact I].
      apply bytes_ltb_lt in E. destruct (bytes_lt_irrefl _ E).
    - eapply Forall_impl; [exact Hmin|]. intros y Hy.
      unfold Walk.PutItem_less. destruct (bytes_ltb y min) eqn:E; [|exact I].
      apply bytes_ltb_lt in E. destruct (bytes_lt_asym _ _ Hy E). }
  clear Hs Hmin. induction Hall as [|y l Hy _ IH]; [reflexivity|].
  rewrite filter_cons_True by exact Hy. rewrite IH. reflexivity.
Qed.

Lemma ascend_preimages db items : forall done,
  let '(accounts, _, extErr) :=
    LLRB.ascend (Walk.preimage_iterator db) items
      (done ++ replicate (length items) Walk.zero_address, length done, None) in
  extErr = (preimages db items).2 /\
  (extErr = None -> accounts = done ++ (preimages db items).1).
Proof.
  induction items as [|key items IH]; intros done; cbn [LLRB.ascend preimages length replicate].
  - split; [reflexivity|]. intros _. reflexivity.
  - unfold Walk.preimage_iterator at 1.
    destruct (db_get db Walk.secure_key_prefix key) as [value [e|]].
    + split; [reflexivity|discriminate].
    + replace (alter (fun a => Walk.copy_into a value) (length done)
                 (done ++ Walk.zero_address :: replicate (length items) Walk.zero_address))
        with ((done ++ [Walk.copy_into Walk.zero_address value])
                ++ replicate (length items) Walk.zero_address).
      2:{ rewrite <- (Nat.add_0_r (length done)) at 1. rewrite alter_app_r.
          rewrite <- app_assoc. reflexivity. }
      replace (S (length done))
        with (length (done ++ [Walk.copy_into Walk.zero_address value]))
        by (rewrite length_app; cbn; lia).
      specialize (IH (done ++ [Walk.copy_into Walk.zero_address value])).
      destruct (LLRB.ascend _ items _) as [[accounts idx] extErr].
      destruct (preimages db items) as [addresses e]. cbn [fst snd] in *.
      destruct IH as [He Ha]. split; [exact He|].
      intros Hn. rewrite (Ha Hn), <- app_assoc. reflexivity.
Qed.

Section ModifiedFacts.

Variable SuffixBucket : bytes.

(** X14: for 0 <= start <= end < 2^53 over a well-formed change index
    [GetModifiedAccounts] does what is expected of it: the tree holds, once
    each and in ascending order, the keys the index records as changed in
    the accounts history bucket at some timestamp in [start, end]; the
    result is the list of their preimages as addresses, or the error of the
    first key whose preimage lookup fails. *)
Lemma GetModifiedAccounts_below_2_53 db starttimestamp endtimestamp :
  0 <= starttimestamp -> starttimestamp <= endtimestamp -> endtimestamp < 2 ^ 53 ->
  index_ok (db_bucket db SuffixBucket) ->
  db_scan_error db SuffixBucket = None ->
  exists keys : list bytes,
    StronglySorted bytes_lt keys /\
    (forall key,
       key ∈ keys
       <-> exists ts, starttimestamp <= ts <= endtimestamp /\
             recorded (db_bucket db SuffixBucket) ts Walk.hAT key) /\
    Walk.GetModifiedAccounts SuffixBucket db starttimestamp endtimestamp
    = Some match preimages db keys with
           | (_, Some e) => (None, Some e)
           | (addresses, None) => (Some addresses, None)
           end.
Proof.
  intros H0 Hle Hhi Hok Hscan.
  destruct (drop_while_from starttimestamp _ Hok ltac:(lia)) as (Hok' & Hrec).
  destruct (walk_modified endtimestamp _ Hok' LLRB.New ltac:(constructor))
    as (t & Hwalk & Hs & He).
  exists t. split; [exact Hs|]. split.
  - intros key. rewrite He. split.
    + intros [Hin|(ts & Hts & Hr)]; [inversion Hin|].
      apply Hrec in Hr. destruct Hr as [Hr Hge]. exists ts. auto.
    + intros (ts & [Hge Hts] & Hr). right. exists ts. split; [exact Hts|].
      apply Hrec. auto.
  - unfold Walk.GetModifiedAccounts, Walk. rewrite Hscan, take_while_fixed_0, Hwalk.
    destruct t as [|min t]; [reflexivity|].
    cbn [LLRB.Len length Nat.eqb LLRB.Min head].
    unfold LLRB.AscendGreaterOrEqual. rewrite (ascend_from_min min t Hs).
    pose proof (ascend_preimages db (min :: t) []) as Hp.
    cbn [app length] in Hp.
    destruct (LLRB.ascend _ (min :: t) _) as [[accounts idx] extErr].
    destruct (preimages db (min :: t)) as [addresses e]. cbn [fst snd] in Hp.
    destruct Hp as [-> Ha]. destruct e as [e|]; [reflexivity|].
    rewrite (Ha eq_refl). reflexivity.
Qed.

End ModifiedFacts.

(** *** On the example store *)

Example GetModifiedAccounts_example :
  Walk.GetModifiedAccounts example_suffix_bucket example_db 6 7
  = Some (Some [ [1; 0] ++ replicate 18 0; [2; 0] ++ replicate 18 0 ], None).
Proof. vm_compute. reflexivity. Qed.

Example GetModifiedAccounts_failing_lookup :
  Walk.GetModifiedAccounts example_suffix_bucket failing_db 6 7
  = Some (None, Some (ErrPreimage [1])).
Proof. vm_compute. reflexivity. Qed.

(** C8 (the code misses the claim): with starttimestamp = endtimestamp =
    2^53 the start key is the suffix [0; 32; 0; ...] of 2^53, whose length
    prefix wrapped to 0, so the scan starts before every entry of the index;
    the entries of timestamps 3, 6, 7 and 9 all pass [timestamp > endtimestamp]
    and their keys are returned, although the index records no change at
    timestamp 2^53. *)
Theorem GetModifiedAccounts_2_53 :
  (forall bucket key, ~ recorded example_index (2 ^ 53) bucket key) /\
  Walk.GetModifiedAccounts example_suffix_bucket example_db (2 ^ 53) (2 ^ 53)
  = Some (Some [ [1; 0] ++ replicate 18 0; [2; 0] ++ replicate 18 0;
                 [5; 0] ++ replicate 18 0; [9; 0] ++ replicate 18 0 ], None).
Proof.
  split.
  - intros bucket key (k & v & kc & keys & Hin & Hd & _).
    unfold example_index in Hin.
    repeat (apply elem_of_cons in Hin; destruct Hin as [Heq|Hin];
            [injection Heq as -> ->; vm_compute in Hd; discriminate|]).
    apply elem_of_nil in Hin. exact Hin.
  - vm_compute. reflexivity.
Qed.

(** * The trie and its proofs *)


Import Trie TrieSpec.

(** ** Induction over nodes *)

Lemma node_induction (P : node -> Prop) :
  P Empty ->
  (forall ks v, P (Leaf ks v)) ->
  (forall f c, P c -> P (Extension f c)) ->
  (forall cs, Forall P cs -> P (Branch cs)) ->
  (forall h, P (HashPlaceholder h)) ->
  (forall v, P (ValueNode v)) ->
  forall n, P n.
Proof.
  intros HE HL HX HB HH HV. fix IH 1. intros [|ks v|f c|cs|h|v].
  - exact HE.
  - apply HL.
  - apply HX, IH.
  - apply HB. induction cs as [|c cs IHcs]; constructor; [apply IH | exact IHcs].
  - apply HH.
  - apply HV.
Qed.

(** The child selection of [descend], [path] and [insert] by lookup. *)
Lemma descend_branch cs x rk :
  descend (Branch cs) (x :: rk)
  = match cs !! Z.to_nat x with Some c => descend c rk | None => Absent end.
Proof.
  cbn [descend]. generalize (Z.to_nat x). induction cs as [|c cs IH]; intros [|i]; cbn; auto.
Qed.

Lemma path_branch cs x rk :
  path (Branch cs) (x :: rk)
  = (Branch cs, x :: rk)
      :: match cs !! Z.to_nat x with Some c => path c rk | None => [] end.
Proof.
  cbn [path]. f_equal. generalize (Z.to_nat x).
  induction cs as [|c cs IH]; intros [|i]; cbn; auto.
Qed.

Lemma insert_branch cs x rk v :
  insert (Branch cs) (x :: rk) v
  = Branch (match cs !! Z.to_nat x with
            | Some c => <[Z.to_nat x := insert c rk v]> cs
            | None => cs
            end).
Proof.
  cbn [insert]. f_equal. generalize (Z.to_nat x).
  induction cs as [|c cs IH]; intros [|i]; cbn; auto.
  rewrite IH. destruct (cs !! i); reflexivity.
Qed.

Lemma resolved_branch cs : resolved (Branch cs) <-> Forall resolved cs.
Proof.
  cbn [resolved]. induction cs as [|c cs IH].
  - split; constructor.
  - rewrite Forall_cons, <- IH. reflexivity.
Qed.

Lemma resolved_descend n : forall key, resolved n -> reached (descend n key) <> None.
Proof.
  induction n as [|ks v|f c IH|cs IH|h|v] using node_induction; intros key Hr.
  - discriminate.
  - cbn. destruct (bool_decide _); discriminate.
  - cbn [descend]. destruct (is_prefix f key); [apply IH, Hr | discriminate].
  - destruct key as [|x rk]; [discriminate|]. rewrite descend_branch.
    destruct (cs !! Z.to_nat x) as [c|] eqn:E; [|discriminate].
    apply resolved_branch in Hr. rewrite Forall_forall in IH, Hr.
    apply list_elem_of_lookup_2 in E. apply IH; auto.
  - destruct Hr.
  - destruct key; discriminate.
Qed.

(** ** The path of a key *)

Lemma path_suffix n : forall key l1 m km l2,
  path n key = l1 ++ (m, km) :: l2 -> path m km = (m, km) :: l2.
Proof.
  induction n as [|ks v|f c IH|cs IH|h|v] using node_induction;
    intros key l1 m km l2 Hp.
  - destruct l1; discriminate.
  - cbn in Hp. destruct l1 as [|? [|? ?]]; try discriminate.
    injection Hp as <- <- <-. reflexivity.
  - cbn [path] in Hp. destruct l1 as [|x l1].
    + injection Hp as <- <- <-. reflexivity.
    + injection Hp as _ Hp. destruct (is_prefix f key); [eapply IH, Hp|].
      destruct l1; discriminate.
  - destruct key as [|x rk].
    + cbn in Hp. destruct l1 as [|? [|? ?]]; try discriminate.
      injection Hp as <- <- <-. reflexivity.
    + rewrite path_branch in Hp. destruct l1 as [|y l1].
      * injection Hp as <- <- <-. rewrite path_branch. reflexivity.
      * injection Hp as _ Hp.
        destruct (cs !! Z.to_nat x) as [c|] eqn:E; [|destruct l1; discriminate].
        rewrite Forall_forall in IH.
        eapply IH; [eapply list_elem_of_lookup_2, E | exact Hp].
  - destruct l1; discriminate.
  - cbn in Hp. destruct l1 as [|? [|? ?]]; try discriminate.
    injection Hp as <- <- <-. reflexivity.
Qed.

Lemma path_descend n : forall key m km,
  (m, km) ∈ path n key -> descend m km = descend n key.
Proof.
  induction n as [|ks v|f c IH|cs IH|h|v] using node_induction; intros key m km Hin.
  - apply elem_of_nil in Hin. destruct Hin.
  - cbn in Hin. apply list_elem_of_singleton in Hin. injection Hin as -> ->. reflexivity.
  - cbn [path] in Hin. apply elem_of_cons in Hin. destruct Hin as [Heq|Hin].
    + injection Heq as -> ->. reflexivity.
    + cbn [descend]. destruct (is_prefix f key); [apply IH, Hin|].
      apply elem_of_nil in Hin. destruct Hin.
  - destruct key as [|x rk].
    + cbn in Hin. apply list_elem_of_singleton in Hin. injection Hin as -> ->. reflexivity.
    + rewrite path_branch in Hin. apply elem_of_cons in Hin. destruct Hin as [Heq|Hin].
      * injection Heq as -> ->. reflexivity.
      * rewrite descend_branch.
        destruct (cs !! Z.to_nat x) as [c|] eqn:E; [|apply elem_of_nil in Hin; destruct Hin].
        rewrite Forall_forall in IH.
        apply IH; [eapply list_elem_of_lookup_2, E | exact Hin].
  - apply elem_of_nil in Hin. destruct Hin.
  - cbn in Hin. apply list_elem_of_singleton in Hin. injection Hin as -> ->. reflexivity.
Qed.

Lemma path_resolved n : forall key m km,
  (m, km) ∈ path n key -> resolved n -> resolved m.
Proof.
  induction n as [|ks v|f c IH|cs IH|h|v] using node_induction; intros key m km Hin Hr.
  - apply elem_of_nil in Hin. destruct Hin.
  - cbn in Hin. apply list_elem_of_singleton in Hin. injection Hin as -> ->. exact Hr.
  - cbn [path] in Hin. apply elem_of_cons in Hin. destruct Hin as [Heq|Hin].
    + injection Heq as -> ->. exact Hr.
    + destruct (is_prefix f key); [eapply IH; [exact Hin|exact Hr]|].
      apply elem_of_nil in Hin. destruct Hin.
  - destruct key as [|x rk].
    + cbn in Hin. apply list_elem_of_singleton in Hin. injection Hin as -> ->. exact Hr.
    + rewrite path_branch in Hin. apply elem_of_cons in Hin. destruct Hin as [Heq|Hin].
      * injection Heq as -> ->. exact Hr.
      * destruct (cs !! Z.to_nat x) as [c|] eqn:E; [|apply elem_of_nil in Hin; destruct Hin].
        apply resolved_branch in Hr. rewrite Forall_forall in IH, Hr.
        apply list_elem_of_lookup_2 in E. eapply IH; eauto.
  - destruct Hr.
  - cbn in Hin. apply list_elem_of_singleton in Hin. injection Hin as -> ->. exact Hr.
Qed.

Lemma path_head n key : resolved n -> n <> Empty ->
  exists below, path n key = (n, key) :: below.
Proof.
  destruct n; intros Hr Hne; try contradiction; try destruct Hr; cbn [path]; eauto.
Qed.

(** ** Following a key through the collapsed form *)

Section ProofFacts.

Variable encode : node -> list Z.
Variable decode : list Z -> option node.
Variable hash : list Z -> list Z.

Abbreviation addr := (fun m : node * list Z => addressable encode hash m.1 = true).

Lemma descend_ref c key :
  resolved c ->
  (descend (collapse encode hash c) key
   = first_stored encode hash (tail (path c key)) (descend c key)) ->
  descend (node_ref encode hash (collapse encode hash c)) key
  = first_stored encode hash (path c key) (descend c key).
Proof.
  intros Hr IH. unfold first_stored in *.
  destruct c as [|ks v|f c|cs|h|v]; try (destruct Hr; fail).
  - reflexivity.
  - cbn [path tail] in *. rewrite filter_cons. unfold addressable, node_encoding.
    cbn [collapse node_ref fst] in *.
    destruct (length (encode (Leaf ks v)) <=? 32)%nat; cbn [negb];
      [rewrite decide_False by discriminate | rewrite decide_True by reflexivity];
      [exact IH | reflexivity].
  - cbn [path tail] in IH. cbn [path]. rewrite filter_cons. unfold addressable, node_encoding.
    cbn [fst]. cbn [collapse node_ref] in *.
    destruct (length (encode (Extension f _)) <=? 32)%nat; cbn [negb];
      [rewrite decide_False by discriminate | rewrite decide_True by reflexivity];
      [exact IH | reflexivity].
  - assert (Hp : path (Branch cs) key = (Branch cs, key) :: tail (path (Branch cs) key))
      by (destruct key; reflexivity).
    rewrite Hp, filter_cons. unfold addressable, node_encoding. cbn [fst].
    cbn [collapse node_ref] in *.
    destruct (length (encode (Branch _)) <=? 32)%nat; cbn [negb];
      [rewrite decide_False by discriminate | rewrite decide_True by reflexivity];
      [exact IH | reflexivity].
  - cbn [path tail] in *. rewrite filter_cons. unfold addressable, node_encoding.
    cbn [collapse node_ref fst] in *.
    destruct (length (encode (ValueNode v)) <=? 32)%nat; cbn [negb];
      [rewrite decide_False by discriminate | rewrite decide_True by reflexivity];
      [exact IH | reflexivity].
Qed.

Lemma descend_collapse n : forall key,
  resolved n ->
  descend (collapse encode hash n) key
  = first_stored encode hash (tail (path n key)) (descend n key).
Proof.
  induction n as [|ks v|f c IH|cs IH|h|v] using node_induction; intros key Hr;
    try reflexivity.
  - cbn [collapse descend path tail].
    destruct (is_prefix f key); [|reflexivity].
    apply descend_ref; [exact Hr | apply IH, Hr].
  - destruct key as [|x rk]; [reflexivity|].
    cbn [collapse]. rewrite !descend_branch, path_branch. cbn [tail].
    rewrite list_lookup_fmap.
    destruct (cs !! Z.to_nat x) as [c|] eqn:E; cbn [fmap option_fmap option_map]; [|reflexivity].
    apply resolved_branch in Hr. rewrite Forall_forall in IH, Hr.
    apply list_elem_of_lookup_2 in E.
    apply descend_ref; [apply Hr, E | apply IH; auto].
Qed.


Abbreviation put := (fun (store : gmap (list Z) (list Z)) (n : node) =>
  <[node_hash encode hash n := node_encoding encode hash n]> store).

Lemma put_all_lookup nodes : forall store h e,
  foldl put store nodes !! h = Some e ->
  store !! h = Some e \/
  exists n, n ∈ nodes /\ h = node_hash encode hash n /\ e = node_encoding encode hash n.
Proof.
  induction nodes as [|a nodes IH]; intros store h e Hl; cbn [foldl] in Hl; [auto|].
  apply IH in Hl. destruct Hl as [Hl|(n & Hin & Hh & He)].
  - destruct (decide (node_hash encode hash a = h)) as [E|NE].
    + rewrite E, lookup_insert_eq in Hl. injection Hl as <-.
      right. exists a. split; [apply list_elem_of_here|auto].
    + rewrite lookup_insert_ne in Hl by exact NE. auto.
  - right. exists n. split; [apply list_elem_of_further, Hin|auto].
Qed.

Hypothesis decode_encode : forall n, decode (encode n) = Some n.

Lemma filter_head_split (L : list (node * list Z)) x rest :
  filter addr L = x :: rest ->
  exists l1 l2, L = l1 ++ x :: l2 /\ filter addr l2 = rest.
Proof.
  intros Hf.
  assert (Hh : head (filter addr L) = Some x) by (rewrite Hf; reflexivity).
  apply head_filter_Some in Hh. destruct Hh as (l1 & l2 & -> & Hl1).
  exists l1, l2. split; [reflexivity|].
  rewrite filter_app in Hf.
  assert (filter addr l1 = []) as E1.
  { clear Hf. induction l1 as [|y l1 IH]; [reflexivity|].
    inversion Hl1; subst. rewrite filter_cons_False by assumption. auto. }
  rewrite E1 in Hf. cbn [app] in Hf. rewrite filter_cons in Hf.
  destruct (decide (addressable encode hash x.1 = true)) as [Hx|Hx].
  - injection Hf as Hf. exact Hf.
  - assert (x ∈ filter addr l2) as Hin by (rewrite Hf; apply list_elem_of_here).
    apply list_elem_of_filter in Hin. destruct Hin as [Hin _]. contradiction.
Qed.

(** One iteration of the loop at a node the store holds. *)
Lemma verify_step fuel m km L store i :
  path m km = (m, km) :: L -> resolved m -> entry_good encode hash store m ->
  verify decode hash (S fuel) (node_hash encode hash m) km store i
  = match first_stored encode hash L (descend m km) with
    | Found v => Value v (S i)
    | Absent => NotPresent (S i)
    | Next h rest => verify decode hash fuel h rest store (S i)
    end.
Proof.
  intros Hp Hr Hg. cbn [verify]. rewrite Hg.
  unfold node_hash at 1. rewrite bool_decide_eq_true_2 by reflexivity.
  unfold node_encoding. rewrite decode_encode.
  rewrite descend_collapse by exact Hr. rewrite Hp. reflexivity.
Qed.

(** With every stored node of the path in the store the loop returns what
    the key reaches in the trie. *)
Lemma verify_good store : forall n L m km i fuel,
  (length L <= n)%nat ->
  path m km = (m, km) :: L -> resolved m ->
  entry_good encode hash store m ->
  Forall (fun x => entry_good encode hash store x.1) (filter addr L) ->
  (length (filter addr L) < fuel)%nat ->
  returned (verify decode hash fuel (node_hash encode hash m) km store i)
  = reached (descend m km).
Proof.
  induction n as [|n IH]; intros L m km i fuel Hlen Hp Hr Hg Hall Hfuel;
    (destruct fuel as [|fuel]; [lia|]); rewrite (verify_step _ _ _ L) by assumption;
    unfold first_stored.
  - destruct L; [|cbn in Hlen; lia]. rewrite filter_nil.
    pose proof (resolved_descend m km Hr). destruct (descend m km); cbn in *; congruence.
  - destruct (filter addr L) as [|[m' km'] rest] eqn:Ef.
    + pose proof (resolved_descend m km Hr). destruct (descend m km); cbn in *; congruence.
    + destruct (filter_head_split _ _ _ Ef) as (l1 & l2 & -> & Ef2).
      assert (Hp' : path m' km' = (m', km') :: l2)
        by (apply (path_suffix m km ((m, km) :: l1)); rewrite Hp; reflexivity).
      assert (Hin : (m', km') ∈ path m km).
      { rewrite Hp. apply list_elem_of_further, elem_of_app. right. apply list_elem_of_here. }
      inversion Hall; subst.
      rewrite (IH l2); try assumption.
      * f_equal. apply (path_descend m km), Hin.
      * rewrite length_app in Hlen. cbn in Hlen. lia.
      * eapply path_resolved; eauto.
      * cbn in Hfuel. lia.
Qed.

(** With a stored node of the path missing or replaced by bytes of another
    hash the loop returns no value, and an error once it has fuel for the
    path. *)
Lemma verify_bad store : forall n L m km i fuel,
  (length L <= n)%nat ->
  path m km = (m, km) :: L -> resolved m ->
  Forall (fun x => entry_good encode hash store x.1 \/ entry_bad encode hash store x.1)
    ((m, km) :: filter addr L) ->
  Exists (fun x => entry_bad encode hash store x.1) ((m, km) :: filter addr L) ->
  returned (verify decode hash fuel (node_hash encode hash m) km store i) = None /\
  ((length (filter addr L) < fuel)%nat ->
   exists e, verify decode hash fuel (node_hash encode hash m) km store i = Invalid e).
Proof.
  assert (Hbad : forall m km i fuel, entry_bad encode hash store m ->
            returned (verify decode hash (S fuel) (node_hash encode hash m) km store i) = None /\
            exists e, verify decode hash (S fuel) (node_hash encode hash m) km store i
                      = Invalid e).
  { intros m km i fuel [Hn|(e & He & Hne)]; cbn [verify]; [rewrite Hn|rewrite He].
    - split; [reflexivity|eauto].
    - rewrite bool_decide_eq_false_2 by exact Hne. split; [reflexivity|eauto]. }
  induction n as [|n IH]; intros L m km i fuel Hlen Hp Hr Hall Hex;
    (destruct fuel as [|fuel]; [split; [reflexivity|lia]|]);
    inversion Hall as [|? ? Hm Hall']; subst.
  - destruct L; [|cbn in Hlen; lia]. rewrite filter_nil in Hex.
    apply Exists_cons in Hex. destruct Hex as [Hb|Hex]; [|inversion Hex].
    destruct (Hbad m km i fuel Hb) as [H1 H2]. auto.
  - cbn [fst] in Hm. destruct Hm as [Hg|Hb];
      [|destruct (Hbad m km i fuel Hb) as [H1 H2]; auto].
    apply Exists_cons in Hex. destruct Hex as [Hb|Hex];
      [destruct (Hbad m km i fuel Hb) as [H1 H2]; auto|].
    rewrite (verify_step _ _ _ L) by assumption. unfold first_stored.
    destruct (filter addr L) as [|[m' km'] rest] eqn:Ef; [inversion Hex|].
    destruct (filter_head_split _ _ _ Ef) as (l1 & l2 & -> & Ef2).
    assert (Hp' : path m' km' = (m', km') :: l2)
      by (apply (path_suffix m km ((m, km) :: l1)); rewrite Hp; reflexivity).
    assert (Hin : (m', km') ∈ path m km).
    { rewrite Hp. apply list_elem_of_further, elem_of_app. right. apply list_elem_of_here. }
    destruct (IH l2 m' km' (S i) fuel) as [H1 H2]; try assumption.
    + rewrite length_app in Hlen. cbn in Hlen. lia.
    + eapply path_resolved; eauto.
    + rewrite Ef2. exact Hall'.
    + rewrite Ef2. exact Hex.
    + split; [exact H1|]. intros Hf. apply H2. rewrite Ef2. cbn in Hf. lia.
Qed.

(** Two stores that both hold every stored node of the path give the loop
    the same run. *)
Lemma verify_agree store1 store2 : forall n L m km i fuel,
  (length L <= n)%nat ->
  path m km = (m, km) :: L -> resolved m ->
  Forall (fun x => entry_good encode hash store1 x.1 /\ entry_good encode hash store2 x.1)
    ((m, km) :: filter addr L) ->
  verify decode hash fuel (node_hash encode hash m) km store1 i
  = verify decode hash fuel (node_hash encode hash m) km store2 i.
Proof.
  induction n as [|n IH]; intros L m km i fuel Hlen Hp Hr Hall;
    (destruct fuel as [|fuel]; [reflexivity|]);
    inversion Hall as [|? ? [Hg1 Hg2] Hall']; subst; cbn [fst] in Hg1, Hg2;
    rewrite !(verify_step _ _ _ L) by assumption; unfold first_stored.
  - destruct L; [|cbn in Hlen; lia]. rewrite filter_nil.
    pose proof (resolved_descend m km Hr).
    destruct (descend m km); cbn in *; congruence.
  - destruct (filter addr L) as [|[m' km'] rest] eqn:Ef.
    { pose proof (resolved_descend m km Hr).
      destruct (descend m km); cbn in *; congruence. }
    destruct (filter_head_split _ _ _ Ef) as (l1 & l2 & -> & Ef2).
    assert (Hp' : path m' km' = (m', km') :: l2)
      by (apply (path_suffix m km ((m, km) :: l1)); rewrite Hp; reflexivity).
    assert (Hin : (m', km') ∈ path m km).
    { rewrite Hp. apply list_elem_of_further, elem_of_app. right. apply list_elem_of_here. }
    apply (IH l2); try assumption.
    + rewrite length_app in Hlen. cbn in Hlen. lia.
    + eapply path_resolved; eauto.
    + rewrite Ef2. exact Hall'.
Qed.

Lemma Forall_or_Exists {A : Type} (P Q : A -> Prop) (l : list A) :
  Forall (fun x => P x \/ Q x) l -> Forall P l \/ Exists Q l.
Proof.
  induction 1 as [|x l [Hp|Hq] _ [IH|IH]].
  - left. constructor.
  - left. constructor; assumption.
  - right. apply Exists_cons_tl. exact IH.
  - right. apply Exists_cons_hd. exact Hq.
  - right. apply Exists_cons_hd. exact Hq.
Qed.


(** ** The store [Prove] builds *)

Hypothesis hash_injective : forall a b, hash a = hash b -> a = b.

Lemma put_all_keeps nodes : forall store n,
  entry_good encode hash store n -> entry_good encode hash (foldl put store nodes) n.
Proof.
  induction nodes as [|a nodes IH]; intros store n Hg; cbn [foldl]; [exact Hg|].
  apply IH. unfold entry_good in *.
  destruct (decide (node_hash encode hash a = node_hash encode hash n)) as [E|NE].
  - rewrite E, lookup_insert_eq. f_equal. apply hash_injective. exact E.
  - rewrite lookup_insert_ne by exact NE. exact Hg.
Qed.

Lemma put_all_good nodes : forall store n,
  n ∈ nodes -> entry_good encode hash (foldl put store nodes) n.
Proof.
  induction nodes as [|a nodes IH]; intros store n Hin; cbn [foldl].
  - apply elem_of_nil in Hin. destruct Hin.
  - apply elem_of_cons in Hin. destruct Hin as [->|Hin]; [|apply IH, Hin].
    apply put_all_keeps. unfold entry_good. apply lookup_insert_eq.
Qed.

Lemma proof_nodes_path n key below :
  path n key = (n, key) :: below ->
  proof_nodes encode hash n key = n :: (filter addr below).*1.
Proof. intros Hp. unfold proof_nodes. rewrite Hp. reflexivity. Qed.

Lemma Forall_fmap_fst (P : node -> Prop) (l : list (node * list Z)) :
  (forall n, n ∈ l.*1 -> P n) -> Forall (fun x => P x.1) l.
Proof.
  intros H. apply Forall_forall. intros x Hx. apply H.
  apply list_elem_of_fmap. exists x. auto.
Qed.

(** With a hash without collisions, a store holds a node or holds it
    wrongly. *)
Lemma entry_good_or_bad store n :
  entry_good encode hash store n \/ entry_bad encode hash store n.
Proof.
  unfold entry_good, entry_bad.
  destruct (store !! node_hash encode hash n) as [e|]; [|right; left; reflexivity].
  destruct (decide (e = node_encoding encode hash n)) as [->|Hne]; [left; reflexivity|].
  right. right. exists e. split; [reflexivity|].
  unfold node_hash. intros E. apply hash_injective in E. contradiction.
Qed.

(** A run of [VerifyProof] that returns a value or absent has found every
    node of the proof of that key in the store. *)
Lemma verify_reads_good (t : Trie) (key : list Z) (store : gmap (list Z) (list Z)) fuel :
  resolved (trie_root t) -> trie_root t <> Empty ->
  returned (VerifyProof decode hash fuel (Hash encode hash t) key store) <> None ->
  forall n, n ∈ proof_nodes encode hash (trie_root t) (key_nibbles key) ->
    entry_good encode hash store n.
Proof.
  intros Hr Hne Hret.
  destruct (path_head _ (key_nibbles key) Hr Hne) as (below & Hp).
  rewrite (proof_nodes_path _ _ _ Hp).
  assert (HF : Forall (fun x => entry_good encode hash store x.1 \/
                                entry_bad encode hash store x.1)
                 ((trie_root t, key_nibbles key) :: filter addr below)).
  { apply Forall_forall. intros x _. apply entry_good_or_bad. }
  destruct (Forall_or_Exists _ _ _ HF) as [Hall|Hex].
  - intros n Hn. rewrite Forall_forall in Hall.
    apply elem_of_cons in Hn. destruct Hn as [->|Hn].
    + apply (Hall (trie_root t, key_nibbles key)). apply list_elem_of_here.
    + apply list_elem_of_fmap in Hn. destruct Hn as (x & -> & Hx).
      apply Hall. apply list_elem_of_further. exact Hx.
  - exfalso. apply Hret.
    apply (verify_bad store (length below) below _ _ 0%nat fuel (le_n _) Hp Hr HF Hex).
Qed.

(** Two stores that both hold the proof of a key give [VerifyProof] for
    that key the same run. *)
Lemma verify_same (t : Trie) (key : list Z) (store1 store2 : gmap (list Z) (list Z)) fuel :
  resolved (trie_root t) -> trie_root t <> Empty ->
  (forall n, n ∈ proof_nodes encode hash (trie_root t) (key_nibbles key) ->
     entry_good encode hash store1 n /\ entry_good encode hash store2 n) ->
  VerifyProof decode hash fuel (Hash encode hash t) key store1
  = VerifyProof decode hash fuel (Hash encode hash t) key store2.
Proof.
  intros Hr Hne Hall.
  destruct (path_head _ (key_nibbles key) Hr Hne) as (below & Hp).
  rewrite (proof_nodes_path _ _ _ Hp) in Hall.
  apply (verify_agree store1 store2 (length below) below _ _ 0%nat fuel (le_n _) Hp Hr).
  apply Forall_forall. intros x Hx. apply Hall.
  apply elem_of_cons in Hx. destruct Hx as [->|Hx]; [apply list_elem_of_here|].
  apply list_elem_of_further. apply list_elem_of_fmap. exists x. auto.
Qed.

(** [VerifyProof] on the proof [Prove] builds returns what [Get] returns. *)
Lemma verify_prove (t : Trie) (key : list Z) :
  resolved (trie_root t) -> trie_root t <> Empty ->
  exists n0, forall fuel, (n0 <= fuel)%nat ->
    returned (VerifyProof decode hash fuel (Hash encode hash t) key
                (Prove encode hash t key 0 ∅))
    = Some (Get t key).
Proof.
  intros Hr Hne. destruct (path_head _ (key_nibbles key) Hr Hne) as (below & Hp).
  exists (S (length (filter addr below))). intros fuel Hfuel.
  unfold VerifyProof, Hash, Prove. rewrite (proof_nodes_path _ _ _ Hp). cbn [drop].
  set (nodes := trie_root t :: (filter addr below).*1).
  rewrite (verify_good _ (length below) below); try assumption; try lia.
  - unfold Get. pose proof (resolved_descend _ (key_nibbles key) Hr).
    destruct (descend (trie_root t) (key_nibbles key)); cbn in *; congruence.
  - apply put_all_good. apply list_elem_of_here.
  - apply (Forall_fmap_fst (fun n => entry_good encode hash _ n)).
    intros n Hin. apply put_all_good. apply list_elem_of_further, Hin.
Qed.

(** [VerifyProof] on a proof of [Prove] in which one node is missing or
    replaced fails. *)
Lemma verify_tampered (t : Trie) (key : list Z) (store : gmap (list Z) (list Z)) :
  resolved (trie_root t) -> trie_root t <> Empty ->
  (forall n, n ∈ proof_nodes encode hash (trie_root t) (key_nibbles key) ->
     entry_good encode hash store n \/ entry_bad encode hash store n) ->
  (exists n, n ∈ proof_nodes encode hash (trie_root t) (key_nibbles key) /\
     entry_bad encode hash store n) ->
  (forall fuel, returned (VerifyProof decode hash fuel (Hash encode hash t) key store) = None) /\
  exists n0, forall fuel, (n0 <= fuel)%nat ->
    exists e, VerifyProof decode hash fuel (Hash encode hash t) key store = Invalid e.
Proof.
  intros Hr Hne Hall (nb & Hnb & Hbad).
  destruct (path_head _ (key_nibbles key) Hr Hne) as (below & Hp).
  rewrite (proof_nodes_path _ _ _ Hp) in Hall, Hnb.
  assert (HF : Forall (fun x => entry_good encode hash store x.1 \/ entry_bad encode hash store x.1)
                 ((trie_root t, key_nibbles key) :: filter addr below)).
  { constructor; [apply Hall, list_elem_of_here|].
    apply (Forall_fmap_fst (fun n => entry_good encode hash store n \/ entry_bad encode hash store n)).
    intros n Hin. apply Hall, list_elem_of_further, Hin. }
  assert (HE : Exists (fun x => entry_bad encode hash store x.1)
                 ((trie_root t, key_nibbles key) :: filter addr below)).
  { apply elem_of_cons in Hnb. destruct Hnb as [->|Hin].
    - apply Exists_cons_hd. exact Hbad.
    - apply Exists_cons_tl. apply Exists_exists.
      apply list_elem_of_fmap in Hin. destruct Hin as (x & -> & Hx). eauto. }
  split.
  - intros fuel.
    apply (verify_bad store (length below) below _ _ 0%nat fuel (le_n _) Hp Hr HF HE).
  - exists (S (length (filter addr below))). intros fuel Hfuel.
    apply (verify_bad store (length below) below _ _ 0%nat fuel (le_n _) Hp Hr HF HE). lia.
Qed.

End ProofFacts.

(** ** Update *)

Lemma common_prefix_split a : forall b,
  a = common_prefix a b ++ drop (length (common_prefix a b)) a /\
  b = common_prefix a b ++ drop (length (common_prefix a b)) b.
Proof.
  induction a as [|x a IH]; intros [|y b]; cbn; auto.
  destruct (Z.eqb_spec x y) as [->|Hne]; cbn; [|auto].
  destruct (IH b) as [H1 H2]. split; f_equal; assumption.
Qed.

Lemma common_prefix_diverge a : forall b x ra y rb,
  drop (length (common_prefix a b)) a = x :: ra ->
  drop (length (common_prefix a b)) b = y :: rb ->
  x <> y.
Proof.
  induction a as [|x0 a IH]; intros [|y0 b] x ra y rb Ha Hb; cbn in *; try discriminate.
  destruct (Z.eqb_spec x0 y0) as [->|Hne]; cbn in *.
  - eapply IH; eauto.
  - injection Ha as <- _. injection Hb as <- _. exact Hne.
Qed.

Lemma is_prefix_app p r : is_prefix p (p ++ r) = true.
Proof. unfold is_prefix. apply bool_decide_eq_true_2. apply take_app_length. Qed.

Lemma is_prefix_true p key : is_prefix p key = true -> key = p ++ drop (length p) key.
Proof.
  unfold is_prefix. intros H. apply bool_decide_eq_true_1 in H.
  rewrite <- (take_drop (length p) key) at 1. rewrite H. reflexivity.
Qed.

Lemma is_prefix_app_cons p x r y r' :
  is_prefix (p ++ x :: r) (p ++ y :: r') = bool_decide (x = y) && is_prefix r r'.
Proof.
  unfold is_prefix. rewrite length_app. cbn [length].
  replace (length p + S (length r))%nat with (length p + S (length r))%nat by lia.
  rewrite take_app_add'; [|reflexivity]. cbn [take].
  destruct (decide (x = y)) as [->|Hne].
  - rewrite (bool_decide_eq_true_2 (y = y)) by reflexivity. cbn [andb].
    apply bool_decide_ext. split; intros H.
    + apply app_inv_head in H. injection H as H. exact H.
    + rewrite H. reflexivity.
  - rewrite (bool_decide_eq_false_2 (x = y)) by exact Hne. cbn [andb].
    apply bool_decide_eq_false_2. intros H. apply app_inv_head in H.
    injection H as H _. congruence.
Qed.

Lemma descend_extend p n key :
  descend (extend p n) key
  = if is_prefix p key then descend n (drop (length p) key) else Absent.
Proof. destruct p; reflexivity. Qed.

Lemma descend_fork x A y B x' r :
  0 <= x < 16 -> 0 <= y < 16 -> x <> y -> 0 <= x' ->
  descend (fork x A y B) (x' :: r)
  = if bool_decide (x' = y) then descend B r
    else if bool_decide (x' = x) then descend A r
    else Absent.
Proof.
  intros Hx Hy Hne Hx'. unfold fork. rewrite descend_branch.
  destruct (decide (x' = y)) as [->|Hny].
  - rewrite bool_decide_eq_true_2 by reflexivity.
    rewrite list_lookup_insert_eq; [reflexivity|].
    rewrite length_insert. unfold empty_children. rewrite length_replicate. lia.
  - rewrite bool_decide_eq_false_2 by exact Hny.
    rewrite list_lookup_insert_ne by lia.
    destruct (decide (x' = x)) as [->|Hnx].
    + rewrite bool_decide_eq_true_2 by reflexivity.
      rewrite list_lookup_insert_eq; [reflexivity|].
      unfold empty_children. rewrite length_replicate. lia.
    + rewrite bool_decide_eq_false_2 by exact Hnx.
      rewrite list_lookup_insert_ne by lia.
      unfold empty_children.
      destruct (replicate 16 Empty !! Z.to_nat x') as [c|] eqn:E; [|reflexivity].
      apply lookup_replicate in E. destruct E as [-> _]. reflexivity.
Qed.

Lemma keyed_fork d x A y B :
  0 <= x < 16 -> 0 <= y < 16 -> keyed d A -> keyed d B -> keyed (S d) (fork x A y B).
Proof.
  intros Hx Hy HA HB. unfold fork, empty_children. constructor.
  - rewrite !length_insert, length_replicate. reflexivity.
  - apply Forall_insert; [apply Forall_insert|]; try assumption.
    apply Forall_replicate. constructor.
Qed.

Lemma keyed_extend d p n :
  (length p <= d)%nat -> nibbles p -> keyed (d - length p) n -> keyed d (extend p n).
Proof.
  intros Hl Hn Hk. destruct p as [|x p]; cbn [extend].
  - cbn in Hk. rewrite Nat.sub_0_r in Hk. exact Hk.
  - constructor; assumption.
Qed.

Lemma is_prefix_app_l p q key : is_prefix (p ++ q) key = true -> is_prefix p key = true.
Proof.
  unfold is_prefix. intros H. apply bool_decide_eq_true_1 in H.
  apply bool_decide_eq_true_2.
  rewrite <- (take_drop (length (p ++ q)) key), H.
  rewrite <- app_assoc. apply take_app_length.
Qed.

Lemma nibbles_app a b : nibbles (a ++ b) <-> nibbles a /\ nibbles b.
Proof. unfold nibbles. apply Forall_app. Qed.

Lemma nibbles_cons x a : nibbles (x :: a) <-> 0 <= x < 16 /\ nibbles a.
Proof. unfold nibbles. rewrite Forall_cons. reflexivity. Qed.

(** The two rests of a split and the keys that reach them. *)
Lemma descend_split p x A y v rk key' :
  0 <= x < 16 -> 0 <= y < 16 -> x <> y -> nibbles key' ->
  length key' = length (p ++ y :: rk) ->
  descend (extend p (fork x A y (Leaf rk v))) key'
  = if bool_decide (key' = p ++ y :: rk) then Found v
    else if is_prefix (p ++ [x]) key' then descend A (drop (S (length p)) key')
    else Absent.
Proof.
  intros Hx Hy Hne Hk' Hlen. rewrite descend_extend.
  destruct (is_prefix p key') eqn:Ep.
  - apply is_prefix_true in Ep. revert Ep Hk' Hlen. generalize (drop (length p) key') as r.
    intros r -> Hk' Hlen. rewrite !length_app in Hlen.
    destruct r as [|x' r]; [cbn in Hlen; lia|].
    apply nibbles_app in Hk'. destruct Hk' as [_ Hk']. apply nibbles_cons in Hk'.
    rewrite descend_fork by lia.
    replace (drop (S (length p)) (p ++ x' :: r)) with r.
    2:{ rewrite drop_app_ge by lia. replace (S (length p) - length p)%nat with 1%nat by lia.
        reflexivity. }
    rewrite is_prefix_app_cons.
    assert (is_prefix [] r = true) as -> by (apply (is_prefix_app [] r)).
    rewrite andb_true_r.
    destruct (decide (x' = y)) as [->|Hny].
    + rewrite (bool_decide_eq_true_2 (y = y)) by reflexivity. cbn [descend].
      destruct (decide (rk = r)) as [->|Hnr].
      * rewrite !bool_decide_eq_true_2 by reflexivity. reflexivity.
      * rewrite (bool_decide_eq_false_2 (rk = r)) by exact Hnr.
        rewrite (bool_decide_eq_false_2 (p ++ y :: r = p ++ y :: rk)).
        2:{ intros H. apply app_inv_head in H. injection H as H. congruence. }
        rewrite (bool_decide_eq_false_2 (x = y)) by exact Hne. reflexivity.
    + rewrite (bool_decide_eq_false_2 (x' = y)) by exact Hny.
      rewrite (bool_decide_eq_false_2 (p ++ x' :: r = p ++ y :: rk)).
      2:{ intros H. apply app_inv_head in H. injection H as H _. congruence. }
      destruct (decide (x' = x)) as [->|Hnx].
      * rewrite !bool_decide_eq_true_2 by reflexivity. reflexivity.
      * rewrite (bool_decide_eq_false_2 (x' = x)) by exact Hnx.
        rewrite (bool_decide_eq_false_2 (x = x')) by congruence. reflexivity.
  - rewrite bool_decide_eq_false_2.
    2:{ intros ->. rewrite is_prefix_app in Ep. discriminate. }
    destruct (is_prefix (p ++ [x]) key') eqn:E2; [|reflexivity].
    apply is_prefix_app_l in E2. congruence.
Qed.

Lemma is_prefix_app_split q rf key :
  is_prefix (q ++ rf) key = is_prefix q key && is_prefix rf (drop (length q) key).
Proof.
  unfold is_prefix. rewrite length_app, <- take_take_drop.
  destruct (decide (take (length q) key = q)) as [E|NE].
  - rewrite (bool_decide_eq_true_2 _ E). cbn [andb]. rewrite E.
    apply bool_decide_ext. split; intros H.
    + apply app_inv_head in H. exact H.
    + rewrite H. reflexivity.
  - rewrite (bool_decide_eq_false_2 _ NE). cbn [andb].
    apply bool_decide_eq_false_2. intros H. apply NE.
    apply (f_equal (take (length q))) in H.
    rewrite take_app_length, take_take_drop, take_take in H.
    rewrite Nat.min_l in H by lia. exact H.
Qed.

Lemma descend_leaf_app q rs v key' :
  descend (Leaf (q ++ rs) v) key'
  = if is_prefix q key' then descend (Leaf rs v) (drop (length q) key') else Absent.
Proof.
  cbn [descend]. destruct (is_prefix q key') eqn:E.
  - apply is_prefix_true in E. revert E. generalize (drop (length q) key') as r.
    intros r ->. cbn [descend].
    apply (f_equal (fun b : bool => if b then Found v else Absent)).
    apply bool_decide_ext. split; intros H.
    + apply app_inv_head in H. exact H.
    + rewrite H. reflexivity.
  - rewrite bool_decide_eq_false_2; [reflexivity|].
    intros <-. rewrite is_prefix_app in E. discriminate.
Qed.

Lemma descend_extension_app q rf c key' :
  descend (Extension (q ++ rf) c) key'
  = if is_prefix q key' then descend (extend rf c) (drop (length q) key') else Absent.
Proof.
  cbn [descend]. rewrite is_prefix_app_split, descend_extend.
  destruct (is_prefix q key'); cbn [andb]; [|reflexivity].
  rewrite length_app, drop_drop. reflexivity.
Qed.

Lemma bool_decide_sym {A} `{EqDecision A} (a b : A) : bool_decide (a = b) = bool_decide (b = a).
Proof. apply bool_decide_ext. split; congruence. Qed.

(** [insert] keeps the trie well keyed, binds the key to the value and
    leaves what the other keys reach as it was. *)
Lemma insert_spec n : forall d key v,
  keyed d n -> length key = d -> nibbles key ->
  keyed d (insert n key v) /\
  forall key', length key' = d -> nibbles key' ->
    descend (insert n key v) key'
    = if bool_decide (key' = key) then Found v else descend n key'.
Proof.
  induction n as [|ks v0|f c IH|cs IH|h|v0] using node_induction;
    intros d key v Hk Hlen Hnib.
  - split; [constructor; assumption|]. intros key' _ _. cbn.
    rewrite (bool_decide_sym key key'). destruct (bool_decide (key' = key)); reflexivity.
  - inversion Hk as [|? ? ? Hl Hn| |]; subst. cbn [insert].
    destruct (common_prefix_split ks key) as [Hks Hkey].
    pose proof (common_prefix_diverge ks key) as Hdiv.
    set (p := common_prefix ks key) in *.
    destruct (drop (length p) ks) as [|x rs] eqn:E1;
      destruct (drop (length p) key) as [|y rk] eqn:E2;
      try (exfalso; apply (f_equal length) in Hks, Hkey;
           rewrite ?length_app in Hks, Hkey; cbn in Hks, Hkey; lia).
    + rewrite app_nil_r in Hks, Hkey. assert (key = ks) as -> by congruence.
      split; [constructor; assumption|]. intros key' _ _. cbn [descend].
      rewrite (bool_decide_sym ks key').
      destruct (bool_decide (key' = ks)); reflexivity.
    + specialize (Hdiv x rs y rk eq_refl eq_refl).
      rewrite Hks in Hn. rewrite Hkey in Hnib.
      apply nibbles_app in Hn, Hnib. destruct Hn as [Hp Hn], Hnib as [_ Hnib].
      apply nibbles_cons in Hn, Hnib. destruct Hn as [Hx Hrs], Hnib as [Hy Hrk].
      assert (Hl1 : length ks = (length p + S (length rs))%nat)
        by (rewrite Hks at 1; rewrite length_app; reflexivity).
      assert (Hl2 : length key = (length p + S (length rk))%nat)
        by (rewrite Hkey at 1; rewrite length_app; reflexivity).
      split.
      * apply keyed_extend; [lia|exact Hp|].
        match goal with |- keyed ?n _ => replace n with (S (length rk)) by lia end.
        apply keyed_fork; try assumption; constructor; try assumption; lia.
      * intros key' Hlen' Hnib'.
        rewrite descend_split; try assumption; [|rewrite <- Hkey; lia].
        rewrite <- Hkey. destruct (bool_decide (key' = key)); [reflexivity|].
        rewrite Hks. rewrite (cons_middle x p rs), app_assoc, descend_leaf_app.
        rewrite length_app. cbn [length]. rewrite Nat.add_1_r. reflexivity.
  - inversion Hk as [| |? ? ? Hl Hn Hc|]; subst. cbn [insert].
    destruct (common_prefix_split f key) as [Hf Hkey].
    pose proof (common_prefix_diverge f key) as Hdiv.
    set (p := common_prefix f key) in *.
    destruct (drop (length p) f) as [|x rf] eqn:E1.
    + rewrite app_nil_r in Hf. rewrite <- Hf in *. clear Hf.
      set (rk := drop (length f) key) in *.
      rewrite Hkey in Hnib. apply nibbles_app in Hnib. destruct Hnib as [_ Hrk].
      assert (Hl2 : length key = (length f + length rk)%nat)
        by (rewrite Hkey at 1; rewrite length_app; reflexivity).
      destruct (IH (length key - length f)%nat rk v Hc ltac:(lia) Hrk) as [IHk IHd].
      split; [constructor; assumption|].
      intros key' Hlen' Hnib'. cbn [descend].
      destruct (is_prefix f key') eqn:Ep.
      * apply is_prefix_true in Ep. revert Ep Hlen' Hnib'.
        generalize (drop (length f) key') as r'. intros r' -> Hlen' Hnib'.
        rewrite length_app in Hlen'. apply nibbles_app in Hnib'.
        rewrite IHd; [|lia|apply Hnib'].
        apply (f_equal (fun b : bool => if b then Found v else _)).
        apply bool_decide_ext. split; intros H.
        -- rewrite H. symmetry. exact Hkey.
        -- rewrite Hkey in H. apply app_inv_head in H. exact H.
      * rewrite bool_decide_eq_false_2; [reflexivity|].
        intros ->. rewrite Hkey, is_prefix_app in Ep. discriminate.
    + destruct (drop (length p) key) as [|y rk] eqn:E2.
      * exfalso. apply (f_equal length) in Hf, Hkey.
        rewrite ?length_app in Hf, Hkey. cbn in Hf, Hkey. lia.
      * specialize (Hdiv x rf y rk eq_refl eq_refl).
        rewrite Hf in Hn. rewrite Hkey in Hnib.
        apply nibbles_app in Hn, Hnib. destruct Hn as [Hp Hn], Hnib as [_ Hnib].
        apply nibbles_cons in Hn, Hnib. destruct Hn as [Hx Hrf], Hnib as [Hy Hrk].
        assert (Hl1 : length f = (length p + S (length rf))%nat)
          by (rewrite Hf at 1; rewrite length_app; reflexivity).
        assert (Hl2 : length key = (length p + S (length rk))%nat)
          by (rewrite Hkey at 1; rewrite length_app; reflexivity).
        split.
        -- apply keyed_extend; [lia|exact Hp|].
           match goal with |- keyed ?n _ => replace n with (S (length rk)) by lia end.
           apply keyed_fork; try assumption.
           ++ apply keyed_extend; [lia|exact Hrf|].
              match goal with
              | H : keyed ?m c |- keyed ?n c => replace n with m by lia; exact H
              end.
           ++ constructor; [reflexivity|exact Hrk].
        -- intros key' Hlen' Hnib'.
           rewrite descend_split; try assumption; [|rewrite <- Hkey; lia].
           rewrite <- Hkey. destruct (bool_decide (key' = key)); [reflexivity|].
           rewrite Hf. rewrite (cons_middle x p rf), app_assoc, descend_extension_app.
           rewrite length_app. cbn [length]. rewrite Nat.add_1_r. reflexivity.
  - subst d. inversion Hk as [| | |d' ? Hl Hcs Hd]; subst.
    destruct key as [|x rk]; [discriminate|].
    apply nibbles_cons in Hnib. destruct Hnib as [Hx Hrk].
    rewrite insert_branch.
    destruct (cs !! Z.to_nat x) as [c|] eqn:E.
    2:{ apply lookup_ge_None in E. lia. }
    rewrite Forall_forall in IH. rewrite Forall_forall in Hcs.
    pose proof (list_elem_of_lookup_2 _ _ _ E) as Hin.
    cbn in Hd. injection Hd as Hd. subst d'.
    cbn [length].
    destruct (IH c Hin _ rk v (Hcs c Hin) eq_refl Hrk) as [IHk IHd].
    split.
    + constructor; [rewrite length_insert; exact Hl|].
      apply Forall_insert; [apply Forall_forall; exact Hcs | exact IHk].
    + intros key' Hlen' Hnib'. destruct key' as [|x' rk']; [discriminate|].
      apply nibbles_cons in Hnib'. destruct Hnib' as [Hx' Hrk'].
      cbn in Hlen'. injection Hlen' as Hlen'.
      rewrite !descend_branch.
      destruct (decide (x' = x)) as [->|Hne].
      * rewrite list_lookup_insert_eq by (apply lookup_lt_Some in E; exact E).
        rewrite E, IHd by assumption.
        apply (f_equal (fun b : bool => if b then Found v else _)).
        apply bool_decide_ext. split; intros H; [rewrite H; reflexivity|].
        injection H as H. exact H.
      * rewrite list_lookup_insert_ne by lia.
        rewrite bool_decide_eq_false_2; [reflexivity|]. intros H. injection H as H _. congruence.
  - inversion Hk.
  - inversion Hk.
Qed.

Lemma keyed_resolved n : forall d, keyed d n -> resolved n.
Proof.
  induction n as [|ks v0|f c IH|cs IH|h|v0] using node_induction; intros d Hk;
    inversion Hk; subst; cbn [resolved]; auto.
  - eapply IH; eauto.
  - apply resolved_branch. rewrite Forall_forall in *. eauto.
Qed.

(** ** Keys as nibbles *)

Lemma key_nibbles_length k : length (key_nibbles k) = (2 * length k)%nat.
Proof.
  unfold key_nibbles. induction k as [|b k IH]; cbn [flat_map app length]; [reflexivity|].
  rewrite IH. lia.
Qed.

Lemma key_nibbles_nibbles k : octets k -> nibbles (key_nibbles k).
Proof.
  unfold key_nibbles. induction 1 as [|b k Hb Hk IH]; cbn [flat_map app]; [constructor|].
  repeat constructor; try exact IH.
  - rewrite Z.shiftr_div_pow2 by lia. apply Z.div_pos; lia.
  - rewrite Z.shiftr_div_pow2 by lia. apply Z.div_lt_upper_bound; simpl; lia.
  - change 15 with (Z.ones 4). rewrite Z.land_ones by lia. apply Z.mod_pos_bound. lia.
  - change 15 with (Z.ones 4). rewrite Z.land_ones by lia. apply Z.mod_pos_bound. lia.
Qed.

Lemma key_nibbles_inj k1 : forall k2,
  octets k1 -> octets k2 -> key_nibbles k1 = key_nibbles k2 -> k1 = k2.
Proof.
  unfold key_nibbles.
  induction k1 as [|b1 k1 IH]; intros [|b2 k2] H1 H2 Heq; cbn [flat_map app] in Heq;
    try discriminate.
  - reflexivity.
  - inversion H1; subst. inversion H2; subst. injection Heq as Hhi Hlo Hrest.
    f_equal; [|apply IH; assumption].
    rewrite !Z.shiftr_div_pow2 in Hhi by lia.
    change 15 with (Z.ones 4) in Hlo. rewrite !Z.land_ones in Hlo by lia.
    rewrite (Z.div_mod b1 (2 ^ 4)), (Z.div_mod b2 (2 ^ 4)) by lia. congruence.
Qed.

(** ** The trie of a list of pairs *)

Lemma build_snoc bucket kvs kv :
  build bucket (kvs ++ [kv]) = Update (build bucket kvs) kv.1 kv.2 0.
Proof. unfold build. rewrite foldl_app. reflexivity. Qed.

Lemma vals_of_snoc kvs kv : vals_of (kvs ++ [kv]) = <[kv.1 := kv.2]> (vals_of kvs).
Proof. unfold vals_of. rewrite foldl_app. reflexivity. Qed.

Lemma build_spec bucket len kvs :
  Forall (fun kv => length kv.1 = len /\ octets kv.1) kvs ->
  keyed (2 * len) (trie_root (build bucket kvs)) /\
  forall k, length k = len -> octets k ->
    descend (trie_root (build bucket kvs)) (key_nibbles k)
    = match vals_of kvs !! k with Some v => Found v | None => Absent end.
Proof.
  induction kvs as [|kv kvs IH] using rev_ind; intros Hall.
  - split; [constructor|]. intros k _ _. reflexivity.
  - apply Forall_app in Hall. destruct Hall as [Hall Hkv].
    inversion Hkv as [|? ? [Hlen Hoct] _]; subst.
    destruct (IH Hall) as [IHk IHd].
    rewrite build_snoc, vals_of_snoc. cbn [Update trie_root].
    destruct (insert_spec (trie_root (build bucket kvs)) (2 * length kv.1)
                (key_nibbles kv.1) kv.2 IHk (key_nibbles_length _)
                (key_nibbles_nibbles _ Hoct)) as [Hk Hd].
    split; [exact Hk|]. intros k Hlk Hok.
    rewrite Hd by (rewrite ?key_nibbles_length; auto using key_nibbles_nibbles; lia).
    destruct (decide (k = kv.1)) as [->|Hne].
    + rewrite bool_decide_eq_true_2 by reflexivity. rewrite lookup_insert_eq. reflexivity.
    + rewrite bool_decide_eq_false_2.
      2:{ intros H. apply Hne. apply key_nibbles_inj; assumption. }
      rewrite lookup_insert_ne by congruence. apply IHd; assumption.
Qed.

Lemma vals_of_key kvs k v :
  vals_of kvs !! k = Some v -> exists kv, kv ∈ kvs /\ kv.1 = k.
Proof.
  induction kvs as [|kv kvs IH] using rev_ind; intros Hl.
  - unfold vals_of in Hl. cbn in Hl. rewrite lookup_empty in Hl. discriminate.
  - rewrite vals_of_snoc in Hl. destruct (decide (kv.1 = k)) as [E|NE].
    + exists kv. split; [|exact E]. apply elem_of_app. right. apply list_elem_of_here.
    + rewrite lookup_insert_ne in Hl by exact NE.
      destruct (IH Hl) as (kv' & Hin & E). exists kv'. split; [|exact E].
      apply elem_of_app. left. exact Hin.
Qed.

(** ** The concrete codec is a round trip *)

Lemma example_run_list l : forall rest cur lists nodes,
  example_run (example_encode_list l ++ rest) cur lists nodes
  = example_run rest [] ((cur ++ l) :: lists) nodes.
Proof.
  unfold example_encode_list.
  induction l as [|z l IH]; intros rest cur lists nodes; cbn [flat_map app].
  - cbn. rewrite app_nil_r. reflexivity.
  - cbn [example_run]. rewrite Z.eqb_refl.
    rewrite IH, <- app_assoc. reflexivity.
Qed.

Lemma example_run_node n : forall rest lists nodes,
  example_run (example_encode n ++ rest) [] lists nodes
  = example_run rest [] lists (n :: nodes).
Proof.
  induction n as [|ks v|f c IH|cs IH|h|v] using node_induction; intros rest lists nodes.
  - reflexivity.
  - cbn [example_encode]. rewrite <- !app_assoc, !example_run_list. reflexivity.
  - cbn [example_encode]. rewrite <- !app_assoc, IH, example_run_list. reflexivity.
  - cbn [example_encode]. rewrite <- app_assoc.
    assert (Hall : forall cs' rest' nodes',
              Forall (fun n => forall rest lists nodes,
                        example_run (example_encode n ++ rest) [] lists nodes
                        = example_run rest [] lists (n :: nodes)) cs' ->
              example_run
                ((fix all (cs : list node) : list Z :=
                    match cs with
                    | [] => []
                    | c :: cs' => example_encode c ++ all cs'
                    end) cs' ++ rest') [] lists nodes'
              = example_run rest' [] lists (rev cs' ++ nodes')).
    { induction cs' as [|c cs' IHcs]; intros rest' nodes' Hcs; [reflexivity|].
      inversion Hcs; subst. rewrite <- app_assoc.
      rewrite H1, IHcs by assumption. cbn [rev]. rewrite <- app_assoc. reflexivity. }
    rewrite Hall by exact IH. cbn [app example_run].
    cbn [Z.eqb]. rewrite Nat2Z.id.
    assert ((length cs <=? length (rev cs ++ nodes))%nat = true) as ->.
    { apply Nat.leb_le. rewrite length_app, length_rev. lia. }
    rewrite take_app_length' by (rewrite length_rev; reflexivity).
    rewrite drop_app_length' by (rewrite length_rev; reflexivity).
    rewrite rev_involutive. reflexivity.
  - cbn [example_encode]. rewrite <- !app_assoc, !example_run_list. reflexivity.
  - cbn [example_encode]. rewrite <- !app_assoc, !example_run_list. reflexivity.
Qed.

Lemma example_decode_encode n : example_decode (example_encode n) = Some n.
Proof.
  unfold example_decode.
  rewrite <- (app_nil_r (example_encode n)), example_run_node. reflexivity.
Qed.

Lemma example_hash_injective a b : example_hash a = example_hash b -> a = b.
Proof. intros H. exact H. Qed.

(** ** Proofs of presence and absence *)

Section ProofClaims.

Variable encode : node -> list Z.
Variable decode : list Z -> option node.
Variable hash : list Z -> list Z.
Hypothesis decode_encode : forall n, decode (encode n) = Some n.
Hypothesis hash_injective : forall a b, hash a = hash b -> a = b.

(** C2: for every list of key/value pairs with keys of one length, inserted
    in order into an empty trie, and every key with its value in the map
    [vals] kept beside the trie, [VerifyProof] run on the root hash, the key
    and the proof [Prove] builds for it returns that value with no error,
    whenever it is given fuel for the path. *)
Theorem proof_of_inserted_key (bucket : list Z) (kvs : list (list Z * list Z)) (len : nat) :
  Forall (fun kv => length kv.1 = len /\ octets kv.1) kvs ->
  forall k v, vals_of kvs !! k = Some v ->
  exists n0, forall fuel, (n0 <= fuel)%nat ->
    returned (VerifyProof decode hash fuel (Hash encode hash (build bucket kvs)) k
                (Prove encode hash (build bucket kvs) k 0 ∅))
    = Some (Some v).
Proof.
  intros Hall k v Hv.
  destruct (vals_of_key _ _ _ Hv) as (kv & Hin & <-).
  rewrite Forall_forall in Hall. destruct (Hall kv Hin) as [Hlen Hoct].
  rewrite <- Forall_forall in Hall.
  destruct (build_spec bucket len kvs Hall) as [Hk Hd].
  specialize (Hd kv.1 Hlen Hoct). rewrite Hv in Hd.
  destruct (verify_prove encode decode hash decode_encode hash_injective
              (build bucket kvs) kv.1) as (n0 & Hn0).
  - eapply keyed_resolved, Hk.
  - intros E. rewrite E in Hd. discriminate.
  - exists n0. intros fuel Hf. rewrite (Hn0 fuel Hf). unfold Get. rewrite Hd. reflexivity.
Qed.

(** C3: take the proof [Prove] builds for a key of a resolved trie and
    change one byte of one of its values, either in place or, as the test
    does, by deleting the entry and putting the changed value back under its
    own hash.  For every key whose own proof holds the changed entry, the
    key the proof was built for among them, [VerifyProof] never returns a
    value or absent, and returns an error once it has fuel for the path.
    For a key whose own proof does not hold the changed entry, a run that
    returned a value or absent on the unchanged proof returns the same on
    the changed one. *)
Theorem mutated_proof_fails (t : Trie) (key h enc : list Z) (r : nat) (old new : Z)
    (store : gmap (list Z) (list Z)) :
  resolved (trie_root t) ->
  Prove encode hash t key 0 ∅ !! h = Some enc ->
  enc !! r = Some old -> new <> old ->
  store = <[h := mutateByte enc r new]> (Prove encode hash t key 0 ∅) \/
  store = <[hash (mutateByte enc r new) := mutateByte enc r new]>
            (delete h (Prove encode hash t key 0 ∅)) ->
  forall key' : list Z,
    (is_Some (Prove encode hash t key' 0 ∅ !! h) ->
     (forall fuel,
        returned (VerifyProof decode hash fuel (Hash encode hash t) key' store) = None) /\
     exists n0, forall fuel, (n0 <= fuel)%nat ->
       exists e, VerifyProof decode hash fuel (Hash encode hash t) key' store = Invalid e) /\
    (Prove encode hash t key' 0 ∅ !! h = None ->
     forall fuel,
       returned (VerifyProof decode hash fuel (Hash encode hash t) key'
                   (Prove encode hash t key 0 ∅)) <> None ->
       VerifyProof decode hash fuel (Hash encode hash t) key' store
       = VerifyProof decode hash fuel (Hash encode hash t) key'
           (Prove encode hash t key 0 ∅)).
Proof.
  intros Hr Hl Hold Hnew Hstore key'.
  set (enc' := mutateByte enc r new) in *.
  assert (Hne' : enc' <> enc).
  { intros E. assert (enc' !! r = Some new) as H1.
    { unfold enc', mutateByte. apply list_lookup_insert_eq. eapply lookup_lt_Some, Hold. }
    rewrite E, Hold in H1. congruence. }
  assert (HP : forall k n, n ∈ proof_nodes encode hash (trie_root t) (key_nibbles k) ->
            entry_good encode hash (Prove encode hash t k 0 ∅) n).
  { intros k n Hn. unfold Prove. rewrite drop_0. apply put_all_good; assumption. }
  assert (Hin : forall k, is_Some (Prove encode hash t k 0 ∅ !! h) ->
            exists n, n ∈ proof_nodes encode hash (trie_root t) (key_nibbles k) /\
                      h = node_hash encode hash n /\
                      Prove encode hash t k 0 ∅ !! h = Some (node_encoding encode hash n)).
  { intros k [e He]. pose proof He as He'. unfold Prove in He'. rewrite drop_0 in He'.
    destruct (put_all_lookup encode hash _ ∅ h e He') as [H0|(n & Hn & Hh & ->)].
    - rewrite lookup_empty in H0. discriminate.
    - exists n. auto. }
  destruct (Hin key (ex_intro _ enc Hl)) as (n0 & Hin0 & Hh & Hl0).
  assert (He : enc = node_encoding encode hash n0) by congruence.
  assert (Hroot : trie_root t <> Empty).
  { intros E. unfold proof_nodes in Hin0. rewrite E in Hin0. cbn in Hin0.
    apply elem_of_nil in Hin0. exact Hin0. }
  assert (Hhash : hash enc' <> h).
  { rewrite Hh. unfold node_hash. intros E. apply hash_injective in E. congruence. }
  set (P := Prove encode hash t key 0 ∅) in *.
  assert (Hbad : forall n, node_hash encode hash n = h -> entry_bad encode hash store n).
  { intros n E. unfold entry_bad. rewrite E. destruct Hstore as [-> | ->].
    - right. exists enc'. rewrite lookup_insert_eq. auto.
    - left. rewrite lookup_insert_ne by exact Hhash. apply lookup_delete_eq. }
  assert (Hkeep : forall n, node_hash encode hash n <> h ->
            entry_good encode hash P n -> entry_good encode hash store n).
  { intros n NE Hg. unfold entry_good in *. destruct Hstore as [-> | ->].
    - rewrite lookup_insert_ne by congruence. exact Hg.
    - destruct (decide (hash enc' = node_hash encode hash n)) as [E2|NE2].
      + rewrite E2, lookup_insert_eq. f_equal. apply hash_injective. exact E2.
      + rewrite lookup_insert_ne by exact NE2. rewrite lookup_delete_ne by congruence.
        exact Hg. }
  split.
  - intros Hsome. destruct (Hin key' Hsome) as (n & Hn & Hhn & _).
    apply (verify_tampered encode decode hash decode_encode); try assumption.
    + intros m _. apply entry_good_or_bad. exact hash_injective.
    + exists n. split; [exact Hn|]. apply Hbad. congruence.
  - intros Hnone fuel Hret.
    apply (verify_same encode decode hash decode_encode); try assumption.
    intros n Hn.
    assert (Hg : entry_good encode hash P n).
    { apply (verify_reads_good encode decode hash decode_encode hash_injective
               t key' P fuel Hr Hroot Hret n Hn). }
    split; [|exact Hg]. apply Hkeep; [|exact Hg].
    intros E. pose proof (HP key' n Hn) as Hg'. unfold entry_good in Hg'.
    rewrite E, Hnone in Hg'. discriminate.
Qed.

(** C4: a trie that holds one entry, a key [k] with a value [v], yields
    for every key a proof of exactly one node.  For [k] that proof verifies
    to [v], and for every other key it verifies to absent with no error, all
    at depth 1.  The test's trie is the case of "k" and "v", with the absent
    keys "a", "j", "l" and "z". *)
Theorem one_element_proof (bucket : list Z) (k v : list Z) :
  octets k ->
  let t := Update (empty_trie bucket) k v 0 in
  (forall key, size (Prove encode hash t key 0 ∅) = 1%nat) /\
  (forall fuel,
     VerifyProof decode hash (S fuel) (Hash encode hash t) k
       (Prove encode hash t k 0 ∅) = Value v 1) /\
  (forall key, octets key -> key <> k ->
     forall fuel,
       VerifyProof decode hash (S fuel) (Hash encode hash t) key
         (Prove encode hash t key 0 ∅) = NotPresent 1).
Proof.
  intros Hk. cbv zeta.
  set (leaf := Leaf (key_nibbles k) v).
  assert (Hstep : forall key fuel,
            Prove encode hash (Update (empty_trie bucket) k v 0) key 0 ∅
            = {[ hash (encode leaf) := encode leaf ]} /\
            VerifyProof decode hash (S fuel)
              (Hash encode hash (Update (empty_trie bucket) k v 0)) key
              {[ hash (encode leaf) := encode leaf ]}
            = if bool_decide (key_nibbles k = key_nibbles key)
              then Value v 1 else NotPresent 1).
  { intros key fuel. split; [reflexivity|].
    unfold VerifyProof, Hash, node_hash, node_encoding.
    cbn [verify Update trie_root empty_trie insert collapse]. fold leaf.
    rewrite lookup_singleton_eq. rewrite bool_decide_eq_true_2 by reflexivity.
    rewrite decode_encode. unfold leaf. cbn [descend].
    destruct (bool_decide (key_nibbles k = key_nibbles key)); reflexivity. }
  split; [|split].
  - intros key. rewrite (proj1 (Hstep key O)). apply map_size_singleton.
  - intros fuel. destruct (Hstep k fuel) as [-> ->].
    rewrite bool_decide_eq_true_2 by reflexivity. reflexivity.
  - intros key Hkey Hne fuel. destruct (Hstep key fuel) as [-> ->].
    rewrite bool_decide_eq_false_2; [reflexivity|].
    intros E. apply Hne. symmetry. apply key_nibbles_inj; assumption.
Qed.

End ProofClaims.


Lemma proof_of_inserted_key_witness :
  exists n0, forall fuel, (n0 <= fuel)%nat ->
    returned (VerifyProof example_decode example_hash fuel
                (Hash example_encode example_hash (build [66] example_pairs)) [1]
                (Prove example_encode example_hash (build [66] example_pairs) [1] 0 ∅))
    = Some (Some [11]).
Proof.
  apply (proof_of_inserted_key example_encode example_decode example_hash
           example_decode_encode example_hash_injective [66] example_pairs 1).
  - repeat constructor; lia.
  - reflexivity.
Defined.

Lemma mutated_proof_fails_witness :
  let t := build [66] example_pairs in
  let root := Hash example_encode example_hash t in
  let proof := Prove example_encode example_hash t [1] 0 ∅ in
  let store := <[example_branch_encoding := mutateByte example_branch_encoding 5 12]> proof in
  ((forall fuel,
      returned (VerifyProof example_decode example_hash fuel root [1] store) = None) /\
   exists n0, forall fuel, (n0 <= fuel)%nat ->
     exists e, VerifyProof example_decode example_hash fuel root [1] store = Invalid e) /\
  ((forall fuel,
      returned (VerifyProof example_decode example_hash fuel root [2] store) = None) /\
   exists n0, forall fuel, (n0 <= fuel)%nat ->
     exists e, VerifyProof example_decode example_hash fuel root [2] store = Invalid e) /\
  (forall fuel,
     returned (VerifyProof example_decode example_hash fuel root [16] proof) <> None ->
     VerifyProof example_decode example_hash fuel root [16] store
     = VerifyProof example_decode example_hash fuel root [16] proof).
Proof.
  cbv zeta.
  assert (H : resolved (trie_root (build [66] example_pairs))) by (vm_compute; tauto).
  pose proof (mutated_proof_fails example_encode example_decode example_hash
                example_decode_encode example_hash_injective
                (build [66] example_pairs) [1] example_branch_encoding
                example_branch_encoding 5 11 12 _ H eq_refl eq_refl
                ltac:(discriminate) (or_introl eq_refl)) as Hall.
  split; [|split].
  - apply (Hall [1]). eexists. reflexivity.
  - apply (Hall [2]). eexists. reflexivity.
  - apply (Hall [16]). reflexivity.
Defined.

(** C3 (the claim as worded fails): the proof built for the key [[1]] also
    verifies the key [[2]], to its value, and the key [[16]], to absent.
    With a byte of the entry of the Branch changed, in place or put back
    under its own hash, the keys [[1]] and [[2]] fail, but the key [[16]],
    whose path leaves the root before the Branch, still verifies to absent
    with no error. *)
Lemma mutated_proof_still_verifies :
  let t := build [66] example_pairs in
  let root := Hash example_encode example_hash t in
  let proof := Prove example_encode example_hash t [1] 0 ∅ in
  let changed := mutateByte example_branch_encoding 5 12 in
  let store1 := <[example_branch_encoding := changed]> proof in
  let store2 := <[example_hash changed := changed]> (delete example_branch_encoding proof) in
  proof !! example_branch_encoding = Some example_branch_encoding /\
  changed <> example_branch_encoding /\
  VerifyProof example_decode example_hash 5 root [1] proof = Value [11] 2 /\
  VerifyProof example_decode example_hash 5 root [2] proof = Value [20] 2 /\
  VerifyProof example_decode example_hash 5 root [16] proof = NotPresent 1 /\
  Forall (fun store =>
            returned (VerifyProof example_decode example_hash 5 root [1] store) = None /\
            returned (VerifyProof example_decode example_hash 5 root [2] store) = None /\
            VerifyProof example_decode example_hash 5 root [16] store = NotPresent 1)
    [store1; store2].
Proof.
  cbv zeta. split; [reflexivity|]. split; [discriminate|].
  split; [vm_compute; reflexivity|]. split; [vm_compute; reflexivity|].
  split; [vm_compute; reflexivity|].
  repeat constructor; vm_compute; reflexivity.
Qed.

Lemma one_element_proof_witness :
  let t := Update (empty_trie [66]) [107] [118] 0 in
  (forall key, size (Prove example_encode example_hash t key 0 ∅) = 1%nat) /\
  (forall fuel,
     VerifyProof example_decode example_hash (S fuel) (Hash example_encode example_hash t)
       [107] (Prove example_encode example_hash t [107] 0 ∅) = Value [118] 1) /\
  Forall (fun key =>
            forall fuel,
              VerifyProof example_decode example_hash (S fuel)
                (Hash example_encode example_hash t) key
                (Prove example_encode example_hash t key 0 ∅) = NotPresent 1)
    [[97]; [106]; [108]; [122]].
Proof.
  assert (Hk : octets [107]) by (repeat constructor; lia).
  destruct (one_element_proof example_encode example_decode example_hash
              example_decode_encode [66] [107] [118] Hk) as (H1 & H2 & H3).
  split; [exact H1|]. split; [exact H2|].
  repeat constructor; apply H3; try discriminate; repeat constructor; lia.
Defined.

(** The test's run evaluated: one node in each proof, "v" for "k" and
    absent for "a". *)
Example one_element_proof_example :
  let t := Update (empty_trie [66]) [107] [118] 0 in
  size (Prove example_encode example_hash t [107] 0 ∅) = 1%nat /\
  VerifyProof example_decode example_hash 1 (Hash example_encode example_hash t) [107]
    (Prove example_encode example_hash t [107] 0 ∅) = Value [118] 1 /\
  size (Prove example_encode example_hash t [97] 0 ∅) = 1%nat /\
  VerifyProof example_decode example_hash 1 (Hash example_encode example_hash t) [97]
    (Prove example_encode example_hash t [97] 0 ∅) = NotPresent 1.
Proof. vm_compute. auto. Qed.

Example VerifyProof_example :
  VerifyProof example_decode example_hash 5
    (Hash example_encode example_hash (build [66] example_pairs)) [1]
    (Prove example_encode example_hash (build [66] example_pairs) [1] 0 ∅)
  = Value [11] 2.
Proof. vm_compute. reflexivity. Qed.

(** * Unwinding *)

Import TrieDelete Unwind History.

(** ** Update keeps the canonical-minimal form *)

Lemma insert_not_empty n key v : insert n key v <> Empty.
Proof.
  destruct n as [|ks v0|f c|cs|h|v0]; cbn [insert]; try discriminate.
  - destruct (drop _ ks), (drop _ key); try discriminate;
      destruct (common_prefix ks key); discriminate.
  - destruct (drop _ f), (drop _ key); try discriminate;
      destruct (common_prefix f key); discriminate.
  - destruct key; discriminate.
Qed.

Lemma insert_branch_shape cs key v : exists cs', insert (Branch cs) key v = Branch cs'.
Proof. destruct key as [|x rk]; [exists cs; reflexivity|]. rewrite insert_branch. eauto. Qed.

Lemma minimal_fork x A y B :
  0 <= x < 16 -> 0 <= y < 16 -> x <> y -> A <> Empty -> B <> Empty ->
  minimal A -> minimal B -> minimal (fork x A y B).
Proof.
  intros Hx Hy Hne HA HB HmA HmB. unfold fork, empty_children.
  apply (minimal_branch _ (Z.to_nat x) (Z.to_nat y)); [lia| | |].
  - exists A. split; [|exact HA]. rewrite list_lookup_insert_ne by lia.
    apply list_lookup_insert_eq. rewrite length_replicate. lia.
  - exists B. split; [|exact HB]. apply list_lookup_insert_eq.
    rewrite length_insert, length_replicate. lia.
  - apply Forall_insert; [apply Forall_insert|]; try assumption.
    apply Forall_replicate. constructor.
Qed.

Lemma minimal_extend_branch p cs : minimal (Branch cs) -> minimal (extend p (Branch cs)).
Proof. intros H. destruct p; cbn [extend]; [exact H|]. constructor; [discriminate|exact H]. Qed.

Lemma insert_minimal n : forall d key v,
  keyed d n -> minimal n -> length key = d -> nibbles key -> minimal (insert n key v).
Proof.
  induction n as [|ks v0|f c IH|cs IH|h|v0] using node_induction;
    intros d key v Hk Hm Hlen Hnib.
  - constructor.
  - inversion Hk as [|? ? ? Hl Hn| |]; subst. cbn [insert].
    destruct (common_prefix_split ks key) as [Hks Hkey].
    pose proof (common_prefix_diverge ks key) as Hdiv.
    set (p := common_prefix ks key) in *.
    destruct (drop (length p) ks) as [|x rs] eqn:E1;
      destruct (drop (length p) key) as [|y rk] eqn:E2; try constructor.
    specialize (Hdiv x rs y rk eq_refl eq_refl).
    rewrite Hks in Hn. rewrite Hkey in Hnib.
    apply nibbles_app in Hn, Hnib. destruct Hn as [Hp Hn], Hnib as [_ Hnib].
    apply nibbles_cons in Hn, Hnib. destruct Hn as [Hx Hrs], Hnib as [Hy Hrk].
    apply minimal_extend_branch.
    apply minimal_fork; try assumption; try discriminate; constructor.
  - inversion Hk as [| |? ? ? Hl Hn Hc|]; subst. cbn [insert].
    destruct (common_prefix_split f key) as [Hf' Hkey].
    pose proof (common_prefix_diverge f key) as Hdiv.
    set (p := common_prefix f key) in *.
    destruct (drop (length p) f) as [|x rf] eqn:E1.
    + rewrite app_nil_r in Hf'. clearbody p. subst p.
      set (rk := drop (length f) key) in *. clearbody rk.
      rewrite Hkey in Hnib. apply nibbles_app in Hnib. destruct Hnib as [_ Hrk].
      assert (Hl2 : length key = (length f + length rk)%nat)
        by (rewrite Hkey at 1; rewrite length_app; reflexivity).
      inversion Hm as [| |? cs Hf Hmc|]; subst c.
      specialize (IH (length key - length f)%nat rk v Hc Hmc ltac:(lia) Hrk).
      destruct (insert_branch_shape cs rk v) as (cs' & Ecs'). rewrite Ecs' in *.
      constructor; [exact Hf|exact IH].
    + destruct (drop (length p) key) as [|y rk] eqn:E2; [exact Hm|].
      specialize (Hdiv x rf y rk eq_refl eq_refl).
      rewrite Hf' in Hn. rewrite Hkey in Hnib.
      apply nibbles_app in Hn, Hnib. destruct Hn as [Hp Hn], Hnib as [_ Hnib].
      apply nibbles_cons in Hn, Hnib. destruct Hn as [Hx Hrf], Hnib as [Hy Hrk].
      inversion Hm as [| |? cs Hf Hmc|]; subst c.
      apply minimal_extend_branch.
      apply minimal_fork; try assumption; try discriminate; try constructor.
      * destruct rf; discriminate.
      * apply minimal_extend_branch. exact Hmc.
  - subst d. inversion Hk as [| | |d' ? Hl Hcs Hd]; subst.
    destruct key as [|x rk]; [discriminate|].
    apply nibbles_cons in Hnib. destruct Hnib as [Hx Hrk].
    rewrite insert_branch.
    destruct (cs !! Z.to_nat x) as [c|] eqn:E.
    2:{ apply lookup_ge_None in E. lia. }
    rewrite Forall_forall in IH. rewrite Forall_forall in Hcs.
    pose proof (list_elem_of_lookup_2 _ _ _ E) as Hin.
    cbn in Hd. injection Hd as Hd. subst d'.
    inversion Hm as [| | |? i j Hij Hi Hj Hall]; subst.
    rewrite Forall_forall in Hall.
    assert (Hlive : forall k, live_child cs k ->
              live_child (<[Z.to_nat x := insert c rk v]> cs) k).
    { intros k (ck & Hck & Hne). destruct (decide (k = Z.to_nat x)) as [->|Hkx].
      - exists (insert c rk v). split; [|apply insert_not_empty].
        apply list_lookup_insert_eq. eapply lookup_lt_Some, E.
      - exists ck. split; [|exact Hne]. rewrite list_lookup_insert_ne by congruence.
        exact Hck. }
    apply (minimal_branch _ i j); auto.
    apply Forall_insert; [apply Forall_forall; exact Hall|].
    eapply IH; eauto.
  - inversion Hk.
  - inversion Hk.
Qed.

(** ** Delete *)

Lemma remove_branch cs x rk :
  remove (Branch cs) (x :: rk)
  = collapse_branch (match cs !! Z.to_nat x with
                     | Some c => <[Z.to_nat x := remove c rk]> cs
                     | None => cs
                     end).
Proof.
  cbn [remove]. f_equal. generalize (Z.to_nat x).
  induction cs as [|c cs IH]; intros [|i]; cbn; auto.
  rewrite IH. destruct (cs !! i); reflexivity.
Qed.

Lemma node_empty_dec (n : node) : {n = Empty} + {n <> Empty}.
Proof. destruct n; [left; reflexivity | right; discriminate ..]. Qed.

Lemma live_from_elem cs : forall i k c,
  (k, c) ∈ live_from i cs
  <-> (i <= k)%nat /\ cs !! (k - i)%nat = Some c /\ c <> Empty.
Proof.
  induction cs as [|c0 cs IH]; intros i k c; cbn [live_from].
  - rewrite elem_of_nil, lookup_nil. split; [tauto|]. intros (_ & H & _). discriminate.
  - assert (Hrec : (k, c) ∈ live_from (S i) cs
                   <-> (i < k)%nat /\ (c0 :: cs) !! (k - i)%nat = Some c /\ c <> Empty).
    { rewrite IH. split.
      - intros (Hle & Hl & Hne). split; [lia|]. split; [|exact Hne].
        replace (k - i)%nat with (S (k - S i)) by lia. exact Hl.
      - intros (Hlt & Hl & Hne). split; [lia|]. split; [|exact Hne].
        replace (k - i)%nat with (S (k - S i)) in Hl by lia. exact Hl. }
    assert (Hhead : (i <= k)%nat /\ (c0 :: cs) !! (k - i)%nat = Some c /\ c <> Empty
                    <-> (k = i /\ c = c0 /\ c0 <> Empty)
                        \/ ((i < k)%nat /\ (c0 :: cs) !! (k - i)%nat = Some c /\ c <> Empty)).
    { split.
      - intros (Hle & Hl & Hne). destruct (decide (k = i)) as [->|Hki].
        + left. rewrite Nat.sub_diag in Hl. cbn in Hl. injection Hl as <-. auto.
        + right. split; [lia|auto].
      - intros [(-> & -> & Hne)|(Hlt & Hl & Hne)].
        + rewrite Nat.sub_diag. auto.
        + split; [lia|auto]. }
    rewrite Hhead, <- Hrec.
    destruct (node_empty_dec c0) as [->|Hne0].
    + split; [auto|]. intros [(_ & _ & H)|H]; [contradiction|exact H].
    + assert (E : match c0 with
                  | Empty => live_from (S i) cs
                  | _ => (i, c0) :: live_from (S i) cs
                  end = (i, c0) :: live_from (S i) cs) by (destruct c0; congruence).
      rewrite E, elem_of_cons. split.
      * intros [H|H]; [injection H as -> ->; left; auto | right; exact H].
      * intros [(-> & -> & _)|H]; [left; reflexivity | right; exact H].
Qed.

Lemma live_from_lt cs : forall i k c, (k, c) ∈ live_from i cs -> (i <= k)%nat.
Proof. intros i k c H. apply live_from_elem in H. apply H. Qed.

(** The three shapes of a Branch after a change. *)
Lemma live_from_cases cs :
  (live_from 0 cs = [] /\ forall k c, cs !! k = Some c -> c = Empty) \/
  (exists i c, live_from 0 cs = [(i, c)] /\ cs !! i = Some c /\ c <> Empty /\
     forall k c', k <> i -> cs !! k = Some c' -> c' = Empty) \/
  (exists a b rest i j, live_from 0 cs = a :: b :: rest /\ i <> j /\
     live_child cs i /\ live_child cs j).
Proof.
  assert (Hall : forall k c, (k, c) ∈ live_from 0 cs <-> cs !! k = Some c /\ c <> Empty).
  { intros k c. rewrite live_from_elem, Nat.sub_0_r. split; [tauto|].
    intros H. split; [lia|exact H]. }
  destruct (live_from 0 cs) as [|[i c] [|[j c'] rest]] eqn:E.
  - left. split; [reflexivity|]. intros k c Hl.
    destruct (node_empty_dec c) as [|Hne]; [assumption|].
    exfalso. eapply elem_of_nil, Hall. eauto.
  - right. left. exists i, c.
    destruct (proj1 (Hall i c) (list_elem_of_here _ _)) as [Hl Hne].
    repeat split; try assumption.
    intros k c' Hk Hl'. destruct (node_empty_dec c') as [|Hne']; [assumption|].
    exfalso. assert (Hin : (k, c') ∈ [(i, c)]) by (apply Hall; auto).
    apply list_elem_of_singleton in Hin. congruence.
  - right. right. exists (i, c), (j, c'), rest, i, j.
    split; [reflexivity|].
    destruct (proj1 (Hall i c) (list_elem_of_here _ _)) as [Hl Hne].
    destruct (proj1 (Hall j c') (list_elem_of_further _ _ _ (list_elem_of_here _ _)))
      as [Hl' Hne'].
    split; [|split; [exists c; auto | exists c'; auto]].
    (* the numbers ascend *)
    clear Hall Hl Hne Hl' Hne'. revert E. generalize 0%nat.
    induction cs as [|c0 cs IH]; intros n E; cbn [live_from] in E; [discriminate|].
    destruct (node_empty_dec c0) as [->|Hne0]; [eapply IH, E|].
    assert (E' : (n, c0) :: live_from (S n) cs = (i, c) :: (j, c') :: rest)
      by (destruct c0; congruence).
    injection E' as -> -> E'.
    assert (Hin : (j, c') ∈ live_from (S i) cs) by (rewrite E'; apply list_elem_of_here).
    apply live_from_lt in Hin. lia.
Qed.

Lemma descend_prepend f n key :
  descend (prepend f n) key
  = if is_prefix f key then descend n (drop (length f) key) else Absent.
Proof.
  destruct n as [|ks v|f' c|cs|h|v]; cbn [prepend]; try apply descend_extend.
  - destruct (is_prefix f key); reflexivity.
  - apply descend_leaf_app.
  - rewrite descend_extension_app, descend_extend. reflexivity.
Qed.

Lemma keyed_prepend d f n :
  (length f <= d)%nat -> nibbles f -> keyed (d - length f) n -> keyed d (prepend f n).
Proof.
  intros Hl Hn Hk. inversion Hk as [|? ks v Hlk Hnk|? f' c Hlf Hnf Hc|d' cs Hl16 Hcs Hd]; subst;
    cbn [prepend].
  - constructor.
  - constructor; [rewrite length_app; lia | apply nibbles_app; auto].
  - constructor; [rewrite length_app; lia | apply nibbles_app; auto |].
    rewrite length_app.
    replace (d - (length f + length f'))%nat with (d - length f - length f')%nat by lia.
    exact Hc.
  - apply keyed_extend; [exact Hl|exact Hn|]. rewrite <- Hd. constructor; assumption.
Qed.

Lemma minimal_prepend f n : f <> [] -> minimal n -> minimal (prepend f n).
Proof.
  intros Hf Hm. inversion Hm as [|ks v|f' cs Hf' Hb|cs i j Hij Hi Hj Hall]; subst;
    cbn [prepend]; try constructor; try assumption.
  - destruct f; [contradiction|discriminate].
  - destruct f; [contradiction|]. cbn [extend]. constructor; [discriminate|exact Hm].
Qed.

Lemma is_prefix_single i x r : 0 <= x ->
  is_prefix [Z.of_nat i] (x :: r) = bool_decide (Z.to_nat x = i).
Proof.
  intros Hx. unfold is_prefix. cbn. apply bool_decide_ext. split.
  - intros H. injection H as ->. lia.
  - intros <-. rewrite Z2Nat.id by lia. reflexivity.
Qed.

Lemma collapse_branch_spec d cs :
  length cs = 16%nat -> Forall (keyed d) cs -> Forall minimal cs ->
  keyed (S d) (collapse_branch cs) /\
  minimal (collapse_branch cs) /\
  forall x r, 0 <= x ->
    descend (collapse_branch cs) (x :: r) = descend (Branch cs) (x :: r).
Proof.
  intros Hl Hk Hm. unfold collapse_branch. rewrite Forall_forall in Hk, Hm.
  destruct (live_from_cases cs)
    as [[E Hall]|[(i & c & E & Hic & Hne & Hall)|(a & b & rest & i & j & E & Hij & Hi & Hj)]];
    rewrite E.
  - split; [constructor|]. split; [constructor|]. intros x r Hx. rewrite descend_branch.
    destruct (cs !! Z.to_nat x) as [c|] eqn:Ec; [|reflexivity].
    rewrite (Hall _ _ Ec). reflexivity.
  - pose proof (list_elem_of_lookup_2 _ _ _ Hic) as Hin.
    pose proof (lookup_lt_Some _ _ _ Hic) as Hlt.
    split; [|split].
    + apply keyed_prepend; [cbn; lia|repeat constructor; lia|].
      replace (S d - length [Z.of_nat i])%nat with d by (cbn; lia). apply Hk, Hin.
    + apply minimal_prepend; [discriminate|apply Hm, Hin].
    + intros x r Hx. rewrite descend_prepend, descend_branch, is_prefix_single by exact Hx.
      cbn [length drop]. destruct (decide (Z.to_nat x = i)) as [<-|Hxi].
      * rewrite bool_decide_eq_true_2 by reflexivity. rewrite Hic. reflexivity.
      * rewrite bool_decide_eq_false_2 by exact Hxi.
        destruct (cs !! Z.to_nat x) as [c'|] eqn:Ec; [|reflexivity].
        rewrite (Hall _ _ Hxi Ec). reflexivity.
  - destruct a as [ia ca]. split; [|split].
    + constructor; [exact Hl | apply Forall_forall; exact Hk].
    + apply (minimal_branch _ i j); auto. apply Forall_forall. exact Hm.
    + reflexivity.
Qed.

(** [remove] keeps the canonical-minimal form, unbinds the key and leaves
    what the other keys reach as it was. *)
Lemma remove_spec n : forall d key,
  keyed d n -> minimal n -> length key = d -> nibbles key ->
  keyed d (remove n key) /\
  minimal (remove n key) /\
  forall key', length key' = d -> nibbles key' ->
    descend (remove n key) key'
    = if bool_decide (key' = key) then Absent else descend n key'.
Proof.
  induction n as [|ks v0|f c IH|cs IH|h|v0] using node_induction;
    intros d key Hk Hm Hlen Hnib.
  - split; [constructor|]. split; [constructor|]. intros key' _ _.
    cbn. destruct (bool_decide _); reflexivity.
  - cbn [remove]. destruct (decide (ks = key)) as [->|Hne].
    + rewrite bool_decide_eq_true_2 by reflexivity.
      split; [constructor|]. split; [constructor|]. intros key' _ _. cbn [descend].
      rewrite (bool_decide_sym key key'). destruct (bool_decide (key' = key)); reflexivity.
    + rewrite bool_decide_eq_false_2 by exact Hne.
      split; [exact Hk|]. split; [exact Hm|]. intros key' _ _.
      destruct (decide (key' = key)) as [->|Hne'].
      * rewrite bool_decide_eq_true_2 by reflexivity. cbn [descend].
        rewrite bool_decide_eq_false_2 by exact Hne. reflexivity.
      * rewrite bool_decide_eq_false_2 by exact Hne'. reflexivity.
  - inversion Hk as [| |? ? ? Hl Hn Hc|]; subst. cbn [remove].
    destruct (is_prefix f key) eqn:Ep.
    + apply is_prefix_true in Ep.
      set (rk := drop (length f) key) in *. clearbody rk.
      rewrite Ep in Hnib. apply nibbles_app in Hnib. destruct Hnib as [_ Hrk].
      assert (Hl2 : length key = (length f + length rk)%nat)
        by (rewrite Ep at 1; rewrite length_app; reflexivity).
      assert (Hmc : minimal c /\ f <> []) by (inversion Hm; subst; auto).
      destruct Hmc as [Hmc Hf].
      destruct (IH (length key - length f)%nat rk Hc Hmc ltac:(lia) Hrk) as (IHk & IHm & IHd).
      split; [apply keyed_prepend; assumption|]. split; [apply minimal_prepend; assumption|].
      intros key' Hlen' Hnib'. rewrite descend_prepend. cbn [descend].
      destruct (is_prefix f key') eqn:Ep'.
      * apply is_prefix_true in Ep'. revert Ep' Hlen' Hnib'.
        generalize (drop (length f) key') as r'. intros r' -> Hlen' Hnib'.
        rewrite length_app in Hlen'. apply nibbles_app in Hnib'.
        rewrite IHd; [|lia|apply Hnib'].
        apply (f_equal (fun b : bool => if b then Absent else _)).
        apply bool_decide_ext. split; intros H.
        -- rewrite H. symmetry. exact Ep.
        -- rewrite Ep in H. apply app_inv_head in H. exact H.
      * rewrite bool_decide_eq_false_2; [reflexivity|].
        intros ->. rewrite Ep, is_prefix_app in Ep'. discriminate.
    + split; [exact Hk|]. split; [exact Hm|]. intros key' _ _.
      destruct (decide (key' = key)) as [->|Hne'].
      * rewrite bool_decide_eq_true_2 by reflexivity. cbn [descend]. rewrite Ep. reflexivity.
      * rewrite bool_decide_eq_false_2 by exact Hne'. reflexivity.
  - subst d. inversion Hk as [| | |d' ? Hl Hcs Hd]; subst.
    destruct key as [|x rk]; [discriminate|].
    apply nibbles_cons in Hnib. destruct Hnib as [Hx Hrk].
    rewrite remove_branch.
    destruct (cs !! Z.to_nat x) as [c|] eqn:E.
    2:{ apply lookup_ge_None in E. lia. }
    rewrite Forall_forall in IH. rewrite Forall_forall in Hcs.
    pose proof (list_elem_of_lookup_2 _ _ _ E) as Hin.
    cbn in Hd. injection Hd as Hd. subst d'.
    assert (Hmall : Forall minimal cs) by (inversion Hm; subst; assumption).
    rewrite Forall_forall in Hmall.
    destruct (IH c Hin _ rk (Hcs c Hin) (Hmall c Hin) eq_refl Hrk) as (IHk & IHm & IHd).
    destruct (collapse_branch_spec (length rk) (<[Z.to_nat x := remove c rk]> cs))
      as (Ck & Cm & Cd).
    { rewrite length_insert. exact Hl. }
    { apply Forall_insert; [apply Forall_forall; exact Hcs|exact IHk]. }
    { apply Forall_insert; [apply Forall_forall; exact Hmall|exact IHm]. }
    split; [exact Ck|]. split; [exact Cm|].
    intros key' Hlen' Hnib'. destruct key' as [|x' rk']; [discriminate|].
    apply nibbles_cons in Hnib'. destruct Hnib' as [Hx' Hrk'].
    cbn in Hlen'. injection Hlen' as Hlen'.
    rewrite Cd by lia. rewrite !descend_branch.
    destruct (decide (x' = x)) as [->|Hne].
    + rewrite list_lookup_insert_eq by (apply lookup_lt_Some in E; exact E).
      rewrite E, IHd by assumption.
      apply (f_equal (fun b : bool => if b then Absent else _)).
      apply bool_decide_ext. split; intros H; [rewrite H; reflexivity|].
      injection H as H. exact H.
    + rewrite list_lookup_insert_ne by lia.
      rewrite bool_decide_eq_false_2; [reflexivity|]. intros H. injection H as H _. congruence.
  - inversion Hk.
  - inversion Hk.
Qed.

(** ** The canonical-minimal form is determined by the bindings *)

Lemma finds_inhabited n : forall d,
  keyed d n -> minimal n -> n <> Empty -> exists key, finds n d key.
Proof.
  induction n as [|ks v|f c IH|cs IH|h|v] using node_induction; intros d Hk Hm Hne.
  - contradiction.
  - inversion Hk; subst. exists ks. repeat split; try assumption.
    exists v. cbn. rewrite bool_decide_eq_true_2 by reflexivity. reflexivity.
  - inversion Hk as [| |? ? ? Hl Hn Hc|]; subst. inversion Hm; subst.
    destruct (IH _ Hc ltac:(assumption) ltac:(discriminate)) as (key & Hlen & Hnib & v & Hv).
    exists (f ++ key). split; [rewrite length_app; lia|].
    split; [apply nibbles_app; auto|]. exists v. cbn [descend].
    rewrite is_prefix_app, drop_app_length. exact Hv.
  - inversion Hk as [| | |d' ? Hl Hcs Hd]; subst.
    inversion Hm as [| | |? i j Hij (ci & Hi & Hnei) Hj Hall]; subst.
    rewrite Forall_forall in IH, Hcs, Hall.
    pose proof (list_elem_of_lookup_2 _ _ _ Hi) as Hin.
    pose proof (lookup_lt_Some _ _ _ Hi) as Hlt.
    destruct (IH ci Hin d' (Hcs _ Hin) (Hall _ Hin) Hnei) as (key & Hlen & Hnib & v & Hv).
    exists (Z.of_nat i :: key). split; [cbn; lia|].
    split; [apply nibbles_cons; split; [lia|exact Hnib]|].
    exists v. rewrite descend_branch, Nat2Z.id, Hi. exact Hv.
  - inversion Hk.
  - inversion Hk.
Qed.

(** A canonical Branch binds two keys that differ in their first nibble. *)
Lemma finds_branch_two d cs :
  keyed (S d) (Branch cs) -> minimal (Branch cs) ->
  exists x1 r1 x2 r2, x1 <> x2 /\
    finds (Branch cs) (S d) (x1 :: r1) /\ finds (Branch cs) (S d) (x2 :: r2).
Proof.
  intros Hk Hm. inversion Hk as [| | |d' ? Hl Hcs Hd]; subst.
  inversion Hm as [| | |? i j Hij (ci & Hi & Hnei) (cj & Hj & Hnej) Hall]; subst.
  rewrite Forall_forall in Hcs, Hall.
  assert (Hone : forall k ck, cs !! k = Some ck -> ck <> Empty ->
            exists r, finds (Branch cs) (S d) (Z.of_nat k :: r)).
  { intros k ck Hkc Hnek.
    pose proof (list_elem_of_lookup_2 _ _ _ Hkc) as Hin.
    pose proof (lookup_lt_Some _ _ _ Hkc) as Hlt.
    destruct (finds_inhabited ck d (Hcs _ Hin) (Hall _ Hin) Hnek)
      as (key & Hlen & Hnib & v & Hv).
    exists key. split; [cbn; lia|]. split; [apply nibbles_cons; split; [lia|exact Hnib]|].
    exists v. rewrite descend_branch, Nat2Z.id, Hkc. exact Hv. }
  destruct (Hone i ci Hi Hnei) as (r1 & H1). destruct (Hone j cj Hj Hnej) as (r2 & H2).
  exists (Z.of_nat i), r1, (Z.of_nat j), r2. split; [lia|auto].
Qed.

Lemma finds_leaf ks v d key : finds (Leaf ks v) d key -> key = ks.
Proof.
  intros (_ & _ & v' & Hv). cbn in Hv.
  destruct (decide (ks = key)) as [->|Hne]; [reflexivity|].
  rewrite bool_decide_eq_false_2 in Hv by exact Hne. discriminate.
Qed.

Lemma finds_extension f c d key :
  finds (Extension f c) d key ->
  exists r, key = f ++ r /\ finds c (d - length f) r.
Proof.
  intros (Hlen & Hnib & v & Hv). cbn [descend] in Hv.
  destruct (is_prefix f key) eqn:Ep; [|discriminate].
  apply is_prefix_true in Ep. exists (drop (length f) key). split; [exact Ep|].
  rewrite Ep in Hlen, Hnib. rewrite length_app in Hlen. apply nibbles_app in Hnib.
  split; [lia|]. split; [apply Hnib|]. eauto.
Qed.

Lemma finds_extension_intro f c d r :
  nibbles f -> finds c d r -> finds (Extension f c) (length f + d) (f ++ r).
Proof.
  intros Hf (Hlen & Hnib & v & Hv). split; [rewrite length_app; lia|].
  split; [apply nibbles_app; auto|]. exists v. cbn [descend].
  rewrite is_prefix_app, drop_app_length. exact Hv.
Qed.

(** A canonical Extension or Branch binds two different keys. *)
Lemma finds_two n d :
  keyed d n -> minimal n -> (forall ks v, n <> Leaf ks v) -> n <> Empty ->
  exists k1 k2, k1 <> k2 /\ finds n d k1 /\ finds n d k2.
Proof.
  intros Hk Hm Hnl Hne. inversion Hm as [|ks v|f cs Hf Hb|cs i j Hij Hi Hj Hall]; subst.
  - contradiction.
  - exfalso. eapply Hnl. reflexivity.
  - inversion Hk as [| |? ? ? Hl Hn Hc|]; subst.
    inversion Hc as [| | |d' ? Hl16 Hcs Hd]; subst.
    assert (Hc' : keyed (S d') (Branch cs)) by (rewrite Hd; exact Hc).
    destruct (finds_branch_two d' cs Hc' Hb) as (x1 & r1 & x2 & r2 & Hx & H1 & H2).
    exists (f ++ x1 :: r1), (f ++ x2 :: r2). split.
    { intros E. apply app_inv_head in E. congruence. }
    replace d with (length f + S d')%nat by lia.
    split; apply finds_extension_intro; assumption.
  - inversion Hk as [| | |d' ? Hl Hcs Hd]; subst.
    destruct (finds_branch_two d' cs Hk Hm) as (x1 & r1 & x2 & r2 & Hx & H1 & H2).
    exists (x1 :: r1), (x2 :: r2). split; [congruence|auto].
Qed.

Lemma finds_agree n1 n2 d key :
  (forall key, length key = d -> nibbles key -> descend n1 key = descend n2 key) ->
  finds n1 d key -> finds n2 d key.
Proof.
  intros Hd (Hlen & Hnib & v & Hv). repeat split; try assumption.
  exists v. rewrite <- Hd by assumption. exact Hv.
Qed.

Lemma prefix_of_diverging (p a : list Z) (x : Z) (r : list Z) (y : Z) (r' : list Z) :
  take (length p) (a ++ x :: r) = p -> take (length p) (a ++ y :: r') = p -> x <> y ->
  (length p <= length a)%nat /\ take (length p) a = p.
Proof.
  intros H1 H2 Hxy.
  destruct (Nat.le_gt_cases (length p) (length a)) as [Hle|Hgt].
  - split; [exact Hle|]. rewrite take_app_le in H1 by exact Hle. exact H1.
  - exfalso. apply Hxy.
    assert (E1 : p !! length a = Some x).
    { rewrite <- H1. rewrite lookup_take_lt by lia.
      rewrite lookup_app_r by lia. rewrite Nat.sub_diag. reflexivity. }
    assert (E2 : p !! length a = Some y).
    { rewrite <- H2. rewrite lookup_take_lt by lia.
      rewrite lookup_app_r by lia. rewrite Nat.sub_diag. reflexivity. }
    congruence.
Qed.

Lemma finds_extension_head h f c d x r : finds (Extension (h :: f) c) d (x :: r) -> x = h.
Proof.
  intros H. apply finds_extension in H. destruct H as (r' & E & _).
  cbn in E. injection E as -> _. reflexivity.
Qed.

Lemma not_finds_empty d key : ~ finds Empty d key.
Proof. intros (_ & _ & v & Hv). discriminate. Qed.

Lemma canonical_unique n1 : forall d n2,
  keyed d n1 -> minimal n1 -> keyed d n2 -> minimal n2 ->
  (forall key, length key = d -> nibbles key -> descend n1 key = descend n2 key) ->
  n1 = n2.
Proof.
  induction n1 as [|ks v|f1 c1 IH|cs1 IH|h|v] using node_induction;
    intros d n2 Hk1 Hm1 Hk2 Hm2 Hd.
  - destruct (node_empty_dec n2) as [->|Hne]; [reflexivity|exfalso].
    destruct (finds_inhabited n2 d Hk2 Hm2 Hne) as (key & Hf).
    apply (not_finds_empty d key). eapply finds_agree; [|exact Hf].
    intros k Hl Hn. symmetry. apply Hd; assumption.
  - assert (Hf1 : finds (Leaf ks v) d ks).
    { inversion Hk1; subst. repeat split; try assumption. exists v. cbn.
      rewrite bool_decide_eq_true_2 by reflexivity. reflexivity. }
    pose proof (finds_agree _ _ _ _ Hd Hf1) as Hf2.
    destruct (node_empty_dec n2) as [->|Hne]; [exfalso; exact (not_finds_empty _ _ Hf2)|].
    destruct n2 as [|ks' v'|f2 c2|cs2|h|v']; try contradiction; try (inversion Hk2; fail).
    + apply finds_leaf in Hf2. subst ks'.
      destruct Hf1 as (Hl & Hn & _). specialize (Hd ks Hl Hn). cbn in Hd.
      rewrite !bool_decide_eq_true_2 in Hd by reflexivity. congruence.
    + exfalso. destruct (finds_two _ d Hk2 Hm2) as (k1 & k2 & Hne' & H1 & H2);
        [discriminate|discriminate|].
      assert (Hsym : forall key, length key = d -> nibbles key ->
                descend (Extension f2 c2) key = descend (Leaf ks v) key)
        by (intros; symmetry; apply Hd; assumption).
      apply (finds_agree _ _ _ _ Hsym), finds_leaf in H1, H2. congruence.
    + exfalso. destruct (finds_two _ d Hk2 Hm2) as (k1 & k2 & Hne' & H1 & H2);
        [discriminate|discriminate|].
      assert (Hsym : forall key, length key = d -> nibbles key ->
                descend (Branch cs2) key = descend (Leaf ks v) key)
        by (intros; symmetry; apply Hd; assumption).
      apply (finds_agree _ _ _ _ Hsym), finds_leaf in H1, H2. congruence.
  - assert (Hsym : forall key, length key = d -> nibbles key ->
              descend n2 key = descend (Extension f1 c1) key)
      by (intros; symmetry; apply Hd; assumption).
    destruct (finds_two _ d Hk1 Hm1) as (k1 & k2 & Hne' & H1 & H2);
      [discriminate|discriminate|].
    destruct n2 as [|ks' v'|f2 c2|cs2|h|v']; try (inversion Hk2; fail).
    + exfalso. apply (finds_agree _ _ _ _ Hd) in H1. exact (not_finds_empty _ _ H1).
    + exfalso. apply (finds_agree _ _ _ _ Hd), finds_leaf in H1, H2. congruence.
    + clear k1 k2 Hne' H1 H2.
      inversion Hk1 as [| |? ? ? Hl1 Hn1 Hc1|]; subst.
      inversion Hk2 as [| |? ? ? Hl2 Hn2 Hc2|]; subst.
      inversion Hm1 as [| |? cs1 Hf1 Hb1|]; subst.
      inversion Hm2 as [| |? cs2 Hf2 Hb2|]; subst.
      assert (Hpre : forall fa csa fb cb,
                nibbles fa -> (length fa <= d)%nat ->
                keyed (d - length fa) (Branch csa) -> minimal (Branch csa) ->
                (forall key, length key = d -> nibbles key ->
                   descend (Extension fa (Branch csa)) key = descend (Extension fb cb) key) ->
                (length fb <= length fa)%nat /\ take (length fb) fa = fb).
      { intros fa csa fb cb Hna Hla Hka Hma Hag.
        inversion Hka as [| | |d' ? Hl16 Hcs Hd']; subst.
        assert (Hka' : keyed (S d') (Branch csa)) by (rewrite Hd'; exact Hka).
        destruct (finds_branch_two d' csa Hka' Hma) as (x1 & r1 & x2 & r2 & Hx & H1 & H2).
        apply (finds_extension_intro fa) in H1, H2; try exact Hna.
        replace (length fa + S d')%nat with d in H1, H2 by lia.
        apply (finds_agree _ _ _ _ Hag), finds_extension in H1, H2.
        destruct H1 as (ra & E1 & _), H2 as (rb & E2 & _).
        apply (prefix_of_diverging fb fa x1 r1 x2 r2); try exact Hx.
        - rewrite E1. apply take_app_length.
        - rewrite E2. apply take_app_length. }
      destruct (Hpre f1 cs1 f2 (Branch cs2) Hn1 Hl1 Hc1 Hb1 Hd) as [Hle1 Ht1].
      destruct (Hpre f2 cs2 f1 (Branch cs1) Hn2 Hl2 Hc2 Hb2 Hsym) as [Hle2 Ht2].
      assert (f1 = f2) as <-.
      { rewrite <- Ht1. replace (length f2) with (length f1) by lia.
        symmetry. apply firstn_all. }
      f_equal. apply (IH (d - length f1)%nat); try assumption.
      intros key Hlen Hnib.
      specialize (Hd (f1 ++ key)). cbn [descend] in Hd.
      rewrite is_prefix_app, drop_app_length in Hd. apply Hd.
      * rewrite length_app. lia.
      * apply nibbles_app. auto.
    + exfalso. inversion Hm1 as [| |? cs1 Hf1 Hb1|]; subst.
      inversion Hk2 as [| | |d' ? Hl16 Hcs Hd']; subst.
      destruct (finds_branch_two d' cs2 Hk2 Hm2) as (x1 & r1 & x2 & r2 & Hx & Hx1 & Hx2).
      apply (finds_agree _ _ _ _ Hsym) in Hx1, Hx2.
      destruct f1 as [|h1 f1]; [contradiction|].
      apply finds_extension_head in Hx1, Hx2. congruence.
  - assert (Hsym : forall key, length key = d -> nibbles key ->
              descend n2 key = descend (Branch cs1) key)
      by (intros; symmetry; apply Hd; assumption).
    destruct (finds_two _ d Hk1 Hm1) as (k1 & k2 & Hne' & H1 & H2);
      [discriminate|discriminate|].
    destruct n2 as [|ks' v'|f2 c2|cs2|h|v']; try (inversion Hk2; fail).
    + exfalso. apply (finds_agree _ _ _ _ Hd) in H1. exact (not_finds_empty _ _ H1).
    + exfalso. apply (finds_agree _ _ _ _ Hd), finds_leaf in H1, H2. congruence.
    + exfalso. clear k1 k2 Hne' H1 H2. inversion Hm2 as [| |? cs2 Hf2 Hb2|]; subst.
      inversion Hk1 as [| | |d' ? Hl16 Hcs Hd']; subst.
      destruct (finds_branch_two d' cs1 Hk1 Hm1) as (x1 & r1 & x2 & r2 & Hx & Hx1 & Hx2).
      apply (finds_agree _ _ _ _ Hd) in Hx1, Hx2.
      destruct f2 as [|h2 f2]; [contradiction|].
      apply finds_extension_head in Hx1, Hx2. congruence.
    + clear k1 k2 Hne' H1 H2. f_equal.
      inversion Hk1 as [| | |d1 ? Hl1 Hcs1 Hd1]; subst.
      inversion Hk2 as [| | |d2 ? Hl2 Hcs2 Hd2]; subst.
      assert (Hall1 : Forall minimal cs1) by (inversion Hm1; subst; assumption).
      assert (Hall2 : Forall minimal cs2) by (inversion Hm2; subst; assumption).
      rewrite Forall_forall in IH, Hcs1, Hcs2, Hall1, Hall2.
      apply list_eq. intros k.
      destruct (cs1 !! k) as [a|] eqn:Ea.
      * pose proof (lookup_lt_Some _ _ _ Ea) as Hlt.
        destruct (cs2 !! k) as [b|] eqn:Eb.
        2:{ apply lookup_ge_None in Eb. lia. }
        f_equal.
        pose proof (list_elem_of_lookup_2 _ _ _ Ea) as Hina.
        pose proof (list_elem_of_lookup_2 _ _ _ Eb) as Hinb.
        apply (IH a Hina d1 b); auto.
        intros key Hlen Hnib. specialize (Hd (Z.of_nat k :: key)).
        rewrite !descend_branch, Nat2Z.id, Ea, Eb in Hd. apply Hd.
        -- cbn. lia.
        -- apply nibbles_cons. split; [lia|exact Hnib].
      * apply lookup_ge_None in Ea. symmetry. apply lookup_ge_None. lia.
  - inversion Hk1.
  - inversion Hk1.
Qed.

(** ** Unwinding *)

Lemma apply_op_bucket ts t op : trie_bucket (apply_op ts t op) = trie_bucket t.
Proof. unfold apply_op. destruct op.2; reflexivity. Qed.

Lemma apply_ops_bucket ts ops : forall t,
  trie_bucket (foldl (apply_op ts) t ops) = trie_bucket t.
Proof.
  induction ops as [|op ops IH]; intros t; cbn [foldl]; [reflexivity|].
  rewrite IH. apply apply_op_bucket.
Qed.

Lemma apply_op_delete ts t k :
  trie_root (apply_op ts t (k, [])) = remove (trie_root t) (key_nibbles k).
Proof. reflexivity. Qed.

Lemma apply_op_update ts t k b v :
  trie_root (apply_op ts t (k, b :: v)) = insert (trie_root t) (key_nibbles k) (b :: v).
Proof. reflexivity. Qed.

Lemma last_write_snoc ops op key' :
  last_write (ops ++ [op]) key'
  = if bool_decide (key_nibbles op.1 = key') then Some op.2 else last_write ops key'.
Proof. unfold last_write. rewrite foldl_app. reflexivity. Qed.

Lemma apply_ops_snoc ts t ops op :
  foldl (apply_op ts) t (ops ++ [op]) = apply_op ts (foldl (apply_op ts) t ops) op.
Proof. rewrite foldl_app. reflexivity. Qed.

(** The trie after a list of mutations: still canonical-minimal, and a
    lookup finds the last write of the key, or what was there before. *)
Lemma apply_ops_spec len ts t ops :
  keyed (2 * len) (trie_root t) -> minimal (trie_root t) ->
  Forall (fun op : bytes * bytes => length op.1 = len /\ octets op.1) ops ->
  keyed (2 * len) (trie_root (foldl (apply_op ts) t ops)) /\
  minimal (trie_root (foldl (apply_op ts) t ops)) /\
  forall key', length key' = (2 * len)%nat -> nibbles key' ->
    descend (trie_root (foldl (apply_op ts) t ops)) key'
    = match last_write ops key' with
      | Some v => found_of v
      | None => descend (trie_root t) key'
      end.
Proof.
  intros Hk Hm. induction ops as [|op ops IH] using rev_ind; intros Hall.
  - split; [exact Hk|]. split; [exact Hm|]. reflexivity.
  - apply Forall_app in Hall. destruct Hall as [Hall Hop].
    inversion Hop as [|? ? [Hlen Hoct] _]; subst.
    destruct (IH Hall) as (IHk & IHm & IHd).
    rewrite apply_ops_snoc.
    assert (Hkl : length (key_nibbles op.1) = (2 * length op.1)%nat)
      by apply key_nibbles_length.
    pose proof (key_nibbles_nibbles _ Hoct) as Hkn.
    destruct op as [k v]. cbn [fst snd] in *.
    destruct v as [|b v].
    + rewrite apply_op_delete.
      destruct (remove_spec _ _ (key_nibbles k) IHk IHm Hkl Hkn) as (Rk & Rm & Rd).
      split; [exact Rk|]. split; [exact Rm|].
      intros key' Hl' Hn'. rewrite (Rd key' Hl' Hn'), last_write_snoc. cbn [fst snd].
      rewrite (bool_decide_sym (key_nibbles k) key').
      destruct (bool_decide (key' = key_nibbles k)); [reflexivity|]. apply IHd; assumption.
    + rewrite apply_op_update.
      destruct (insert_spec _ _ (key_nibbles k) (b :: v) IHk Hkl Hkn) as (Ik & Id).
      split; [exact Ik|]. split; [eapply insert_minimal; eassumption|].
      intros key' Hl' Hn'. rewrite (Id key' Hl' Hn'), last_write_snoc. cbn [fst snd].
      rewrite (bool_decide_sym (key_nibbles k) key').
      destruct (bool_decide (key' = key_nibbles k)); [reflexivity|]. apply IHd; assumption.
Qed.

(** The trie does not keep the timestamp of a mutation. *)
Lemma apply_ops_timestamp ts ts' ops t :
  foldl (apply_op ts) t ops = foldl (apply_op ts') t ops.
Proof. reflexivity. Qed.

Lemma apply_blocks_concat blocks : forall t blockNr,
  apply_blocks t blockNr blocks = foldl (apply_op 0) t (concat blocks).
Proof.
  induction blocks as [|ops blocks IH]; intros t blockNr; cbn [apply_blocks concat].
  - reflexivity.
  - rewrite IH, foldl_app. reflexivity.
Qed.

Lemma trie_at_ops bucket blocks n :
  trie_at bucket blocks n = foldl (apply_op 0) (empty_trie bucket) (ops_until blocks n).
Proof. apply apply_blocks_concat. Qed.

Lemma last_write_app a b key' :
  last_write (a ++ b) key'
  = match last_write b key' with Some v => Some v | None => last_write a key' end.
Proof.
  induction b as [|op b IH] using rev_ind.
  - rewrite app_nil_r. reflexivity.
  - rewrite app_assoc, !last_write_snoc, IH.
    destruct (bool_decide (key_nibbles op.1 = key')); reflexivity.
Qed.

Lemma last_write_None ops key' :
  last_write ops key' = None <-> forall op, op ∈ ops -> key_nibbles op.1 <> key'.
Proof.
  induction ops as [|op ops IH] using rev_ind.
  - split; [|reflexivity]. intros _ op Hin. inversion Hin.
  - rewrite last_write_snoc. destruct (decide (key_nibbles op.1 = key')) as [E|NE].
    + rewrite bool_decide_eq_true_2 by exact E. split; [discriminate|].
      intros H. exfalso. apply (H op); [|exact E].
      apply elem_of_app. right. apply list_elem_of_here.
    + rewrite bool_decide_eq_false_2 by exact NE. rewrite IH. split.
      * intros H op' Hin. apply elem_of_app in Hin. destruct Hin as [Hin|Hin]; [auto|].
        apply list_elem_of_singleton in Hin. subst. exact NE.
      * intros H op' Hin. apply H, elem_of_app. left. exact Hin.
Qed.

Lemma last_write_Some ops key' v :
  last_write ops key' = Some v -> exists op, op ∈ ops /\ key_nibbles op.1 = key' /\ op.2 = v.
Proof.
  induction ops as [|op ops IH] using rev_ind; [discriminate|].
  rewrite last_write_snoc. destruct (decide (key_nibbles op.1 = key')) as [E|NE].
  - rewrite bool_decide_eq_true_2 by exact E. intros [= <-]. exists op.
    split; [|auto]. apply elem_of_app. right. apply list_elem_of_here.
  - rewrite bool_decide_eq_false_2 by exact NE. intros H.
    destruct (IH H) as (op' & Hin & Hk & Hv). exists op'. split; [|auto].
    apply elem_of_app. left. exact Hin.
Qed.

(** On the keys of the store the last write is the entry of [vals_of]. *)
Lemma last_write_vals_of ops k :
  Forall (fun op : bytes * bytes => octets op.1) ops -> octets k ->
  last_write ops (key_nibbles k) = vals_of ops !! k.
Proof.
  intros Hall Hk. induction ops as [|op ops IH] using rev_ind.
  - unfold vals_of. cbn. rewrite lookup_empty. reflexivity.
  - apply Forall_app in Hall. destruct Hall as [Hall Hop]. inversion Hop; subst.
    rewrite last_write_snoc, vals_of_snoc. destruct (decide (op.1 = k)) as [->|NE].
    + rewrite bool_decide_eq_true_2 by reflexivity. rewrite lookup_insert_eq. reflexivity.
    + rewrite bool_decide_eq_false_2.
      * rewrite lookup_insert_ne by exact NE. apply IH. exact Hall.
      * intros E. apply NE. apply key_nibbles_inj; assumption.
Qed.

(** The callback of [UnwindTo] never fails: the calls are so many
    mutations of the trie. *)
Lemma run_calls_unwind db dst ts calls : forall t,
  run_calls db dst (unwind_df ts) calls t
  = Done (foldl (apply_op ts) t
            (map (fun c : bytes * bytes => (c.2, value_as_of db dst c.1 c.2)) calls)).
Proof.
  induction calls as [|[b k] calls IH]; intros t; cbn [run_calls map foldl]; [reflexivity|].
  unfold unwind_df at 1. apply IH.
Qed.

Lemma value_as_of_ok db bucket blocks (n : nat) key :
  as_of_ok db bucket blocks ->
  value_as_of db (Z.of_nat n) (104 :: bucket) key = value_after (ops_until blocks n) key.
Proof.
  intros Hok. unfold value_as_of. cbn [tail].
  specialize (Hok key (Z.of_nat n + 1) ltac:(lia)).
  replace (Z.to_nat (Z.of_nat n + 1 - 1)) with n in Hok by lia.
  destruct (db_get_as_of db bucket (104 :: bucket) key (Z.of_nat n + 1)) as [value [e|]];
    congruence.
Qed.

Lemma ops_until_all (blocks : list (list (bytes * bytes))) :
  ops_until blocks (length blocks) = concat blocks.
Proof. unfold ops_until. rewrite firstn_all. reflexivity. Qed.

Lemma ops_until_split (blocks : list (list (bytes * bytes))) n :
  concat blocks = ops_until blocks n ++ concat (drop n blocks).
Proof. unfold ops_until. rewrite <- concat_app, take_drop. reflexivity. Qed.

Lemma found_of_default (x : option bytes) :
  found_of (default [] x) = match x with Some v => found_of v | None => Absent end.
Proof. destruct x; reflexivity. Qed.

Lemma Trie_eq (t1 t2 : Trie) :
  trie_root t1 = trie_root t2 -> trie_bucket t1 = trie_bucket t2 -> t1 = t2.
Proof. destruct t1, t2. cbn. intros -> ->. reflexivity. Qed.

Lemma elem_of_concat {A} (x : A) (ls : list (list A)) :
  x ∈ concat ls <-> exists l, x ∈ l /\ l ∈ ls.
Proof.
  induction ls as [|l ls IH]; cbn [concat].
  - split; [intros H; inversion H|]. intros (l & _ & H). inversion H.
  - rewrite elem_of_app, IH. split.
    + intros [H|(l' & H1 & H2)].
      * exists l. split; [exact H|apply list_elem_of_here].
      * exists l'. split; [exact H1|apply list_elem_of_further; exact H2].
    + intros (l' & H1 & H2). apply elem_of_cons in H2. destruct H2 as [->|H2]; [auto|].
      right. exists l'. auto.
Qed.

Lemma Forall_concat_all {A} (P : A -> Prop) (ls : list (list A)) :
  Forall (Forall P) ls -> Forall P (concat ls).
Proof.
  induction 1 as [|l ls Hl _ IH]; cbn [concat]; [constructor|].
  apply Forall_app. auto.
Qed.

Lemma changed_at_drop (blocks : list (list (bytes * bytes))) n op :
  op ∈ concat (drop n blocks) ->
  exists ts, Z.of_nat n < ts <= Z.of_nat (length blocks) /\ changed_at blocks ts op.1.
Proof.
  intros Hin. apply elem_of_concat in Hin. destruct Hin as (ops & Hop & Hops).
  apply list_elem_of_lookup in Hops. destruct Hops as (i & Hi).
  rewrite lookup_drop in Hi. pose proof (lookup_lt_Some _ _ _ Hi) as Hlt.
  exists (Z.of_nat (n + i) + 1). split; [lia|]. split; [lia|].
  exists ops. split.
  - replace (Z.to_nat (Z.of_nat (n + i) + 1 - 1)) with (n + i)%nat by lia. exact Hi.
  - apply list_elem_of_fmap. exists op. auto.
Qed.

Section UnwindFacts.

Variable SuffixBucket : bytes.

(** After the calls of [rewindData] the trie is the one of block [n]. *)
Lemma unwound_trie db bucket len (blocks : list (list (bytes * bytes))) (n : nat)
    (calls : list (bytes * bytes)) :
  Forall (Forall (fun op : bytes * bytes => length op.1 = len /\ octets op.1)) blocks ->
  index_records (db_bucket db SuffixBucket) bucket blocks ->
  as_of_ok db bucket blocks ->
  (forall b key,
     (b, key) ∈ calls
     <-> exists ts, Z.of_nat n < ts <= Z.of_nat (length blocks) /\
           recorded (db_bucket db SuffixBucket) ts b key) ->
  foldl (apply_op (Z.of_nat n)) (trie_at bucket blocks (length blocks))
    (map (fun c : bytes * bytes => (c.2, value_as_of db (Z.of_nat n) c.1 c.2)) calls)
  = trie_at bucket blocks n.
Proof.
  intros Hwf Hrec Hasof Hmem.
  set (wf := fun op : bytes * bytes => length op.1 = len /\ octets op.1) in *.
  assert (HwfM : Forall wf (concat blocks)) by (apply Forall_concat_all; exact Hwf).
  assert (HwfN : Forall wf (ops_until blocks n))
    by (apply Forall_concat_all, Forall_take; exact Hwf).
  assert (Hcalls : forall b key, (b, key) ∈ calls ->
            b = 104 :: bucket /\ length key = len /\ octets key).
  { intros b key Hin. apply Hmem in Hin. destruct Hin as (ts & _ & Hr).
    apply Hrec in Hr. destruct Hr as (-> & _ & ops & Hops & Hk). split; [reflexivity|].
    apply list_elem_of_fmap in Hk. destruct Hk as (op & -> & Hop).
    apply list_elem_of_lookup_2 in Hops.
    rewrite Forall_forall in Hwf. specialize (Hwf ops Hops).
    rewrite Forall_forall in Hwf. exact (Hwf op Hop). }
  set (cops := map (fun c : bytes * bytes => (c.2, value_as_of db (Z.of_nat n) c.1 c.2)) calls).
  assert (Hcops : forall cop, cop ∈ cops ->
            exists b, (b, cop.1) ∈ calls /\
              cop.2 = value_after (ops_until blocks n) cop.1).
  { intros cop Hin. apply list_elem_of_fmap in Hin. destruct Hin as ([b k] & -> & Hin).
    exists b. split; [exact Hin|]. cbn [fst snd].
    destruct (Hcalls b k Hin) as (-> & _). apply value_as_of_ok. exact Hasof. }
  assert (HwfC : Forall wf cops).
  { apply Forall_forall. intros cop Hin. destruct (Hcops cop Hin) as (b & Hb & _).
    destruct (Hcalls _ _ Hb) as (_ & Hl & Ho). split; assumption. }
  rewrite !trie_at_ops, ops_until_all.
  destruct (apply_ops_spec len 0 (empty_trie bucket) (concat blocks))
    as (KM & MM & DM); [constructor|constructor|exact HwfM|].
  destruct (apply_ops_spec len 0 (empty_trie bucket) (ops_until blocks n))
    as (KN & MN & DN); [constructor|constructor|exact HwfN|].
  destruct (apply_ops_spec len (Z.of_nat n) _ cops KM MM HwfC) as (KU & MU & DU).
  apply Trie_eq; [|rewrite !apply_ops_bucket; reflexivity].
  apply (canonical_unique _ (2 * len)); try assumption.
  intros key' Hl Hn. rewrite (DU key' Hl Hn), (DM key' Hl Hn), (DN key' Hl Hn).
  cbn [empty_trie trie_root descend].
  destruct (last_write cops key') as [v|] eqn:Ec.
  - apply last_write_Some in Ec. destruct Ec as (cop & Hin & <- & <-).
    destruct (Hcops cop Hin) as (b & Hb & ->).
    destruct (Hcalls _ _ Hb) as (_ & _ & Ho).
    rewrite last_write_vals_of; [|eapply Forall_impl; [exact HwfN|intros ? [_ ?]; assumption]|exact Ho].
    unfold value_after. apply found_of_default.
  - rewrite (ops_until_split blocks n), last_write_app.
    replace (last_write (concat (drop n blocks)) key') with (@None bytes); [reflexivity|].
    symmetry. apply last_write_None. intros op Hin E.
    destruct (changed_at_drop _ _ _ Hin) as (ts & Hts & Hch).
    assert (Hc : (104 :: bucket, op.1) ∈ calls).
    { apply Hmem. exists ts. split; [exact Hts|]. apply Hrec. auto. }
    rewrite last_write_None in Ec.
    apply (Ec (op.1, value_as_of db (Z.of_nat n) (104 :: bucket) op.1)); [|exact E].
    apply list_elem_of_fmap. exists (104 :: bucket, op.1). auto.
Qed.

(** Below block 2^53 unwinding restores the root: for blocks 1 to M, fewer
    than 2^53, of updates and deletes on keys of one length, applied to an
    empty trie and recorded by a store that keeps the contract of the change
    index and of [GetAsOf], [UnwindTo] from block M to an earlier block N
    succeeds, and the root hash of the trie it leaves is the root hash of
    the trie that existed natively at block N, whatever the node encoding
    and the hash function. *)
Theorem UnwindTo_restores_root db bucket len (blocks : list (list (bytes * bytes)))
    (N : nat) :
  Forall (Forall (fun op : bytes * bytes => length op.1 = len /\ octets op.1)) blocks ->
  index_ok (db_bucket db SuffixBucket) ->
  db_scan_error db SuffixBucket = None ->
  index_records (db_bucket db SuffixBucket) bucket blocks ->
  as_of_ok db bucket blocks ->
  (N < length blocks)%nat ->
  Z.of_nat (length blocks) < 2 ^ 53 ->
  exists tds,
    UnwindTo SuffixBucket
      {| tds_t := trie_at bucket blocks (length blocks);
         tds_db := db;
         tds_blockNr := Z.of_nat (length blocks) |} (Z.of_nat N) = Done tds /\
    tds_blockNr tds = Z.of_nat N /\
    forall (encode : node -> bytes) (hash : bytes -> bytes),
      Hash encode hash (tds_t tds) = Hash encode hash (trie_at bucket blocks N).
Proof.
  intros Hwf Hidx Hscan Hrec Hasof HN HM.
  destruct (rewindData_run SuffixBucket db (Z.of_nat (length blocks)) (Z.of_nat N))
    as (m & Hmem & Hrun); [lia|lia|exact HM|exact Hidx|exact Hscan|].
  unfold UnwindTo. cbn [tds_t tds_db tds_blockNr].
  rewrite Hrun, run_calls_unwind.
  eexists. split; [reflexivity|]. split; [reflexivity|]. cbn [tds_t].
  intros encode hash. f_equal.
  eapply unwound_trie; eassumption.
Qed.

End UnwindFacts.

Lemma be_uint32_be_bytes n rest :
  0 <= n < 2 ^ 32 -> be_uint32 (be_bytes 4 n ++ rest) = Some n.
Proof.
  intros Hn. cbn [be_bytes app be_uint32]. f_equal.
  change (Z.of_nat 3) with 3. change (Z.of_nat 2) with 2.
  change (Z.of_nat 1) with 1. change (Z.of_nat 0) with 0.
  change (256 ^ 0) with 1. change (256 ^ 1) with 256.
  change (256 ^ 2) with (256 * 256). change (256 ^ 3) with (256 * 256 * 256).
  rewrite Z.div_1_r, <- !Z.div_div by lia.
  set (q1 := n / 256). set (q2 := q1 / 256). set (q3 := q2 / 256).
  pose proof (Z.div_mod n 256 ltac:(lia)) as E1. fold q1 in E1.
  pose proof (Z.div_mod q1 256 ltac:(lia)) as E2. fold q2 in E2.
  pose proof (Z.div_mod q2 256 ltac:(lia)) as E3. fold q3 in E3.
  pose proof (Z.mod_pos_bound n 256 ltac:(lia)) as B1.
  pose proof (Z.mod_pos_bound q1 256 ltac:(lia)) as B2.
  pose proof (Z.mod_pos_bound q2 256 ltac:(lia)) as B3.
  assert (B4 : 0 <= q3 < 256) by (subst q1 q2 q3; lia).
  rewrite (Z.mod_small q3) by exact B4.
  rewrite !Z.shiftl_mul_pow2 by lia.
  rewrite (Z.lor_comm (n mod 256)), lor_disjoint_add by lia.
  rewrite (Z.lor_comm _ (q2 mod 256 * 2 ^ 16)), lor_disjoint_add by lia.
  rewrite (Z.lor_comm _ (q3 * 2 ^ 24)), lor_disjoint_add by lia.
  lia.
Qed.

Lemma read_key_list_encoded keys : forall pre,
  Forall (fun key : bytes => (length key < 256)%nat) keys ->
  read_key_list (length keys) (length pre) (pre ++ encode_keys keys) = Some keys.
Proof.
  unfold read_key_list.
  induction keys as [|key keys IH]; intros pre Hall; [reflexivity|].
  inversion Hall as [|? ? Hlen Hall']; subst.
  cbn [length read_keys encode_keys flat_map].
  change (flat_map (fun key0 : bytes => Z.of_nat (length key0) :: key0) keys)
    with (encode_keys keys).
  rewrite lookup_app_r by lia. rewrite Nat.sub_diag.
  change (((Z.of_nat (length key) :: key) ++ encode_keys keys) !! 0%nat)
    with (Some (Z.of_nat (length key))).
  cbv iota. rewrite !Nat2Z.id.
  assert (Hhi : ((S (length pre) + length key <=?
                  length (pre ++ (Z.of_nat (length key) :: key) ++ encode_keys keys))%nat
                 = true)).
  { apply Nat.leb_le. rewrite !length_app. cbn [length]. lia. }
  rewrite Hhi.
  replace (drop (S (length pre)) (pre ++ (Z.of_nat (length key) :: key) ++ encode_keys keys))
    with (key ++ encode_keys keys).
  2:{ change (pre ++ (Z.of_nat (length key) :: key) ++ encode_keys keys)
        with (pre ++ [Z.of_nat (length key)] ++ key ++ encode_keys keys).
      rewrite app_assoc.
      replace (S (length pre)) with (length (pre ++ [Z.of_nat (length key)]))
        by (rewrite length_app; cbn; lia).
      rewrite drop_app_length. reflexivity. }
  rewrite take_app_length.
  rewrite read_keys_snoc.
  replace (S (length pre) + length key)%nat
    with (length (pre ++ Z.of_nat (length key) :: key))
    by (rewrite length_app; cbn [length]; lia).
  replace (pre ++ (Z.of_nat (length key) :: key) ++ encode_keys keys)
    with ((pre ++ Z.of_nat (length key) :: key) ++ encode_keys keys)
    by (rewrite <- app_assoc; reflexivity).
  rewrite (IH _ Hall'). reflexivity.
Qed.

Lemma read_key_list_entry (ops : list (bytes * bytes)) :
  Forall (fun op : bytes * bytes => (length op.1 < 256)%nat) ops ->
  read_key_list (length ops) 4 (be_bytes 4 (Z.of_nat (length ops)) ++ encode_keys ops.*1)
  = Some ops.*1.
Proof.
  intros Hk.
  pose proof (read_key_list_encoded ops.*1 (be_bytes 4 (Z.of_nat (length ops)))) as H.
  rewrite length_fmap, be_bytes_length in H. apply H, Forall_fmap. exact Hk.
Qed.

Lemma change_index_elem bucket blocks : forall blockNr kv,
  kv ∈ change_index bucket blockNr blocks
  <-> exists (i : nat) ops,
        blocks !! i = Some ops /\ ops <> [] /\
        kv = index_entry bucket (blockNr + Z.of_nat i + 1) ops.
Proof.
  induction blocks as [|ops blocks IH]; intros blockNr kv; cbn [change_index].
  - split; [intros H; inversion H|]. intros (i & ops & H & _). discriminate.
  - assert (Hshift : kv ∈ change_index bucket (blockNr + 1) blocks
              <-> exists (i : nat) ops',
                    (ops :: blocks) !! S i = Some ops' /\ ops' <> [] /\
                    kv = index_entry bucket (blockNr + Z.of_nat (S i) + 1) ops').
    { rewrite IH. split; intros (i & ops' & H1 & H2 & H3); exists i, ops';
        (split; [exact H1|]); (split; [exact H2|]); rewrite H3; f_equal; lia. }
    destruct ops as [|op ops].
    + rewrite Hshift. split.
      * intros (i & ops' & H). exists (S i), ops'. exact H.
      * intros ([|i] & ops' & H1 & H2 & H3).
        -- cbn in H1. injection H1 as <-. contradiction.
        -- exists i, ops'. auto.
    + rewrite elem_of_cons, Hshift. split.
      * intros [->|(i & ops' & H)].
        -- exists 0%nat, (op :: ops). split; [reflexivity|]. split; [discriminate|].
           f_equal. lia.
        -- exists (S i), ops'. exact H.
      * intros ([|i] & ops' & H1 & H2 & H3).
        -- left. cbn in H1. injection H1 as <-. rewrite H3. f_equal. lia.
        -- right. exists i, ops'. auto.
Qed.

Lemma change_index_sorted bucket blocks : forall blockNr,
  0 <= blockNr -> blockNr + Z.of_nat (length blocks) < 2 ^ 53 ->
  StronglySorted (fun a b : bytes * bytes => bytes_lt a.1 b.1)
    (change_index bucket blockNr blocks).
Proof.
  induction blocks as [|ops blocks IH]; intros blockNr H0 Hhi; cbn [change_index].
  - constructor.
  - cbn [length] in Hhi. destruct ops as [|op ops]; [apply IH; lia|].
    constructor; [apply IH; lia|].
    apply Forall_forall. intros kv Hin. apply change_index_elem in Hin.
    destruct Hin as (i & ops' & Hi & _ & ->). apply lookup_lt_Some in Hi.
    cbn [index_entry fst]. apply encodeTimestamp_lt_app; lia.
Qed.

Lemma change_index_entry_ok bucket blocks blockNr kv :
  0 <= blockNr -> blockNr + Z.of_nat (length blocks) < 2 ^ 53 ->
  Forall (fun ops : list (bytes * bytes) =>
            Z.of_nat (length ops) < 2 ^ 32 /\
            Forall (fun op : bytes * bytes => (length op.1 < 256)%nat) ops) blocks ->
  kv ∈ change_index bucket blockNr blocks -> entry_ok kv.
Proof.
  intros H0 Hhi Hwf Hin. apply change_index_elem in Hin.
  destruct Hin as (i & ops & Hi & _ & ->).
  pose proof (lookup_lt_Some _ _ _ Hi) as Hlt.
  rewrite Forall_forall in Hwf.
  destruct (Hwf ops (list_elem_of_lookup_2 _ _ _ Hi)) as [Hcount Hkeys].
  exists (blockNr + Z.of_nat i + 1), (104 :: bucket), (Z.of_nat (length ops)), ops.*1.
  split; [lia|]. split; [discriminate|]. split; [reflexivity|].
  cbn [index_entry snd]. split.
  - apply be_uint32_be_bytes. lia.
  - rewrite Nat2Z.id. apply read_key_list_entry. exact Hkeys.
Qed.

Section HistoryFacts.

Variables SuffixBucket bucket : bytes.
Variable blocks : list (list (bytes * bytes)).

Hypothesis blocks_count : Z.of_nat (length blocks) < 2 ^ 53.
Hypothesis blocks_size :
  Forall (fun ops : list (bytes * bytes) =>
            Z.of_nat (length ops) < 2 ^ 32 /\
            Forall (fun op : bytes * bytes => (length op.1 < 256)%nat) ops) blocks.

Lemma history_db_index :
  db_bucket (history_db SuffixBucket bucket blocks) SuffixBucket = change_index bucket 0 blocks.
Proof. cbn. rewrite bool_decide_eq_true_2 by reflexivity. reflexivity. Qed.

(** The change index of the recording store is well formed. *)
Lemma history_db_index_ok :
  index_ok (db_bucket (history_db SuffixBucket bucket blocks) SuffixBucket).
Proof.
  rewrite history_db_index. split.
  - apply change_index_sorted; lia.
  - apply Forall_forall. intros kv Hin.
    eapply change_index_entry_ok; [| |exact blocks_size|exact Hin]; lia.
Qed.

(** It records exactly the keys each block changes. *)
Lemma history_db_records :
  index_records (db_bucket (history_db SuffixBucket bucket blocks) SuffixBucket) bucket blocks.
Proof.
  rewrite history_db_index. intros ts hBucket key. split.
  - intros (k & v & keycount & keys & Hin & Hdec & Hcount & Hkeys & Hkey).
    apply change_index_elem in Hin. destruct Hin as (i & ops & Hi & Hne & E).
    pose proof (f_equal fst E) as Ek. pose proof (f_equal snd E) as Ev.
    cbn [fst snd index_entry] in Ek, Ev. subst k v. clear E.
    pose proof (lookup_lt_Some _ _ _ Hi) as Hlt.
    rewrite Forall_forall in blocks_size.
    destruct (blocks_size ops (list_elem_of_lookup_2 _ _ _ Hi)) as [Hc Hk].
    rewrite decode_encode_app in Hdec by lia. injection Hdec as <- <-.
    rewrite be_uint32_be_bytes in Hcount by lia. injection Hcount as <-.
    rewrite Nat2Z.id, read_key_list_entry in Hkeys by exact Hk.
    injection Hkeys as <-.
    split; [reflexivity|]. split; [lia|]. exists ops.
    replace (Z.to_nat (0 + Z.of_nat i + 1 - 1)) with i by lia. auto.
  - intros (-> & Hts & ops & Hi & Hkey).
    pose proof (lookup_lt_Some _ _ _ Hi) as Hlt.
    rewrite Forall_forall in blocks_size.
    destruct (blocks_size ops (list_elem_of_lookup_2 _ _ _ Hi)) as [Hc Hk].
    exists (encodeTimestamp ts ++ 104 :: bucket),
      (be_bytes 4 (Z.of_nat (length ops)) ++ encode_keys ops.*1),
      (Z.of_nat (length ops)), ops.*1.
    split; [|split; [|split; [|split]]].
    + apply change_index_elem. exists (Z.to_nat (ts - 1)), ops.
      split; [exact Hi|]. split.
      * intros ->. inversion Hkey.
      * unfold index_entry. repeat f_equal. lia.
    + apply decode_encode_app. lia.
    + apply be_uint32_be_bytes. lia.
    + rewrite Nat2Z.id. apply read_key_list_entry. exact Hk.
    + exact Hkey.
Qed.

End HistoryFacts.

(** Its [GetAsOf] keeps the contract. *)
Lemma history_db_as_of SuffixBucket bucket blocks :
  as_of_ok (history_db SuffixBucket bucket blocks) bucket blocks.
Proof.
  intros key timestamp _. cbn [history_db db_get_as_of].
  rewrite bool_decide_eq_true_2 by auto. unfold read_value.
  destruct (value_after _ key); reflexivity.
Qed.

Lemma example_blocks_keys :
  Forall (Forall (fun op : bytes * bytes => length op.1 = 1%nat /\ octets op.1))
    example_blocks.
Proof. repeat (constructor || lia). Qed.

Lemma example_blocks_size :
  Forall (fun ops : list (bytes * bytes) =>
            Z.of_nat (length ops) < 2 ^ 32 /\
            Forall (fun op : bytes * bytes => (length op.1 < 256)%nat) ops) example_blocks.
Proof. repeat (constructor || (cbn; lia)). Qed.

(** A concrete instance: the three example blocks, unwound from block 3 to
    block 1. *)
Lemma UnwindTo_restores_root_witness :
  exists tds,
    UnwindTo example_suffix_bucket
      {| tds_t := trie_at [65; 84] example_blocks 3;
         tds_db := history_db example_suffix_bucket [65; 84] example_blocks;
         tds_blockNr := 3 |} 1 = Done tds /\
    tds_blockNr tds = 1 /\
    forall (encode : node -> bytes) (hash : bytes -> bytes),
      Hash encode hash (tds_t tds) = Hash encode hash (trie_at [65; 84] example_blocks 1).
Proof.
  apply (UnwindTo_restores_root example_suffix_bucket
           (history_db example_suffix_bucket [65; 84] example_blocks)
           [65; 84] 1 example_blocks 1).
  - exact example_blocks_keys.
  - apply history_db_index_ok; [reflexivity|exact example_blocks_size].
  - reflexivity.
  - apply history_db_records; [reflexivity|exact example_blocks_size].
  - apply history_db_as_of.
  - cbn. lia.
  - reflexivity.
Defined.

(** The same run evaluated: the accounts [[1]] and [[2]] get back their
    values of block 1 and the account [[3]] is removed. *)
Example UnwindTo_example :
  exists tds,
    UnwindTo example_suffix_bucket
      {| tds_t := trie_at [65; 84] example_blocks 3;
         tds_db := history_db example_suffix_bucket [65; 84] example_blocks;
         tds_blockNr := 3 |} 1 = Done tds /\
    trie_root (tds_t tds)
    = Extension [0]
        (Branch (<[1%nat := Leaf [] [10]]> (<[2%nat := Leaf [] [20]]> (replicate 16 Empty)))).
Proof. eexists. split; [reflexivity|]. vm_compute. reflexivity. Qed.

(** ** Unwinding from block 2^53 on *)

(** The key under which the change index holds block 2^53 + 1: the suffix
    of the timestamp, whose length prefix wrapped to 0, followed by the name
    of the history bucket.  [decodeTimestamp] reads a length of 0 from it
    and hands back the whole key as the bucket name. *)
Lemma late_index_key :
  encodeTimestamp (2 ^ 53 + 1) ++ [104; 65; 84] = [0; 32; 0; 0; 0; 0; 0; 1; 104; 65; 84] /\
  decodeTimestamp [0; 32; 0; 0; 0; 0; 0; 1; 104; 65; 84]
  = Some (0, [0; 32; 0; 0; 0; 0; 0; 1; 104; 65; 84]).
Proof. split; vm_compute; reflexivity. Qed.

(** What [rewindData] hands over from block 2^53 + 1 back to block 2^53:
    one call, for the key the last block changed, under the whole index key
    as the bucket and with a nil value, whatever the callback. *)
Lemma rewindData_late {D : Type} (df : D -> bytes -> bytes -> bytes -> D * option error)
    (d : D) :
  Walk.rewindData example_suffix_bucket
    (history_db_from example_suffix_bucket [65; 84] (2 ^ 53 - 1) late_blocks)
    (2 ^ 53 + 1) (2 ^ 53) df d
  = match df d [0; 32; 0; 0; 0; 0; 0; 1; 104; 65; 84] [3] [] with
    | (d', Some e) => Failed d' e
    | (d', None) => Done d'
    end.
Proof. vm_compute. destruct (df d _ _ _) as [d' [e|]]; reflexivity. Qed.

(** C1 (the code misses the claim): the account [[3]] is created with the
    value [[29]] in block 2^53 and changed to [[30]] in block 2^53 + 1, in a
    chain whose earlier blocks change nothing.  Unwinding from block
    2^53 + 1 to block 2^53 succeeds, but the only call [rewindData] makes,
    whatever the callback, is for a bucket that does not exist, with a nil
    value: the value [[29]], which [GetAsOf] holds ready, is never handed
    over, the account is removed from the trie, and the root hash is not the
    one of block 2^53.  The same two blocks as blocks 1 and
    2 unwind to the root of block 1. *)
Theorem UnwindTo_2_53 :
  let bucket := [65; 84] in
  let base := 2 ^ 53 - 1 in
  let db := history_db_from example_suffix_bucket bucket base late_blocks in
  let native := apply_blocks (empty_trie bucket) base (take 1 late_blocks) in
  let current := apply_blocks (empty_trie bucket) base late_blocks in
  StronglySorted (fun a b : bytes * bytes => bytes_lt a.1 b.1)
    (db_bucket db example_suffix_bucket) /\
  db_get_as_of db bucket (104 :: bucket) [3] (2 ^ 53 + 1) = ([29], None) /\
  trie_root native = Leaf [0; 3] [29] /\
  trie_root current = Leaf [0; 3] [30] /\
  (forall (D : Type) (df : D -> bytes -> bytes -> bytes -> D * option error) (d : D),
     Walk.rewindData example_suffix_bucket db (2 ^ 53 + 1) (2 ^ 53) df d
     = match df d (encodeTimestamp (2 ^ 53 + 1) ++ 104 :: bucket) [3] [] with
       | (d', Some e) => Failed d' e
       | (d', None) => Done d'
       end) /\
  (exists tds,
     UnwindTo example_suffix_bucket
       {| tds_t := current; tds_db := db; tds_blockNr := 2 ^ 53 + 1 |} (2 ^ 53)
     = Done tds /\
     trie_root (tds_t tds) = Empty /\
     Hash example_encode example_hash (tds_t tds)
     <> Hash example_encode example_hash native) /\
  (exists tds,
     UnwindTo example_suffix_bucket
       {| tds_t := apply_blocks (empty_trie bucket) 0 late_blocks;
          tds_db := history_db_from example_suffix_bucket bucket 0 late_blocks;
          tds_blockNr := 2 |} 1
     = Done tds /\
     tds_t tds = apply_blocks (empty_trie bucket) 0 (take 1 late_blocks)).
Proof.
  cbv zeta. split; [|split; [|split; [|split; [|split; [|split]]]]].
  - vm_compute. repeat constructor.
  - vm_compute. reflexivity.
  - vm_compute. reflexivity.
  - vm_compute. reflexivity.
  - intros D df d. rewrite rewindData_late.
    change (encodeTimestamp (2 ^ 53 + 1) ++ [104; 65; 84])
      with [0; 32; 0; 0; 0; 0; 0; 1; 104; 65; 84].
    reflexivity.
  - unfold UnwindTo. cbn [tds_db tds_t tds_blockNr]. rewrite rewindData_late.
    unfold unwind_df. eexists. split; [reflexivity|]. cbn [tds_t].
    split; [vm_compute; reflexivity|]. vm_compute. discriminate.
  - eexists. split; [reflexivity|]. vm_compute. reflexivity.
Qed.

(** * Further properties of the code *)

(** ** The timestamp codec *)

Lemma encodeTimestamp_closed_8 t : 2 ^ 53 <= t < 2 ^ 61 ->
  encodeTimestamp t = t / 2 ^ 56 :: be_bytes 7 t.
Proof.
  intros Ht. unfold encodeTimestamp.
  do 7 (rewrite encode_loop_skip by lia; norm_limit).
  cbn [encode_loop]. destruct (Z.ltb_spec t 2305843009213693952); [|lia].
  change (Z.to_nat (8 - 1)) with 7%nat.
  rewrite fill_tail_spec, app_nil_r. f_equal.
  change (to_byte (Z.shiftl (to_byte 8) 5)) with 0. rewrite Z.lor_0_r.
  change (256 ^ Z.of_nat 7) with (2 ^ 56).
  apply to_byte_small. split; [apply Z.div_pos; lia|].
  apply Z.div_lt_upper_bound; lia.
Qed.

Lemma encodeTimestamp_none t : 2 ^ 61 <= t -> encodeTimestamp t = [].
Proof.
  intros Ht. unfold encodeTimestamp.
  do 7 (rewrite encode_loop_skip by lia; norm_limit).
  rewrite encode_loop_skip by lia. reflexivity.
Qed.

Lemma decode_loop_None n : forall i ts suffix,
  decode_loop n i ts suffix = None <-> (0 < n)%nat /\ (length suffix < i + n)%nat.
Proof.
  induction n as [|n IH]; intros i ts suffix; cbn [decode_loop].
  - split; [discriminate|]. intros [H _]. lia.
  - destruct (suffix !! i) as [x|] eqn:E.
    + apply lookup_lt_Some in E. rewrite IH. lia.
    + apply lookup_ge_None in E. split; [lia|reflexivity].
Qed.

(** X1: below 2^53 the suffix is self-delimiting: [decodeTimestamp] of the
    suffix of [t] followed by any bytes returns [t] and those bytes, so a
    key of the change index, a suffix followed by a bucket name, parses in
    one way only. *)
Theorem timestamp_key_parses t1 rest1 :
  0 <= t1 < 2 ^ 53 ->
  decodeTimestamp (encodeTimestamp t1 ++ rest1) = Some (t1, rest1) /\
  forall t2 rest2, 0 <= t2 < 2 ^ 53 ->
    encodeTimestamp t1 ++ rest1 = encodeTimestamp t2 ++ rest2 ->
    t1 = t2 /\ rest1 = rest2.
Proof.
  intros H1. split; [apply decode_encode_app; exact H1|].
  intros t2 rest2 H2 E.
  pose proof (decode_encode_app t1 rest1 H1) as D1.
  rewrite E, decode_encode_app in D1 by exact H2.
  injection D1 as -> ->. auto.
Qed.

Lemma timestamp_key_parses_witness :
  decodeTimestamp (encodeTimestamp 300 ++ [104; 65; 84]) = Some (300, [104; 65; 84]) /\
  forall t2 rest2, 0 <= t2 < 2 ^ 53 ->
    encodeTimestamp 300 ++ [104; 65; 84] = encodeTimestamp t2 ++ rest2 ->
    300 = t2 /\ [104; 65; 84] = rest2.
Proof. apply (timestamp_key_parses 300 [104; 65; 84]). lia. Defined.

(** X2: below 2^53 the suffixes sort as the timestamps do, in both
    directions, and the order of two suffixes is not changed by what
    follows them. *)
Theorem encodeTimestamp_order t1 t2 :
  0 <= t1 < 2 ^ 53 -> 0 <= t2 < 2 ^ 53 ->
  (t1 < t2 <-> bytes_lt (encodeTimestamp t1) (encodeTimestamp t2)) /\
  (t1 < t2 -> forall r1 r2, bytes_lt (encodeTimestamp t1 ++ r1) (encodeTimestamp t2 ++ r2)).
Proof.
  intros H1 H2.
  assert (Hlt : forall a b r1 r2, 0 <= a -> a < b -> b < 2 ^ 53 ->
            bytes_lt (encodeTimestamp a ++ r1) (encodeTimestamp b ++ r2))
    by (intros; apply encodeTimestamp_lt_app; assumption).
  split; [split|].
  - intros H. specialize (Hlt t1 t2 [] []). rewrite !app_nil_r in Hlt. apply Hlt; lia.
  - intros H. destruct (Z.lt_trichotomy t1 t2) as [Hc|[->|Hc]]; [exact Hc|exfalso..].
    + exact (bytes_lt_asym _ _ H H).
    + specialize (Hlt t2 t1 [] []). rewrite !app_nil_r in Hlt.
      apply (bytes_lt_asym _ _ H). apply Hlt; lia.
  - intros H r1 r2. apply Hlt; lia.
Qed.

Lemma encodeTimestamp_order_witness :
  (31 < 32 <-> bytes_lt (encodeTimestamp 31) (encodeTimestamp 32)) /\
  (31 < 32 -> forall r1 r2, bytes_lt (encodeTimestamp 31 ++ r1) (encodeTimestamp 32 ++ r2)).
Proof. apply (encodeTimestamp_order 31 32); lia. Defined.

(** X3: [encodeTimestamp] returns a nil suffix exactly for the timestamps
    from 2^61 on (none of its eight lengths fits), and [decodeTimestamp]
    panics on that suffix. *)
Theorem encodeTimestamp_nil t :
  0 <= t ->
  (encodeTimestamp t = [] <-> 2 ^ 61 <= t) /\
  (2 ^ 61 <= t -> decodeTimestamp (encodeTimestamp t) = None).
Proof.
  intros H0. split; [split|].
  - intros E. destruct (Z.lt_ge_cases t (2 ^ 61)) as [Hlt|Hge]; [exfalso|exact Hge].
    destruct (Z.lt_ge_cases t (2 ^ 53)) as [Hs|Hb].
    + rewrite encodeTimestamp_closed in E by lia. discriminate.
    + rewrite encodeTimestamp_closed_8 in E by lia. discriminate.
  - apply encodeTimestamp_none.
  - intros H. rewrite encodeTimestamp_none by exact H. reflexivity.
Qed.

Lemma encodeTimestamp_nil_witness :
  (encodeTimestamp (2 ^ 64 - 1) = [] <-> 2 ^ 61 <= 2 ^ 64 - 1) /\
  (2 ^ 61 <= 2 ^ 64 - 1 -> decodeTimestamp (encodeTimestamp (2 ^ 64 - 1)) = None).
Proof. apply (encodeTimestamp_nil (2 ^ 64 - 1)). lia. Defined.

(** X4: from 2^53 up to 2^61 [encodeTimestamp] writes eight bytes, the
    timestamp big-endian, with nothing left of the length in the first
    byte; [decodeTimestamp] then reads a length of 0: it returns the top
    byte of the timestamp as the timestamp and hands back the whole input
    as the rest. *)
Theorem timestamp_8_bytes t rest :
  2 ^ 53 <= t < 2 ^ 61 ->
  encodeTimestamp t = be_bytes 8 t /\
  decodeTimestamp (encodeTimestamp t ++ rest) = Some (t / 2 ^ 56, encodeTimestamp t ++ rest).
Proof.
  intros Ht. rewrite encodeTimestamp_closed_8 by exact Ht.
  assert (Hb : 0 <= t / 2 ^ 56 < 32).
  { split; [apply Z.div_pos; lia|]. apply Z.div_lt_upper_bound; lia. }
  split.
  - change (be_bytes 8 t) with ((t / 256 ^ Z.of_nat 7) mod 256 :: be_bytes 7 t).
    change (256 ^ Z.of_nat 7) with (2 ^ 56). rewrite Z.mod_small by lia. reflexivity.
  - cbn [app]. unfold decodeTimestamp.
    assert (Hs : Z.shiftr (t / 2 ^ 56) 5 = 0).
    { rewrite Z.shiftr_div_pow2 by lia. apply Z.div_small. change (2 ^ 5) with 32. lia. }
    rewrite Hs. cbn [Z.sub Z.opp Z.add Z.to_nat decode_loop Z.leb].
    change (0 <=? Z.of_nat (length (t / 2 ^ 56 :: be_bytes 7 t ++ rest))) with
      (Z.leb 0 (Z.of_nat (length (t / 2 ^ 56 :: be_bytes 7 t ++ rest)))).
    destruct (Z.leb_spec 0 (Z.of_nat (length (t / 2 ^ 56 :: be_bytes 7 t ++ rest)))); [|lia].
    cbn [drop]. f_equal. f_equal.
    change 31 with (Z.ones 5). rewrite Z.land_ones by lia. apply Z.mod_small.
    change (2 ^ 5) with 32. lia.
Qed.

Lemma timestamp_8_bytes_witness :
  encodeTimestamp (2 ^ 60 + 5) = be_bytes 8 (2 ^ 60 + 5) /\
  decodeTimestamp (encodeTimestamp (2 ^ 60 + 5) ++ [104; 65; 84])
  = Some ((2 ^ 60 + 5) / 2 ^ 56, encodeTimestamp (2 ^ 60 + 5) ++ [104; 65; 84]).
Proof. apply (timestamp_8_bytes (2 ^ 60 + 5) [104; 65; 84]). lia. Defined.

(** X5: [decodeTimestamp] panics on an empty suffix and on one shorter than
    the length its first byte announces, and on no other input. *)
Theorem decodeTimestamp_panics suffix :
  decodeTimestamp suffix = None
  <-> suffix = [] \/
      exists s0 tail, suffix = s0 :: tail /\ Z.of_nat (length suffix) < Z.shiftr s0 5.
Proof.
  destruct suffix as [|s0 tail].
  - split; [auto|reflexivity].
  - unfold decodeTimestamp.
    destruct (decode_loop _ 1 _ _) as [ts|] eqn:E.
    + assert (Hn : ~ ((0 < Z.to_nat (Z.shiftr s0 5 - 1))%nat /\
                      (length (s0 :: tail) < 1 + Z.to_nat (Z.shiftr s0 5 - 1))%nat)).
      { intros H. apply (proj2 (decode_loop_None _ 1 (Z.land s0 31) (s0 :: tail))) in H.
        rewrite E in H. discriminate. }
      destruct (Z.leb_spec (Z.shiftr s0 5) (Z.of_nat (length (s0 :: tail)))) as [Hle|Hgt].
      * split; [discriminate|]. intros [H|(s & tl & Heq & H)]; [discriminate|].
        injection Heq as <- <-. lia.
      * split; [|reflexivity]. intros _. right. exists s0, tail. auto.
    + apply decode_loop_None in E. split; [|reflexivity].
      intros _. right. exists s0, tail. split; [reflexivity|]. cbn [length] in *. lia.
Qed.

(** ** prefixLen *)

Lemma prefixLen_loop_spec fuel a b : forall i n,
  (n <= length a)%nat -> (n <= length b)%nat -> (i <= n)%nat -> (n - i <= fuel)%nat ->
  (forall j, (j < i)%nat -> a !! j = b !! j) ->
  exists r, Hack.prefixLen_loop fuel a b i n = Some r /\
    (i <= r <= n)%nat /\
    (forall j, (j < r)%nat -> a !! j = b !! j) /\
    ((r < n)%nat -> a !! r <> b !! r).
Proof.
  induction fuel as [|fuel IH]; intros i n Ha Hb Hi Hf Hpre; cbn [Hack.prefixLen_loop].
  - exists i. split; [reflexivity|]. split; [lia|]. split; [exact Hpre|]. lia.
  - destruct (Nat.ltb_spec i n) as [Hlt|Hge].
    + destruct (lookup_lt_is_Some_2 a i ltac:(lia)) as [x Hx].
      destruct (lookup_lt_is_Some_2 b i ltac:(lia)) as [y Hy].
      rewrite Hx, Hy. destruct (decide (x = y)) as [->|Hne].
      * rewrite bool_decide_eq_true_2 by reflexivity.
        destruct (IH (S i) n Ha Hb ltac:(lia) ltac:(lia)) as (r & Hr & Hb1 & Hb2 & Hb3).
        { intros j Hj. destruct (decide (j = i)) as [->|Hji]; [congruence|].
          apply Hpre. lia. }
        exists r. split; [exact Hr|]. split; [lia|]. auto.
      * rewrite bool_decide_eq_false_2 by exact Hne.
        exists i. split; [reflexivity|]. split; [lia|]. split; [exact Hpre|].
        intros _. congruence.
    + exists i. split; [reflexivity|]. split; [lia|]. split; [exact Hpre|]. lia.
Qed.

(** X6: [prefixLen] never indexes out of range and returns the length of
    the longest common prefix of its arguments: the slices agree on that
    many bytes, and either one of them ends there or they differ at the
    next byte. *)
Theorem prefixLen_longest (a b : bytes) :
  exists n, Hack.prefixLen a b = Some n /\
    (n <= length a)%nat /\ (n <= length b)%nat /\
    take n a = take n b /\
    (n = length a \/ n = length b \/ a !! n <> b !! n).
Proof.
  unfold Hack.prefixLen.
  set (m := if (length b <? length a)%nat then length b else length a).
  assert (Hm : (m <= length a)%nat /\ (m <= length b)%nat /\ (m = length a \/ m = length b)).
  { unfold m. destruct (Nat.ltb_spec (length b) (length a)); lia. }
  destruct Hm as (Ha & Hb & Hmin).
  destruct (prefixLen_loop_spec m a b 0 m Ha Hb ltac:(lia) ltac:(lia))
    as (r & Hr & Hb1 & Hb2 & Hb3); [intros j Hj; lia|].
  exists r. split; [exact Hr|]. split; [lia|]. split; [lia|]. split.
  - apply list_eq. intros j. destruct (Nat.lt_ge_cases j r) as [Hj|Hj].
    + rewrite !lookup_take_lt by exact Hj. apply Hb2. exact Hj.
    + rewrite !lookup_take_ge by exact Hj. reflexivity.
  - destruct (Nat.lt_ge_cases r m) as [Hlt|Hge]; [right; right; auto|].
    assert (r = m) by lia. subst r. destruct Hmin; auto.
Qed.

(** ** CalcGasLimit *)

Section GasLimitFacts.

Import Core.

Variable D : Z.
Variable MinGasLimit : Z.

(** X7: when the parent's gas limit is at least the bound divisor and
    adding its 1/divisor share does not overflow, the limit [CalcGasLimit]
    returns lies between the smaller of the parent's limit and the floor and
    the larger of the parent's limit and the ceiling: a limit inside
    [gasFloor, gasCeil] stays inside, one outside does not move further
    out. *)
Theorem CalcGasLimit_between (parent : Block) (gasFloor gasCeil : Z) :
  0 < D -> D <= block_GasLimit parent ->
  block_GasLimit parent + block_GasLimit parent / D <= 2 ^ 64 ->
  gasFloor <= gasCeil ->
  Z.min (block_GasLimit parent) gasFloor
  <= CalcGasLimit D MinGasLimit parent gasFloor gasCeil
  <= Z.max (block_GasLimit parent) gasCeil.
Proof.
  intros HD HP Hov Hfc. unfold CalcGasLimit.
  set (P := block_GasLimit parent) in *.
  assert (Hq : 1 <= P / D) by (apply Z.div_le_lower_bound; lia).
  assert (Hq2 : P / D <= P) by (apply Z.div_le_upper_bound; nia).
  assert (Hdecay : u64 (P / D - 1) = P / D - 1) by (unfold u64; apply Z.mod_small; lia).
  rewrite Hdecay.
  assert (Hsub : u64 (P - (P / D - 1)) = P - (P / D - 1))
    by (unfold u64; apply Z.mod_small; lia).
  assert (Hadd : u64 (P + (P / D - 1)) = P + (P / D - 1))
    by (unfold u64; apply Z.mod_small; lia).
  rewrite Hsub, Hadd.
  generalize (u64 (P - (P / D - 1) + u64 (block_GasUsed parent + block_GasUsed parent / 2) / D)).
  intros l0.
  destruct (Z.ltb_spec l0 MinGasLimit);
    repeat match goal with
           | |- context [?a <? ?b] => destruct (Z.ltb_spec a b)
           | |- context [?a >? ?b] => destruct (Z.gtb_spec a b)
           end; lia.
Qed.

(** X8: for a parent whose gas limit is at least five times the bound
    divisor and at least the minimum, and whose gas used does not exceed
    its limit, the limit [CalcGasLimit] returns differs from the parent's
    limit by less than the parent's limit divided by the bound divisor,
    whatever the floor and the ceiling. *)
Theorem CalcGasLimit_step (parent : Block) (gasFloor gasCeil : Z) :
  0 < D -> 5 * D <= block_GasLimit parent -> MinGasLimit <= block_GasLimit parent ->
  0 <= block_GasUsed parent <= block_GasLimit parent ->
  block_GasLimit parent < 2 ^ 62 ->
  Z.abs (CalcGasLimit D MinGasLimit parent gasFloor gasCeil - block_GasLimit parent)
  < block_GasLimit parent / D.
Proof.
  intros HD HP HMin HU Hhi. unfold CalcGasLimit.
  set (P := block_GasLimit parent) in *. set (U := block_GasUsed parent) in *.
  set (q := P / D).
  assert (Hq5 : 5 <= q) by (apply Z.div_le_lower_bound; lia).
  assert (HqP : q <= P) by (apply Z.div_le_upper_bound; nia).
  pose proof (Z.mul_div_le P D HD) as Hq1. fold q in Hq1.
  pose proof (Z.mul_succ_div_gt P D HD) as Hq2. fold q in Hq2.
  assert (HU2 : 0 <= U / 2 <= U) by (split; [apply Z.div_pos; lia|apply Z.div_le_upper_bound; lia]).
  pose proof (Z.mul_div_le U 2 ltac:(lia)) as HU3.
  assert (HX : u64 (U + U / 2) = U + U / 2) by (unfold u64; apply Z.mod_small; lia).
  rewrite HX. set (c := (U + U / 2) / D).
  assert (Hc0 : 0 <= c) by (apply Z.div_pos; lia).
  pose proof (Z.mul_div_le (U + U / 2) D HD) as Hc1. fold c in Hc1.
  assert (Hc : c <= 2 * q - 2) by nia.
  assert (Hdecay : u64 (q - 1) = q - 1) by (unfold u64; apply Z.mod_small; lia).
  rewrite Hdecay.
  assert (Hsub : u64 (P - (q - 1)) = P - (q - 1)) by (unfold u64; apply Z.mod_small; lia).
  assert (Hadd : u64 (P + (q - 1)) = P + (q - 1)) by (unfold u64; apply Z.mod_small; lia).
  assert (Hl0 : u64 (P - (q - 1) + c) = P - (q - 1) + c) by (unfold u64; apply Z.mod_small; lia).
  rewrite Hsub, Hadd, Hl0.
  destruct (Z.ltb_spec (P - (q - 1) + c) MinGasLimit);
    repeat match goal with
           | |- context [?a <? ?b] => destruct (Z.ltb_spec a b)
           | |- context [?a >? ?b] => destruct (Z.gtb_spec a b)
           end; lia.
Qed.

End GasLimitFacts.

Lemma CalcGasLimit_between_witness :
  Z.min 8000000 7000000
  <= Core.CalcGasLimit 1024 5000
       {| Core.block_Number := 10; Core.block_ParentHash := []; Core.block_GasUsed := 4000000;
          Core.block_GasLimit := 8000000; Core.block_Bloom := []; Core.block_ReceiptHash := [];
          Core.block_Root := []; Core.block_UncleHash := []; Core.block_TxHash := [] |}
       7000000 7500000
  <= Z.max 8000000 7500000.
Proof.
  apply (CalcGasLimit_between 1024 5000
           {| Core.block_Number := 10; Core.block_ParentHash := []; Core.block_GasUsed := 4000000;
              Core.block_GasLimit := 8000000; Core.block_Bloom := []; Core.block_ReceiptHash := [];
              Core.block_Root := []; Core.block_UncleHash := []; Core.block_TxHash := [] |}
           7000000 7500000); cbn [Core.block_GasLimit Core.block_GasUsed];
    first [lia | vm_compute; discriminate].
Defined.

Lemma CalcGasLimit_step_witness :
  Z.abs (Core.CalcGasLimit 1024 5000
           {| Core.block_Number := 10; Core.block_ParentHash := []; Core.block_GasUsed := 8000000;
              Core.block_GasLimit := 8000000; Core.block_Bloom := []; Core.block_ReceiptHash := [];
              Core.block_Root := []; Core.block_UncleHash := []; Core.block_TxHash := [] |}
           9000000 9000000 - 8000000)
  < 8000000 / 1024.
Proof.
  apply (CalcGasLimit_step 1024 5000
           {| Core.block_Number := 10; Core.block_ParentHash := []; Core.block_GasUsed := 8000000;
              Core.block_GasLimit := 8000000; Core.block_Bloom := []; Core.block_ReceiptHash := [];
              Core.block_Root := []; Core.block_UncleHash := []; Core.block_TxHash := [] |}
           9000000 9000000); cbn [Core.block_GasLimit Core.block_GasUsed];
    first [lia | vm_compute; discriminate | vm_compute; reflexivity].
Defined.

(** ** The block validator *)

(** X9: [ValidateState] accepts a block exactly when the gas used, the
    bloom, the receipt root and the state root all agree with the header.
    An error of [IntermediateRoot] is returned only when the root it comes
    with differs from the header's: with an equal root the error is dropped
    and the block accepted. *)
Theorem ValidateState_accepts (dblks : gmap Z bool) (block : Core.Block) (usedGas : Z)
    (rbloom receiptSha root : bytes) (err : option error) :
  ((Core.ValidateState dblks block usedGas rbloom receiptSha (root, err)).1 = None
   <-> Core.block_GasUsed block = usedGas /\ rbloom = Core.block_Bloom block /\
       receiptSha = Core.block_ReceiptHash block /\ Core.block_Root block = root) /\
  (forall e,
     (Core.ValidateState dblks block usedGas rbloom receiptSha (root, err)).1
     = Some (Core.FromCallee e)
     <-> Core.block_GasUsed block = usedGas /\ rbloom = Core.block_Bloom block /\
         receiptSha = Core.block_ReceiptHash block /\ Core.block_Root block <> root /\
         err = Some e).
Proof.
  unfold Core.ValidateState.
  destruct (Z.eqb_spec (Core.block_GasUsed block) usedGas) as [Hg|Hg]; cbn [negb].
  2:{ split; [|intros e]; (split; [discriminate|]); intros (H & _); contradiction. }
  destruct (decide (rbloom = Core.block_Bloom block)) as [Hb|Hb].
  2:{ rewrite bool_decide_eq_false_2 by exact Hb. cbn [negb].
      split; [|intros e]; (split; [discriminate|]); intros (_ & H & _); contradiction. }
  rewrite bool_decide_eq_true_2 by exact Hb. cbn [negb].
  destruct (decide (receiptSha = Core.block_ReceiptHash block)) as [Hr|Hr].
  2:{ rewrite bool_decide_eq_false_2 by exact Hr. cbn [negb].
      split; [|intros e]; (split; [discriminate|]); intros (_ & _ & H & _); contradiction. }
  rewrite bool_decide_eq_true_2 by exact Hr. cbn [negb].
  destruct (decide (Core.block_Root block = root)) as [Hm|Hm].
  - rewrite bool_decide_eq_true_2 by exact Hm. cbn [negb].
    assert (E : (match dblks !! Core.block_Number block with
                 | Some true => (None, Some (Core.RightTries (Core.block_Number block)))
                 | _ => (@None Core.validation_error, @None Core.snapshot)
                 end).1 = None)
      by (destruct (dblks !! Core.block_Number block) as [[|]|]; reflexivity).
    rewrite E. split; [tauto|]. intros e. split; [discriminate|].
    intros (_ & _ & _ & H & _). contradiction.
  - rewrite bool_decide_eq_false_2 by exact Hm. cbn [negb].
    destruct err as [e0|]; cbn [fst].
    + split.
      * split; [discriminate|]. intros (_ & _ & _ & H). contradiction.
      * intros e. split.
        -- intros [= ->]. auto.
        -- intros (_ & _ & _ & _ & [= ->]). reflexivity.
    + split.
      * split; [discriminate|]. intros (_ & _ & _ & H). contradiction.
      * intros e. split; [discriminate|]. intros (_ & _ & _ & _ & H). discriminate.
Qed.

(** X10: [ValidateBody] accepts a block exactly when its uncles verify, its
    uncle and transaction roots agree with the header and, unless the chain
    keeps no history, its parent is known with its state.  With [noHistory]
    set the parent is never looked up.  [ErrPrunedAncestor] means exactly
    that everything else passed and the parent block is there without its
    state. *)
Theorem ValidateBody_accepts (bc : Core.BlockChain) (verifyUncles : option error)
    (uncleHash txHash : bytes) (block : Core.Block) :
  let parent := Core.block_ParentHash block in
  let number := u64 (Core.block_Number block - 1) in
  let body_ok :=
    verifyUncles = None /\ uncleHash = Core.block_UncleHash block /\
    txHash = Core.block_TxHash block in
  (Core.ValidateBody bc verifyUncles uncleHash txHash block = None
   <-> body_ok /\
       (Core.bc_noHistory bc = true \/
        Core.bc_GetBlockByHash bc parent = true /\
        Core.bc_HasBlockAndState bc parent number = true)) /\
  (Core.ValidateBody bc verifyUncles uncleHash txHash block = Some Core.ErrPrunedAncestor
   <-> body_ok /\ Core.bc_noHistory bc = false /\
       Core.bc_GetBlockByHash bc parent = true /\
       Core.bc_HasBlockAndState bc parent number = false /\
       Core.bc_HasBlock bc parent number = true).
Proof.
  cbv zeta. unfold Core.ValidateBody.
  destruct (Core.bc_noHistory bc) eqn:E1,
    (Core.bc_GetBlockByHash bc (Core.block_ParentHash block)) eqn:E2,
    (Core.bc_HasBlockAndState bc (Core.block_ParentHash block)
       (u64 (Core.block_Number block - 1))) eqn:E3,
    (Core.bc_HasBlock bc (Core.block_ParentHash block)
       (u64 (Core.block_Number block - 1))) eqn:E4,
    verifyUncles as [e|],
    (bool_decide_reflect (uncleHash = Core.block_UncleHash block)) as [Hu|Hu],
    (bool_decide_reflect (txHash = Core.block_TxHash block)) as [Ht|Ht];
    cbn [negb andb];
    split; split; intros H;
    try discriminate H;
    try (repeat split; auto; fail);
    try (exfalso; intuition (discriminate || congruence); fail);
    intuition (discriminate || congruence).
Qed.

(** ** The storage overrides of DbState *)

Lemma storageItem_less_lt a b :
  State.storageItem_less a b = true <-> bytes_lt (State.item_seckey a) (State.item_seckey b).
Proof. apply bytes_ltb_lt. Qed.

Lemma storageItem_less_eq a b :
  State.storageItem_less a b = false -> State.storageItem_less b a = false ->
  State.item_seckey a = State.item_seckey b.
Proof. apply bytes_ltb_false. Qed.

Lemma overrides_insert_elems x t :
  StronglySorted (fun a b => bytes_lt (State.item_seckey a) (State.item_seckey b)) t ->
  forall it,
    it ∈ LLRB.ReplaceOrInsert State.storageItem_less x t
    <-> it = x \/ (it ∈ t /\ State.item_seckey it <> State.item_seckey x).
Proof.
  induction 1 as [|y t Hs IH Hy]; intros it; cbn [LLRB.ReplaceOrInsert].
  - rewrite list_elem_of_singleton. split; [auto|]. intros [H|[H _]]; [exact H|inversion H].
  - rewrite Forall_forall in Hy.
    destruct (State.storageItem_less x y) eqn:E1.
    + apply storageItem_less_lt in E1. rewrite elem_of_cons. split; [|tauto].
      intros [->|Hin]; [auto|]. right. split; [exact Hin|]. intros E.
      apply elem_of_cons in Hin. destruct Hin as [->|Hin].
      * rewrite E in E1. exact (bytes_lt_irrefl _ E1).
      * specialize (Hy _ Hin). rewrite E in Hy.
        exact (bytes_lt_asym _ _ E1 Hy).
    + destruct (State.storageItem_less y x) eqn:E2.
      * apply storageItem_less_lt in E2. rewrite !elem_of_cons, IH. split.
        -- intros [->|[->|[Hin Hne]]]; [|auto|tauto].
           right. split; [auto|]. intros E. rewrite E in E2. exact (bytes_lt_irrefl _ E2).
        -- tauto.
      * pose proof (storageItem_less_eq x y E1 E2) as Exy.
        rewrite !elem_of_cons. split.
        -- intros [->|Hin]; [auto|]. right. split; [auto|]. intros E.
           specialize (Hy _ Hin). rewrite E, Exy in Hy. exact (bytes_lt_irrefl _ Hy).
        -- intros [->|[[->|Hin] Hne]]; [auto| |auto]. congruence.
Qed.

Lemma overrides_insert_sorted x t :
  StronglySorted (fun a b => bytes_lt (State.item_seckey a) (State.item_seckey b)) t ->
  StronglySorted (fun a b => bytes_lt (State.item_seckey a) (State.item_seckey b))
    (LLRB.ReplaceOrInsert State.storageItem_less x t).
Proof.
  intros Hs. induction Hs as [|y t Hs IH Hy]; cbn [LLRB.ReplaceOrInsert].
  - repeat constructor.
  - destruct (State.storageItem_less x y) eqn:E1.
    + apply storageItem_less_lt in E1. constructor; [constructor; assumption|].
      constructor; [exact E1|]. eapply Forall_impl; [exact Hy|].
      intros z Hz. cbn beta in *. eapply bytes_lt_trans; eassumption.
    + destruct (State.storageItem_less y x) eqn:E2.
      * constructor; [exact IH|]. apply Forall_forall. intros z Hz.
        apply (overrides_insert_elems x t Hs) in Hz. destruct Hz as [->|[Hz _]].
        -- apply storageItem_less_lt. exact E2.
        -- rewrite Forall_forall in Hy. auto.
      * pose proof (storageItem_less_eq x y E1 E2) as Exy.
        constructor; [exact Hs|]. eapply Forall_impl; [exact Hy|].
        intros z Hz. cbn beta in *. rewrite Exy. exact Hz.
Qed.

Section OverrideFacts.

Import State.

Variable keccak256 : bytes -> bytes.

(** X11: the trees of overrides are kept in ascending order of [seckey]
    without repetition, from [NewDbState] on and across
    [WriteAccountStorage]; and the last write to a slot wins: afterwards the
    tree of the address holds the written item, and of the items it held
    before exactly those of another [seckey]. *)
Theorem WriteAccountStorage_last_write (dbs : DbState) (address key original value : bytes) :
  overrides_sorted dbs ->
  let dbs' := (WriteAccountStorage keccak256 dbs address key original value).2 in
  let i := {| item_key := key; item_seckey := keccak256 key; item_value := value |} in
  (forall db blockNr, overrides_sorted (NewDbState db blockNr)) /\
  overrides_sorted dbs' /\
  exists t', dbs_storage dbs' !! address = Some t' /\
    forall it,
      it ∈ t' <-> it = i \/
                  (it ∈ default [] (dbs_storage dbs !! address) /\
                   item_seckey it <> keccak256 key).
Proof.
  intros Hs. cbv zeta. cbn [WriteAccountStorage snd dbs_storage].
  set (i := {| item_key := key; item_seckey := keccak256 key; item_value := value |}).
  assert (Ht : StronglySorted (fun a b => bytes_lt (item_seckey a) (item_seckey b))
                 (default LLRB.New (dbs_storage dbs !! address))).
  { destruct (dbs_storage dbs !! address) as [t|] eqn:E; cbn; [eapply Hs, E|constructor]. }
  split; [|split].
  - intros db blockNr a t H. cbn in H. rewrite lookup_empty in H. discriminate.
  - intros a t H. cbn [dbs_storage] in H. destruct (decide (a = address)) as [->|Hne].
    + rewrite lookup_insert_eq in H. injection H as <-.
      apply overrides_insert_sorted. exact Ht.
    + rewrite lookup_insert_ne in H by congruence. eapply Hs, H.
  - eexists. split; [apply lookup_insert_eq|]. intros it.
    apply (overrides_insert_elems i _ Ht).
Qed.

End OverrideFacts.

Lemma example_overrides_sorted : overrides_sorted StateIter.example_overrides.
Proof.
  intros a t H. cbn [StateIter.example_overrides State.dbs_storage] in H.
  apply lookup_singleton_Some in H. destruct H as [_ <-].
  repeat constructor.
Qed.

Lemma WriteAccountStorage_last_write_witness :
  let dbs := StateIter.example_overrides in
  let dbs' :=
    (State.WriteAccountStorage (fun x => x) dbs StateIter.example_address
       (StateIter.example_slot 5) (StateIter.example_slot 9) (StateIter.example_slot 7)).2 in
  let i := {| State.item_key := StateIter.example_slot 5;
              State.item_seckey := StateIter.example_slot 5;
              State.item_value := StateIter.example_slot 7 |} in
  (forall db blockNr, overrides_sorted (State.NewDbState db blockNr)) /\
  overrides_sorted dbs' /\
  exists t', State.dbs_storage dbs' !! StateIter.example_address = Some t' /\
    forall it,
      it ∈ t' <-> it = i \/
                  (it ∈ default [] (State.dbs_storage dbs !! StateIter.example_address) /\
                   State.item_seckey it <> StateIter.example_slot 5).
Proof.
  apply (WriteAccountStorage_last_write (fun x => x) StateIter.example_overrides
           StateIter.example_address (StateIter.example_slot 5) (StateIter.example_slot 9)
           (StateIter.example_slot 7)).
  exact example_overrides_sorted.
Defined.

(** The same write evaluated: the override of slot 5 is replaced, the
    deletion of slot 3 stays. *)
Example WriteAccountStorage_example :
  State.dbs_storage
    (State.WriteAccountStorage (fun x => x) StateIter.example_overrides
       StateIter.example_address (StateIter.example_slot 5) (StateIter.example_slot 9)
       (StateIter.example_slot 7)).2 !! StateIter.example_address
  = Some [ {| State.item_key := StateIter.example_slot 3;
              State.item_seckey := StateIter.example_slot 3;
              State.item_value := StateIter.emptyHash |};
           {| State.item_key := StateIter.example_slot 5;
              State.item_seckey := StateIter.example_slot 5;
              State.item_value := StateIter.example_slot 7 |} ].
Proof. cbn [State.WriteAccountStorage snd State.dbs_storage]. rewrite lookup_insert_eq. reflexivity. Qed.

(** ** The result of GetModifiedAccounts *)

Lemma GetModifiedAccounts_below_2_53_witness :
  exists keys : list bytes,
    StronglySorted bytes_lt keys /\
    (forall key,
       key ∈ keys
       <-> exists ts, 6 <= ts <= 7 /\
             recorded (db_bucket example_db example_suffix_bucket) ts Walk.hAT key) /\
    Walk.GetModifiedAccounts example_suffix_bucket example_db 6 7
    = Some match preimages example_db keys with
           | (_, Some e) => (None, Some e)
           | (addresses, None) => (Some addresses, None)
           end.
Proof.
  apply (GetModifiedAccounts_below_2_53 example_suffix_bucket example_db 6 7);
    [lia | lia | lia | exact example_index_ok | reflexivity].
Defined.

Lemma copy_into_length dst src : length (Walk.copy_into dst src) = length dst.
Proof.
  unfold Walk.copy_into. rewrite length_app, length_take, length_drop. lia.
Qed.

Lemma ascend_preimage_lengths db items : forall accounts idx extErr,
  Forall (fun a : bytes => length a = 20%nat) accounts ->
  (forall e, extErr = Some e -> exists key, e = ErrPreimage key) ->
  let '(accounts', _, extErr') :=
    LLRB.ascend (Walk.preimage_iterator db) items (accounts, idx, extErr) in
  Forall (fun a : bytes => length a = 20%nat) accounts' /\
  (forall e, extErr' = Some e -> exists key, e = ErrPreimage key).
Proof.
  induction items as [|item items IH]; intros accounts idx extErr Hall Herr; cbn [LLRB.ascend].
  - auto.
  - unfold Walk.preimage_iterator at 1.
    destruct (db_get db Walk.secure_key_prefix item) as [value [e|]].
    + split; [exact Hall|]. intros e' [= <-]. eauto.
    + specialize (IH (alter (fun a => Walk.copy_into a value) idx accounts) (S idx) extErr).
      destruct (LLRB.ascend _ items _) as [[accounts' idx'] extErr'].
      apply IH; [|exact Herr].
      apply Forall_alter; [exact Hall|]. intros a _ Ha. rewrite copy_into_length. exact Ha.
Qed.

(** The walker of [GetModifiedAccounts] returns no error of its own. *)
Lemma modified_walk_error end_ scan_error es : forall t s e,
  walk_entries (Walk.modified_walker end_) scan_error es t = Failed s e ->
  scan_error = Some e.
Proof.
  induction es as [|[k v] es IH]; intros t s e; cbn [walk_entries].
  - destruct scan_error; [intros [= _ <-]; reflexivity|discriminate].
  - destruct (Walk.modified_walker end_ t k v) as [[[|] t']|[b t'] e'|] eqn:E;
      try discriminate.
    + apply IH.
    + exfalso. unfold Walk.modified_walker in E.
      destruct (decodeTimestamp k) as [[ts bucket]|]; [|discriminate].
      destruct (negb _); [discriminate|]. destruct (_ >? _); [discriminate|].
      destruct (be_uint32 v); [|discriminate].
      destruct (read_keys _ _ _ _ _); discriminate.
Qed.

Section ModifiedResult.

Variable SuffixBucket : bytes.

(** X12: whatever the store holds, [GetModifiedAccounts] either panics on
    a malformed index entry, or returns with no error a list of addresses
    of 20 bytes each, or returns no list together with an error; and that
    error is the error the scan of the index ended with or the error built
    for a key whose preimage lookup failed, never another. *)
Theorem GetModifiedAccounts_result db starttimestamp endtimestamp :
  match Walk.GetModifiedAccounts SuffixBucket db starttimestamp endtimestamp with
  | None => True
  | Some (None, Some e) =>
      db_scan_error db SuffixBucket = Some e \/ exists key, e = ErrPreimage key
  | Some (Some accounts, None) => Forall (fun a : bytes => length a = 20%nat) accounts
  | Some _ => False
  end.
Proof.
  unfold Walk.GetModifiedAccounts.
  destruct (Walk db SuffixBucket _ 0 _ LLRB.New) as [t|t e|] eqn:EW; [| |exact I].
  - assert (Hz : Forall (fun a : bytes => length a = 20%nat)
                   (replicate (LLRB.Len t) Walk.zero_address))
      by (apply Forall_replicate; reflexivity).
    destruct (LLRB.Len t =? 0)%nat; [exact Hz|].
    destruct (LLRB.Min t) as [min|]; [|exact Hz].
    unfold LLRB.AscendGreaterOrEqual.
    pose proof (ascend_preimage_lengths db
                  (filter (fun y => negb (Walk.PutItem_less y min)) t)
                  (replicate (LLRB.Len t) Walk.zero_address) O None Hz) as H.
    destruct (LLRB.ascend _ _ _) as [[accounts idx] extErr].
    destruct H as [Hl He]; [discriminate|].
    destruct extErr as [e|]; [right; apply He; reflexivity|exact Hl].
  - left. unfold Walk in EW. eapply modified_walk_error, EW.
Qed.

End ModifiedResult.

(** ** The errors of rewindData *)

(** The walker of [rewindData] returns no error of its own. *)
Lemma rewind_walk_error src scan_error es : forall m s e,
  walk_entries (Walk.rewind_walker src) scan_error es m = Failed s e ->
  scan_error = Some e.
Proof.
  induction es as [|[k v] es IH]; intros m s e; cbn [walk_entries].
  - destruct scan_error; [intros [= _ <-]; reflexivity|discriminate].
  - destruct (Walk.rewind_walker src m k v) as [[[|] m']|[b m'] e'|] eqn:E;
      try discriminate.
    + apply IH.
    + exfalso. unfold Walk.rewind_walker in E.
      destruct (decodeTimestamp k) as [[ts bucket]|]; [|discriminate].
      destruct (_ >? _); [discriminate|].
      destruct (be_uint32 v) as [kc|]; [|discriminate].
      destruct (kc >? 0); [|discriminate].
      destruct (read_keys _ _ _ _ _); discriminate.
Qed.

Lemma rewind_keys_error {D} db dst (df : D -> bytes -> bytes -> bytes -> D * option error)
    bucket keys : forall d d' e,
  Walk.rewind_keys db dst df bucket keys d = Failed d' e ->
  exists d0 key value, df d0 bucket key value = (d', Some e).
Proof.
  induction keys as [|key keys IH]; intros d d' e; cbn [Walk.rewind_keys]; [discriminate|].
  destruct bucket as [|b0 bucket1]; [discriminate|].
  destruct (db_get_as_of db bucket1 (b0 :: bucket1) key _) as [value err].
  destruct (df d (b0 :: bucket1) key _) as [d1 [e1|]] eqn:E.
  - intros [= <- <-]. eauto.
  - apply IH.
Qed.

Lemma rewind_buckets_error {D} db dst (df : D -> bytes -> bytes -> bytes -> D * option error)
    bs : forall d d' e,
  Walk.rewind_buckets db dst df bs d = Failed d' e ->
  exists d0 bucket key value, df d0 bucket key value = (d', Some e).
Proof.
  induction bs as [|[bucket t] bs IH]; intros d d' e; cbn [Walk.rewind_buckets];
    [discriminate|].
  destruct (Walk.rewind_keys db dst df bucket (elements t) d) as [d1|d1 e1|] eqn:E.
  - apply IH.
  - intros [= <- <-]. destruct (rewind_keys_error _ _ _ _ _ _ _ _ E) as (d0 & key & value & H).
    eauto.
  - discriminate.
Qed.

Section RewindResult.

Variable SuffixBucket : bytes.

(** X13: the only errors [rewindData] returns are the error the scan of
    the change index ended with, in which case the callback has not run, and
    an error the callback itself returned; an error of [GetAsOf] never comes
    out of it. *)
Theorem rewindData_errors {D : Type} (df : D -> bytes -> bytes -> bytes -> D * option error)
    (db : Getter) (timestampSrc timestampDst : Z) (d : D) :
  match Walk.rewindData SuffixBucket db timestampSrc timestampDst df d with
  | Failed d' e =>
      (db_scan_error db SuffixBucket = Some e /\ d' = d) \/
      exists d0 bucket key value, df d0 bucket key value = (d', Some e)
  | _ => True
  end.
Proof.
  unfold Walk.rewindData.
  destruct (Walk db SuffixBucket _ 0 _ ∅) as [m|m e|] eqn:EW; [| |exact I].
  - destruct (Walk.rewind_buckets db timestampDst df (map_to_list m) d) as [d'|d' e|] eqn:EB;
      [exact I| |exact I].
    right. eapply rewind_buckets_error, EB.
  - left. split; [|reflexivity]. unfold Walk in EW. eapply rewind_walk_error, EW.
Qed.

End RewindResult.

Import State StateIter.

(** ** ForEachStorage *)

Lemma InsertNoReplace_elems x t it :
  it ∈ InsertNoReplace x t <-> it = x \/ it ∈ t.
Proof.
  induction t as [|y t IH]; cbn [InsertNoReplace].
  - rewrite list_elem_of_singleton. split; [auto|]. intros [H|H]; [exact H|inversion H].
  - destruct (storageItem_less x y).
    + rewrite elem_of_cons. tauto.
    + rewrite !elem_of_cons, IH. tauto.
Qed.

Lemma InsertNoReplace_sorted x t :
  StronglySorted by_seckey t -> Has x t = false ->
  StronglySorted by_seckey (InsertNoReplace x t).
Proof.
  induction 1 as [|y t Hs IH Hy]; intros Hhas; cbn [InsertNoReplace].
  - repeat constructor.
  - cbn [Has existsb] in Hhas. apply orb_false_elim in Hhas. destruct Hhas as [Hxy Hrest].
    destruct (storageItem_less x y) eqn:E1.
    + apply storageItem_less_lt in E1. constructor; [constructor; assumption|].
      constructor; [exact E1|]. eapply Forall_impl; [exact Hy|].
      intros z Hz. cbn beta in *. eapply bytes_lt_trans; eassumption.
    + cbn [negb andb] in Hxy. apply negb_false_iff in Hxy.
      apply storageItem_less_lt in Hxy.
      constructor; [apply IH; exact Hrest|].
      apply Forall_forall. intros z Hz. apply InsertNoReplace_elems in Hz.
      destruct Hz as [->|Hz]; [exact Hxy|]. rewrite Forall_forall in Hy. auto.
Qed.

Lemma StronglySorted_filter_items (P : storageItem -> Prop) `{forall x, Decision (P x)}
    (l : list storageItem) :
  StronglySorted by_seckey l -> StronglySorted by_seckey (filter P l).
Proof.
  induction 1 as [|y l Hs IH Hy]; [constructor|].
  rewrite filter_cons. destruct (decide (P y)); [|exact IH].
  constructor; [exact IH|]. apply Forall_forall. intros z Hz.
  apply list_elem_of_filter in Hz. destruct Hz as [_ Hz].
  rewrite Forall_forall in Hy. auto.
Qed.

Section ForEachFacts.

Variable BytesToHash : bytes -> bytes.
Variable SecureKeyPrefix : bytes.
Variable WalkAsOf : Getter -> bytes -> bytes -> bytes -> Z -> Z -> list (bytes * bytes).

Lemma override_phase_sorted maxResults items : forall st lastSecKey overrideCounter,
  StronglySorted by_seckey st ->
  StronglySorted by_seckey
    (LLRB.ascend (override_iterator maxResults) items (st, lastSecKey, overrideCounter)).1.1.
Proof.
  induction items as [|item items IH]; intros st l c Hs; cbn [LLRB.ascend]; [exact Hs|].
  unfold override_iterator at 1.
  pose proof (overrides_insert_sorted item st Hs) as Hs'.
  destruct (bool_decide (item_value item <> emptyHash)).
  - destruct (c + 1 <? maxResults); [apply IH; exact Hs'|exact Hs'].
  - destruct (c <? maxResults); [apply IH; exact Hs'|exact Hs'].
Qed.

Lemma storage_walk_sorted addr maxResults lastSecKey overrideCounter numDeletes es :
  length addr = 20%nat -> forall st,
  StronglySorted by_seckey st ->
  exists st',
    (walk_entries (storage_walker BytesToHash addr maxResults lastSecKey overrideCounter
                     numDeletes) None es st = Done st') /\
    StronglySorted by_seckey st'.
Proof.
  intros Haddr. induction es as [|[ks vs] es IH]; intros st Hs; cbn [walk_entries].
  - eauto.
  - unfold storage_walker at 1.
    destruct (decide (take (length addr) ks = addr)) as [Hp|Hp].
    2:{ rewrite bool_decide_eq_false_2 by exact Hp. cbn [negb]. eauto. }
    rewrite bool_decide_eq_true_2 by exact Hp. cbn [negb].
    destruct vs as [|v vs]; [apply IH; exact Hs|].
    assert (Hlen : (20 <= length ks)%nat).
    { apply (f_equal length) in Hp. rewrite length_take, Haddr in Hp. lia. }
    destruct (Nat.ltb_spec (length ks) 20) as [Hlt|_]; [lia|].
    set (probe := {| item_key := emptyHash;
                     item_seckey := Walk.copy_into emptyHash (drop 20 ks);
                     item_value := emptyHash |}).
    destruct (Has probe st) eqn:EH; [apply IH; exact Hs|].
    set (si := {| item_key := emptyHash;
                  item_seckey := Walk.copy_into emptyHash (drop 20 ks);
                  item_value := BytesToHash (v :: vs) |}).
    assert (Hs' : StronglySorted by_seckey (InsertNoReplace si st)).
    { apply InsertNoReplace_sorted; [exact Hs|exact EH]. }
    destruct (bytes_compare (drop 20 ks) lastSecKey);
      match goal with
      | |- context [if ?b then _ else _] => destruct b
      | |- context [Done (?b, _)] => destruct b
      end; eauto.
Qed.

Lemma result_phase_calls {C : Type} db (cb : C -> bytes -> bytes -> bytes -> bool * C)
    maxResults items : forall c results filled,
  (LLRB.ascend (result_iterator SecureKeyPrefix db cb maxResults) items
     (c, results, filled)).1.1
  = foldl (fun c (call : bytes * bytes * bytes) => (cb c call.1.1 call.1.2 call.2).2) c
      (result_calls SecureKeyPrefix db maxResults results items).
Proof.
  induction items as [|item items IH]; intros c results filled;
    cbn [LLRB.ascend result_calls]; [reflexivity|].
  unfold result_iterator at 1.
  destruct (bool_decide (item_value item <> emptyHash)).
  - destruct (bool_decide (item_key item = emptyHash)).
    + destruct (db_get db SecureKeyPrefix (item_seckey item)) as [value [e|]];
        (destruct (results + 1 <? maxResults); cbn [foldl fst snd]; [apply IH|reflexivity]).
    + destruct (results + 1 <? maxResults); cbn [foldl fst snd]; [apply IH|reflexivity].
  - destruct (results <? maxResults); [apply IH|reflexivity].
Qed.

Lemma result_calls_spec db maxResults items : forall results,
  0 <= results ->
  let calls := result_calls SecureKeyPrefix db maxResults results items in
  (calls = [] \/ results + Z.of_nat (length calls) <= Z.max (results + 1) maxResults) /\
  Forall (fun call : bytes * bytes * bytes =>
            call.2 <> emptyHash /\
            exists item, item ∈ items /\ item_seckey item = call.1.2) calls /\
  (StronglySorted by_seckey items ->
   StronglySorted (fun a b : bytes * bytes * bytes => bytes_lt a.1.2 b.1.2) calls).
Proof.
  induction items as [|item items IH]; intros results Hr; cbn [result_calls].
  - cbv zeta. split; [auto|]. split; constructor.
  - cbv zeta.
    assert (Hup : forall r, 0 <= r ->
              let calls := result_calls SecureKeyPrefix db maxResults r items in
              Forall (fun call : bytes * bytes * bytes =>
                        call.2 <> emptyHash /\
                        exists item0, item0 ∈ item :: items /\ item_seckey item0 = call.1.2)
                calls).
    { intros r Hr0. destruct (IH r Hr0) as (_ & Hall & _). cbv zeta.
      eapply Forall_impl; [exact Hall|]. intros call (Hv & it & Hin & Hk).
      split; [exact Hv|]. exists it. split; [apply list_elem_of_further; exact Hin|exact Hk]. }
    destruct (decide (item_value item <> emptyHash)) as [Hv|Hv].
    + rewrite (bool_decide_eq_true_2 _ Hv).
      set (key := if bool_decide (item_key item = emptyHash) then _ else _).
      destruct (Z.ltb_spec (results + 1) maxResults) as [Hlt|Hge].
      * destruct (IH (results + 1) ltac:(lia)) as (Hn & Hall & Hsort).
        split; [|split].
        -- right. cbn [length]. destruct Hn as [->|Hn]; cbn [length]; lia.
        -- constructor; [|apply Hup; lia]. split; [exact Hv|].
           exists item. split; [apply list_elem_of_here|reflexivity].
        -- intros Hs. inversion Hs as [|? ? Hs' Hlt']; subst.
           constructor; [apply Hsort; exact Hs'|].
           apply Forall_forall. intros call Hc.
           rewrite Forall_forall in Hall. destruct (Hall call Hc) as (_ & it & Hin & <-).
           rewrite Forall_forall in Hlt'. cbn [fst snd]. apply Hlt'. exact Hin.
      * split; [|split].
        -- right. cbn [length]. lia.
        -- constructor; [|constructor]. split; [exact Hv|].
           exists item. split; [apply list_elem_of_here|reflexivity].
        -- intros _. repeat constructor.
    + rewrite (bool_decide_eq_false_2 _ Hv).
      destruct (Z.ltb_spec results maxResults) as [Hlt|Hge].
      * destruct (IH results Hr) as (Hn & Hall & Hsort).
        split; [|split].
        -- destruct Hn as [Hn|Hn]; [left; exact Hn|right; exact Hn].
        -- apply Hup. exact Hr.
        -- intros Hs. inversion Hs; subst. apply Hsort. assumption.
      * split; [auto|]. split; constructor.
Qed.

End ForEachFacts.

Section ForEachRun.

Variable BytesToHash : bytes -> bytes.
Variable SecureKeyPrefix : bytes.
Variable WalkAsOf : Getter -> bytes -> bytes -> bytes -> Z -> Z -> list (bytes * bytes).

(** The three phases of [ForEachStorage]: the tree [st1] it builds from the
    overrides, the tree [st2] after the walk over the store, and the
    invocations of the callback. *)
Lemma ForEachStorage_run dbs addr start maxResults :
  overrides_sorted dbs -> length addr = 20%nat ->
  let min := {| item_key := emptyHash; item_seckey := BytesToHash start;
                item_value := emptyHash |} in
  let t := default [] (dbs_storage dbs !! addr) in
  exists st1 lastSecKey overrideCounter st2,
    LLRB.ascend (override_iterator maxResults)
      (filter (fun y => negb (storageItem_less y min)) t) (LLRB.New, emptyHash, 0)
    = (st1, lastSecKey, overrideCounter) /\
    walk_entries
      (storage_walker BytesToHash addr maxResults lastSecKey overrideCounter
         (Z.of_nat (LLRB.Len st1) - overrideCounter)) None
      (WalkAsOf (dbs_db dbs) StorageBucket StorageHistoryBucket
         (Walk.copy_into (replicate 20 0) addr ++ Walk.copy_into (replicate 32 0) start) 0
         (u64 (dbs_blockNr dbs + 1))) st1 = Done st2 /\
    StronglySorted by_seckey st1 /\ StronglySorted by_seckey st2 /\
    forall (C : Type) (cb : C -> bytes -> bytes -> bytes -> bool * C) (c : C),
    exists dbs',
      ForEachStorage BytesToHash SecureKeyPrefix WalkAsOf dbs addr start cb maxResults c
      = Some (foldl (fun c (call : bytes * bytes * bytes) =>
                       (cb c call.1.1 call.1.2 call.2).2) c
                (result_calls SecureKeyPrefix (dbs_db dbs) maxResults 0
                   (filter (fun y => negb (storageItem_less y min)) st2)),
              dbs') /\
      dbs_db dbs' = dbs_db dbs /\ dbs_blockNr dbs' = dbs_blockNr dbs /\
      (forall a, a <> addr -> dbs_storage dbs' !! a = dbs_storage dbs !! a) /\
      (fun it => (item_seckey it, item_value it)) <$> default [] (dbs_storage dbs' !! addr)
      = (fun it => (item_seckey it, item_value it)) <$> default [] (dbs_storage dbs !! addr).
Proof.
  intros Hsorted Haddr min t.
  destruct (LLRB.ascend (override_iterator maxResults)
              (filter (fun y => negb (storageItem_less y min)) t) (LLRB.New, emptyHash, 0))
    as [[st1 lastSecKey] overrideCounter] eqn:E1.
  assert (Hs1 : StronglySorted by_seckey st1).
  { pose proof (override_phase_sorted maxResults
                  (filter (fun y => negb (storageItem_less y min)) t)
                  LLRB.New emptyHash 0 ltac:(constructor)) as H.
    rewrite E1 in H. exact H. }
  destruct (storage_walk_sorted BytesToHash addr maxResults lastSecKey overrideCounter
              (Z.of_nat (LLRB.Len st1) - overrideCounter)
              (WalkAsOf (dbs_db dbs) StorageBucket StorageHistoryBucket
                 (Walk.copy_into (replicate 20 0) addr
                  ++ Walk.copy_into (replicate 32 0) start) 0
                 (u64 (dbs_blockNr dbs + 1))) Haddr st1 Hs1) as (st2 & E2 & Hs2).
  exists st1, lastSecKey, overrideCounter, st2.
  split; [reflexivity|]. split; [exact E2|]. split; [exact Hs1|]. split; [exact Hs2|].
  intros C cb c. unfold ForEachStorage. fold min.
  assert (E1' :
    match dbs_storage dbs !! addr with
    | Some t0 =>
        LLRB.AscendGreaterOrEqual storageItem_less min (override_iterator maxResults) t0
          (LLRB.New, emptyHash, 0)
    | None => (LLRB.New, emptyHash, 0)
    end = (st1, lastSecKey, overrideCounter)).
  { rewrite <- E1. subst t. destruct (dbs_storage dbs !! addr); reflexivity. }
  rewrite E1'. rewrite E2.
  unfold LLRB.AscendGreaterOrEqual.
  pose proof (result_phase_calls SecureKeyPrefix (dbs_db dbs) cb maxResults
                (filter (fun y => negb (storageItem_less y min)) st2) c 0 []) as Hc.
  destruct (LLRB.ascend (result_iterator SecureKeyPrefix (dbs_db dbs) cb maxResults)
              (filter (fun y => negb (storageItem_less y min)) st2) (c, 0, []))
    as [[c' r] filled].
  cbn [fst] in Hc. subst c'.
  eexists. split; [reflexivity|]. cbn [dbs_db dbs_blockNr dbs_storage].
  split; [reflexivity|]. split; [reflexivity|]. split.
  - intros a Ha. destruct (dbs_storage dbs !! addr); [|reflexivity].
    apply lookup_insert_ne. congruence.
  - destruct (dbs_storage dbs !! addr) as [t0|] eqn:Et; [|rewrite Et; reflexivity].
    rewrite lookup_insert_eq. cbn [default from_option]. unfold id.
    change (map (fill_key st1 filled) t0) with (fill_key st1 filled <$> t0).
    rewrite <- list_fmap_compose.
    apply list_fmap_ext. intros _ it _. cbn [compose].
    unfold fill_key. destruct (existsb _ st1); [|reflexivity].
    destruct (find _ filled); reflexivity.
Qed.

End ForEachRun.

(** ** What the overrides and the store contribute *)

Lemma StronglySorted_app_elems {A : Type} (R : A -> A -> Prop) (l1 l2 : list A) :
  StronglySorted R (l1 ++ l2) ->
  (forall x1 x2, x1 ∈ l1 -> x2 ∈ l2 -> R x1 x2) /\ StronglySorted R l1 /\ StronglySorted R l2.
Proof.
  induction l1 as [|x l1 IH]; cbn [app]; intros Hs.
  - split; [intros x1 x2 H; inversion H|]. split; [constructor|exact Hs].
  - inversion Hs as [|? ? Hs' Hx]; subst. destruct (IH Hs') as (H1 & H2 & H3).
    rewrite Forall_forall in Hx. split; [|split; [|exact H3]].
    + intros x1 x2 Hx1 Hx2. apply elem_of_cons in Hx1. destruct Hx1 as [->|Hx1]; [|auto].
      apply Hx. apply elem_of_app. auto.
    + constructor; [exact H2|]. apply Forall_forall. intros y Hy. apply Hx.
      apply elem_of_app. auto.
Qed.

Lemma storageItem_less_seckey a b c :
  item_seckey a = item_seckey b -> storageItem_less a c = storageItem_less b c.
Proof. unfold storageItem_less. intros ->. reflexivity. Qed.

Lemma by_seckey_unique t x y :
  StronglySorted by_seckey t -> x ∈ t -> y ∈ t -> item_seckey x = item_seckey y -> x = y.
Proof.
  induction 1 as [|z t Hs IH Hz]; intros Hx Hy E; [inversion Hx|].
  rewrite Forall_forall in Hz.
  apply elem_of_cons in Hx. apply elem_of_cons in Hy.
  destruct Hx as [->|Hx], Hy as [->|Hy]; [reflexivity| | |auto].
  - exfalso. specialize (Hz _ Hy). cbn beta in Hz. rewrite E in Hz.
    exact (bytes_lt_irrefl _ Hz).
  - exfalso. specialize (Hz _ Hx). cbn beta in Hz. rewrite E in Hz.
    exact (bytes_lt_irrefl _ Hz).
Qed.

Lemma by_seckey_NoDup t : StronglySorted by_seckey t -> NoDup t.
Proof.
  induction 1 as [|z t Hs IH Hz]; [constructor|].
  apply NoDup_cons. split; [|exact IH].
  intros Hin. rewrite Forall_forall in Hz. exact (bytes_lt_irrefl _ (Hz _ Hin)).
Qed.

Lemma ReplaceOrInsert_append x st :
  Forall (fun y => by_seckey y x) st ->
  LLRB.ReplaceOrInsert storageItem_less x st = st ++ [x].
Proof.
  induction 1 as [|y st Hy Hst IH]; [reflexivity|].
  cbn [LLRB.ReplaceOrInsert app].
  destruct (storageItem_less x y) eqn:E1.
  - apply storageItem_less_lt in E1. exfalso. exact (bytes_lt_asym _ _ Hy E1).
  - apply storageItem_less_lt in Hy. rewrite Hy, IH. reflexivity.
Qed.

Section ForEachPhases.

Variable BytesToHash : bytes -> bytes.
Variable SecureKeyPrefix : bytes.

(** The first phase takes a prefix [P] of the overrides it is given, and
    stops before the rest only once [P] holds [maxResults] items with a
    value. *)
Lemma override_phase_prefix maxResults items : forall st lastSecKey overrideCounter,
  StronglySorted by_seckey (st ++ items) ->
  exists P R lastSecKey',
    items = P ++ R /\
    LLRB.ascend (override_iterator maxResults) items (st, lastSecKey, overrideCounter)
    = (st ++ P, lastSecKey', overrideCounter + Z.of_nat (length (filter nonzero P))) /\
    (R = [] \/
     (P <> [] /\ ~ overrideCounter + Z.of_nat (length (filter nonzero P)) < maxResults)).
Proof.
  induction items as [|item items IH]; intros st l c Hs; cbn [LLRB.ascend].
  - exists [], [], l. split; [reflexivity|]. split; [|auto].
    rewrite app_nil_r. f_equal. cbn. lia.
  - assert (Hins : LLRB.ReplaceOrInsert storageItem_less item st = st ++ [item]).
    { apply ReplaceOrInsert_append. apply Forall_forall. intros y Hy.
      apply (proj1 (StronglySorted_app_elems _ _ _ Hs) y item Hy). apply list_elem_of_here. }
    assert (Hs' : StronglySorted by_seckey ((st ++ [item]) ++ items)).
    { rewrite <- app_assoc. exact Hs. }
    unfold override_iterator at 1. rewrite Hins.
    destruct (decide (item_value item <> emptyHash)) as [Hv|Hv].
    + rewrite (bool_decide_eq_true_2 _ Hv).
      destruct (Z.ltb_spec (c + 1) maxResults) as [Hlt|Hge].
      * destruct (IH (st ++ [item]) (Walk.copy_into l (item_seckey item)) (c + 1) Hs')
          as (P & R & l' & -> & Hrun & Hstop).
        exists (item :: P), R, l'. split; [reflexivity|].
        rewrite filter_cons_True by exact Hv. cbn [length].
        rewrite Hrun, <- app_assoc.
        assert (E : forall n, c + Z.of_nat (S n) = c + 1 + Z.of_nat n) by (intros; lia).
        rewrite E. split; [reflexivity|].
        destruct Hstop as [->|[_ Hn]]; [auto|right; split; [discriminate|lia]].
      * exists [item], items, (Walk.copy_into l (item_seckey item)).
        split; [reflexivity|]. rewrite filter_cons_True by exact Hv.
        change (filter nonzero []) with (@nil storageItem). cbn [length].
        split; [reflexivity|]. right. split; [discriminate|]. lia.
    + rewrite (bool_decide_eq_false_2 _ Hv).
      destruct (Z.ltb_spec c maxResults) as [Hlt|Hge].
      * destruct (IH (st ++ [item]) l c Hs') as (P & R & l' & -> & Hrun & Hstop).
        exists (item :: P), R, l'. split; [reflexivity|].
        rewrite filter_cons_False by exact Hv.
        rewrite Hrun, <- app_assoc. split; [reflexivity|].
        destruct Hstop as [->|[_ Hn]]; [auto|right; split; [discriminate|lia]].
      * exists [item], items, l. split; [reflexivity|].
        rewrite filter_cons_False by exact Hv. cbn [length filter].
        change (filter nonzero []) with (@nil storageItem). cbn [length].
        split; [f_equal; lia|]. right. split; [discriminate|]. lia.
Qed.

Lemma Has_false_seckey x st y :
  Has x st = false -> y ∈ st -> item_seckey y <> item_seckey x.
Proof.
  intros Hhas Hy E. unfold Has in Hhas.
  assert (existsb (fun y => negb (storageItem_less x y) && negb (storageItem_less y x)) st
          = true) as Ht; [|congruence].
  apply existsb_exists. exists y. split.
  - apply list_elem_of_In. exact Hy.
  - unfold storageItem_less. rewrite E.
    destruct (bytes_compare (item_seckey x) (item_seckey x)) eqn:Ec; [reflexivity| |].
    + exfalso. exact (bytes_lt_irrefl _ Ec).
    + exfalso. pose proof (bytes_compare_antisym (item_seckey x) (item_seckey x)) as Ha.
      rewrite Ec in Ha. discriminate Ha.
Qed.

(** The walk over the store keeps the items of the tree and adds only items
    whose [seckey] the tree did not hold, each made from an entry of the
    store. *)
Lemma storage_walk_items addr maxResults lastSecKey overrideCounter numDeletes
    (st1 : list storageItem) (Q : storageItem -> Prop) es :
  (forall ks vs, (ks, vs) ∈ es -> take (length addr) ks = addr -> vs <> [] ->
     Q {| item_key := emptyHash; item_seckey := Walk.copy_into emptyHash (drop 20 ks);
          item_value := BytesToHash vs |}) ->
  forall st st' : list storageItem,
  (forall it, it ∈ st1 -> it ∈ st) ->
  (forall it, it ∈ st ->
     it ∈ st1 \/ ((forall y, y ∈ st1 -> item_seckey y <> item_seckey it) /\ Q it)) ->
  walk_entries (storage_walker BytesToHash addr maxResults lastSecKey overrideCounter
                  numDeletes) None es st = Done st' ->
  (forall it, it ∈ st1 -> it ∈ st') /\
  (forall it, it ∈ st' ->
     it ∈ st1 \/ ((forall y, y ∈ st1 -> item_seckey y <> item_seckey it) /\ Q it)).
Proof.
  induction es as [|[ks vs] es IH]; intros HQ st st' Hsub Hnew; cbn [walk_entries].
  - intros [= <-]. auto.
  - assert (HQ' : forall ks vs, (ks, vs) ∈ es -> take (length addr) ks = addr -> vs <> [] ->
              Q {| item_key := emptyHash;
                   item_seckey := Walk.copy_into emptyHash (drop 20 ks);
                   item_value := BytesToHash vs |}).
    { intros ks' vs' Hin. apply HQ. apply list_elem_of_further. exact Hin. }
    unfold storage_walker at 1.
    destruct (decide (take (length addr) ks = addr)) as [Hp|Hp].
    2:{ rewrite bool_decide_eq_false_2 by exact Hp. cbn [negb]. intros [= <-]. auto. }
    rewrite bool_decide_eq_true_2 by exact Hp. cbn [negb].
    destruct vs as [|v vs]; [apply IH; assumption|].
    destruct (length ks <? 20)%nat; [discriminate|].
    set (probe := {| item_key := emptyHash;
                     item_seckey := Walk.copy_into emptyHash (drop 20 ks);
                     item_value := emptyHash |}).
    destruct (Has probe st) eqn:EH; [apply IH; assumption|].
    set (si := {| item_key := emptyHash;
                  item_seckey := Walk.copy_into emptyHash (drop 20 ks);
                  item_value := BytesToHash (v :: vs) |}).
    assert (Hsub' : forall it, it ∈ st1 -> it ∈ InsertNoReplace si st).
    { intros it Hit. apply InsertNoReplace_elems. right. auto. }
    assert (Hnew' : forall it, it ∈ InsertNoReplace si st ->
              it ∈ st1 \/ ((forall y, y ∈ st1 -> item_seckey y <> item_seckey it) /\ Q it)).
    { intros it Hit. apply InsertNoReplace_elems in Hit. destruct Hit as [->|Hit]; [|auto].
      right. split.
      - intros y Hy. apply (Has_false_seckey probe st y EH). auto.
      - apply (HQ ks (v :: vs)); [apply list_elem_of_here|exact Hp|discriminate]. }
    destruct (bytes_compare (drop 20 ks) lastSecKey);
      match goal with
      | |- context [if ?b then _ else _] => destruct b
      | |- context [Done (?b, _)] => destruct b
      end; first [apply IH; assumption | intros [= <-]; auto].
Qed.

(** An invocation of the last phase is for an item [x] of the tree, and the
    phase went on after the items before [x]. *)
Lemma result_calls_reach db maxResults items : forall results call,
  call ∈ result_calls SecureKeyPrefix db maxResults results items ->
  exists A x B,
    items = A ++ x :: B /\ item_seckey x = call.1.2 /\ item_value x = call.2 /\
    (A = [] \/ results + Z.of_nat (length (filter nonzero A)) < maxResults).
Proof.
  induction items as [|item items IH]; intros results call; cbn [result_calls].
  - intros H. inversion H.
  - destruct (decide (item_value item <> emptyHash)) as [Hv|Hv].
    + rewrite (bool_decide_eq_true_2 _ Hv). intros Hc.
      apply elem_of_cons in Hc. destruct Hc as [->|Hc].
      * exists [], item, items. cbn [fst snd]. auto.
      * destruct (Z.ltb_spec (results + 1) maxResults) as [Hlt|Hge]; [|inversion Hc].
        destruct (IH _ _ Hc) as (A & x & B & -> & Hk & Hval & Hgo).
        exists (item :: A), x, B. split; [reflexivity|]. split; [exact Hk|].
        split; [exact Hval|]. right.
        rewrite filter_cons_True by exact Hv. cbn [length].
        destruct Hgo as [->|Hgo]; [cbn; lia|lia].
    + rewrite (bool_decide_eq_false_2 _ Hv). intros Hc.
      destruct (Z.ltb_spec results maxResults) as [Hlt|Hge]; [|inversion Hc].
      destruct (IH _ _ Hc) as (A & x & B & -> & Hk & Hval & Hgo).
      exists (item :: A), x, B. split; [reflexivity|]. split; [exact Hk|].
      split; [exact Hval|]. right.
      rewrite filter_cons_False by exact Hv.
      destruct Hgo as [->|Hgo]; [cbn; lia|lia].
Qed.

End ForEachPhases.

Section ForEachClaims.

Variable BytesToHash : bytes -> bytes.
Variable SecureKeyPrefix : bytes.
Variable WalkAsOf : Getter -> bytes -> bytes -> bytes -> Z -> Z -> list (bytes * bytes).

(** X15: for a 20-byte address and sorted overrides, ForEachStorage does not
    panic and invokes the callback on a sequence of slots that does not
    depend on the callback: strictly ascending in seckey, none below
    [BytesToHash start], none with the zero value, and at most
    [max 1 maxResults] of them (one even when [maxResults] is 0 or
    negative).  The store, the block number and the overrides of other
    addresses are untouched, and the overrides of the address keep their
    seckeys and values. *)
Theorem ForEachStorage_calls dbs addr start maxResults :
  overrides_sorted dbs -> length addr = 20%nat ->
  exists calls : list (bytes * bytes * bytes),
    Z.of_nat (length calls) <= Z.max 1 maxResults /\
    StronglySorted (fun a b : bytes * bytes * bytes => bytes_lt a.1.2 b.1.2) calls /\
    Forall (fun call : bytes * bytes * bytes =>
              call.2 <> emptyHash /\ ~ bytes_lt call.1.2 (BytesToHash start)) calls /\
    forall (C : Type) (cb : C -> bytes -> bytes -> bytes -> bool * C) (c : C),
    exists dbs',
      ForEachStorage BytesToHash SecureKeyPrefix WalkAsOf dbs addr start cb maxResults c
      = Some (foldl (fun c (call : bytes * bytes * bytes) =>
                       (cb c call.1.1 call.1.2 call.2).2) c calls, dbs') /\
      dbs_db dbs' = dbs_db dbs /\ dbs_blockNr dbs' = dbs_blockNr dbs /\
      (forall a, a <> addr -> dbs_storage dbs' !! a = dbs_storage dbs !! a) /\
      (fun it => (item_seckey it, item_value it)) <$> default [] (dbs_storage dbs' !! addr)
      = (fun it => (item_seckey it, item_value it)) <$> default [] (dbs_storage dbs !! addr).
Proof.
  intros Hsorted Haddr.
  destruct (ForEachStorage_run BytesToHash SecureKeyPrefix WalkAsOf dbs addr start
              maxResults Hsorted Haddr)
    as (st1 & lastSecKey & overrideCounter & st2 & _ & _ & _ & Hs2 & Hrun).
  set (min := {| item_key := emptyHash; item_seckey := BytesToHash start;
                 item_value := emptyHash |}) in *.
  set (G := filter (fun y => negb (storageItem_less y min)) st2) in *.
  assert (HG : StronglySorted by_seckey G).
  { apply StronglySorted_filter_items. exact Hs2. }
  destruct (result_calls_spec SecureKeyPrefix (dbs_db dbs) maxResults G 0 ltac:(lia))
    as (Hn & Hall & Hsort).
  exists (result_calls SecureKeyPrefix (dbs_db dbs) maxResults 0 G).
  split; [|split; [|split]].
  - destruct Hn as [->|Hn]; [cbn [length]|]; lia.
  - apply Hsort. exact HG.
  - eapply Forall_impl; [exact Hall|]. intros call (Hv & it & Hin & Hk).
    split; [exact Hv|]. intros Hlt. apply list_elem_of_filter in Hin.
    destruct Hin as [Hmin _]. rewrite <- Hk in Hlt.
    assert (Hl : storageItem_less it min = true) by (apply storageItem_less_lt; exact Hlt).
    rewrite Hl in Hmin. exact Hmin.
  - exact Hrun.
Qed.

(** X16: each slot ForEachStorage hands to the callback comes from an
    override of the address, with the value of that override, or else from
    an entry of the store under the address, and then no override of the
    address has its seckey: an override, also one that deletes the slot,
    hides what the store holds for it. *)
Theorem ForEachStorage_overrides_win dbs addr start maxResults :
  overrides_sorted dbs -> length addr = 20%nat ->
  exists calls : list (bytes * bytes * bytes),
    Forall (fun call : bytes * bytes * bytes =>
              (exists o, o ∈ default [] (dbs_storage dbs !! addr) /\
                         item_seckey o = call.1.2 /\ item_value o = call.2) \/
              ((forall o, o ∈ default [] (dbs_storage dbs !! addr) ->
                          item_seckey o <> call.1.2) /\
               exists ks vs,
                 (ks, vs) ∈ WalkAsOf (dbs_db dbs) StorageBucket StorageHistoryBucket
                              (Walk.copy_into (replicate 20 0) addr
                               ++ Walk.copy_into (replicate 32 0) start) 0
                              (u64 (dbs_blockNr dbs + 1)) /\
                 take 20 ks = addr /\
                 call.1.2 = Walk.copy_into emptyHash (drop 20 ks) /\
                 call.2 = BytesToHash vs)) calls /\
    forall (C : Type) (cb : C -> bytes -> bytes -> bytes -> bool * C) (c : C),
      fst <$> ForEachStorage BytesToHash SecureKeyPrefix WalkAsOf dbs addr start cb
                maxResults c
      = Some (foldl (fun c (call : bytes * bytes * bytes) =>
                       (cb c call.1.1 call.1.2 call.2).2) c calls).
Proof.
  intros Hsorted Haddr.
  destruct (ForEachStorage_run BytesToHash SecureKeyPrefix WalkAsOf dbs addr start
              maxResults Hsorted Haddr)
    as (st1 & lastSecKey & overrideCounter & st2 & E1 & E2 & Hs1 & Hs2 & Hrun).
  set (min := {| item_key := emptyHash; item_seckey := BytesToHash start;
                 item_value := emptyHash |}) in *.
  set (t := default [] (dbs_storage dbs !! addr)) in *.
  set (es := WalkAsOf (dbs_db dbs) StorageBucket StorageHistoryBucket
               (Walk.copy_into (replicate 20 0) addr
                ++ Walk.copy_into (replicate 32 0) start) 0
               (u64 (dbs_blockNr dbs + 1))) in *.
  set (G := filter (fun y => negb (storageItem_less y min)) st2) in *.
  set (F := filter (fun y => negb (storageItem_less y min)) t) in *.
  exists (result_calls SecureKeyPrefix (dbs_db dbs) maxResults 0 G).
  split.
  2:{ intros C cb c. destruct (Hrun C cb c) as (dbs' & -> & _). reflexivity. }
  assert (Ht : StronglySorted by_seckey t).
  { subst t. destruct (dbs_storage dbs !! addr) as [t0|] eqn:Et; [|constructor].
    exact (Hsorted _ _ Et). }
  assert (HF : StronglySorted by_seckey F) by (apply StronglySorted_filter_items; exact Ht).
  assert (HG : StronglySorted by_seckey G) by (apply StronglySorted_filter_items; exact Hs2).
  destruct (override_phase_prefix maxResults F [] emptyHash 0 HF)
    as (P & R & l' & HPR & Hph & Hstop).
  unfold LLRB.New in E1. rewrite E1 in Hph. cbn [app] in Hph.
  injection Hph as -> _ ->. rewrite Z.add_0_l in Hstop.
  set (Q := fun it : storageItem =>
              exists ks vs, (ks, vs) ∈ es /\ take 20 ks = addr /\
                item_seckey it = Walk.copy_into emptyHash (drop 20 ks) /\
                item_value it = BytesToHash vs).
  destruct (storage_walk_items BytesToHash addr maxResults lastSecKey
              (Z.of_nat (length (filter nonzero P)))
              (Z.of_nat (LLRB.Len P) - Z.of_nat (length (filter nonzero P))) P Q es)
    with (st := P) (st' := st2) as [Hsub Hnew].
  { intros ks vs Hin Hp _. exists ks, vs. rewrite Haddr in Hp. auto. }
  { auto. }
  { auto. }
  { exact E2. }
  apply Forall_forall. intros call Hcall.
  destruct (result_calls_reach SecureKeyPrefix (dbs_db dbs) maxResults G 0 call Hcall)
    as (A & x & B & HG' & Hk & Hval & Hgo).
  assert (HxG : x ∈ G).
  { rewrite HG'. apply elem_of_app. right. apply list_elem_of_here. }
  pose proof HxG as Hx2. apply list_elem_of_filter in Hx2. destruct Hx2 as [Hxmin Hx2].
  assert (HFt : forall o, o ∈ F -> o ∈ t).
  { intros o Ho. apply list_elem_of_filter in Ho. tauto. }
  assert (HPF : forall p, p ∈ P -> p ∈ F).
  { intros p Hp. rewrite HPR. apply elem_of_app. auto. }
  destruct (Hnew x Hx2) as [HxP|[Hfresh (ks & vs & Hin & Hp & Hsk & Hv)]].
  - left. exists x. split; [apply HFt, HPF, HxP|]. split; assumption.
  - right. split; [|exists ks, vs; rewrite <- Hk, <- Hval; auto].
    intros o Ho Eo. rewrite <- Hk in Eo.
    assert (HoF : o ∈ F).
    { apply list_elem_of_filter. split; [|exact Ho].
      rewrite (storageItem_less_seckey o x min Eo). exact Hxmin. }
    rewrite HPR in HoF. apply elem_of_app in HoF. destruct HoF as [HoP|HoR].
    { exact (Hfresh o HoP Eo). }
    destruct Hstop as [->|[HPne Hfull]]; [inversion HoR|].
    rewrite HPR in HF. apply StronglySorted_app_elems in HF.
    destruct HF as (HPlt & HsP & _).
    rewrite HG' in HG. apply StronglySorted_app_elems in HG.
    destruct HG as (_ & _ & HxB). inversion HxB as [|? ? _ HxB']; subst.
    rewrite Forall_forall in HxB'.
    assert (HPA : forall p, p ∈ P -> p ∈ A).
    { intros p Hp. pose proof (HPlt p o Hp HoR) as Hpo. cbn beta in Hpo. rewrite Eo in Hpo.
      assert (HpG : p ∈ A ++ x :: B).
      { rewrite <- HG'. apply list_elem_of_filter. split; [|apply Hsub; exact Hp].
        pose proof (HPF p Hp) as HpF. apply list_elem_of_filter in HpF. tauto. }
      apply elem_of_app in HpG. destruct HpG as [HpA|HpxB]; [exact HpA|].
      exfalso. apply elem_of_cons in HpxB. destruct HpxB as [->|HpB].
      - exact (bytes_lt_irrefl _ Hpo).
      - exact (bytes_lt_asym _ _ Hpo (HxB' p HpB)). }
    assert (HA : A <> []).
    { destruct P as [|p0 P']; [congruence|]. intros ->.
      pose proof (HPA p0 (list_elem_of_here _ _)) as H0. inversion H0. }
    destruct Hgo as [Hgo|Hgo]; [congruence|].
    assert (Hle : (length (filter nonzero P) <= length (filter nonzero A))%nat).
    { apply submseteq_length. apply NoDup_submseteq.
      - apply NoDup_filter. apply by_seckey_NoDup. exact HsP.
      - intros p Hp. apply list_elem_of_filter in Hp. apply list_elem_of_filter.
        destruct Hp as [Hnz Hp]. split; [exact Hnz|apply HPA; exact Hp]. }
    lia.
Qed.

End ForEachClaims.

Lemma ForEachStorage_calls_witness :
  exists calls : list (bytes * bytes * bytes),
    Z.of_nat (length calls) <= Z.max 1 10 /\
    StronglySorted (fun a b : bytes * bytes * bytes => bytes_lt a.1.2 b.1.2) calls /\
    Forall (fun call : bytes * bytes * bytes =>
              call.2 <> emptyHash /\ ~ bytes_lt call.1.2 (example_BytesToHash [])) calls /\
    forall (C : Type) (cb : C -> bytes -> bytes -> bytes -> bool * C) (c : C),
    exists dbs',
      ForEachStorage example_BytesToHash [] example_WalkAsOf example_overrides
        example_address [] cb 10 c
      = Some (foldl (fun c (call : bytes * bytes * bytes) =>
                       (cb c call.1.1 call.1.2 call.2).2) c calls, dbs') /\
      dbs_db dbs' = dbs_db example_overrides /\
      dbs_blockNr dbs' = dbs_blockNr example_overrides /\
      (forall a, a <> example_address ->
                 dbs_storage dbs' !! a = dbs_storage example_overrides !! a) /\
      (fun it => (item_seckey it, item_value it))
        <$> default [] (dbs_storage dbs' !! example_address)
      = (fun it => (item_seckey it, item_value it))
        <$> default [] (dbs_storage example_overrides !! example_address).
Proof.
  apply (ForEachStorage_calls example_BytesToHash [] example_WalkAsOf example_overrides
           example_address [] 10 example_overrides_sorted).
  reflexivity.
Defined.

Lemma ForEachStorage_overrides_win_witness :
  exists calls : list (bytes * bytes * bytes),
    Forall (fun call : bytes * bytes * bytes =>
              (exists o, o ∈ default [] (dbs_storage example_overrides !! example_address) /\
                         item_seckey o = call.1.2 /\ item_value o = call.2) \/
              ((forall o, o ∈ default [] (dbs_storage example_overrides !! example_address) ->
                          item_seckey o <> call.1.2) /\
               exists ks vs,
                 (ks, vs) ∈ example_WalkAsOf (dbs_db example_overrides) StorageBucket
                              StorageHistoryBucket
                              (Walk.copy_into (replicate 20 0) example_address
                               ++ Walk.copy_into (replicate 32 0) []) 0
                              (u64 (dbs_blockNr example_overrides + 1)) /\
                 take 20 ks = example_address /\
                 call.1.2 = Walk.copy_into emptyHash (drop 20 ks) /\
                 call.2 = example_BytesToHash vs)) calls /\
    forall (C : Type) (cb : C -> bytes -> bytes -> bytes -> bool * C) (c : C),
      fst <$> ForEachStorage example_BytesToHash [] example_WalkAsOf example_overrides
                example_address [] cb 10 c
      = Some (foldl (fun c (call : bytes * bytes * bytes) =>
                       (cb c call.1.1 call.1.2 call.2).2) c calls).
Proof.
  apply (ForEachStorage_overrides_win example_BytesToHash [] example_WalkAsOf
           example_overrides example_address [] 10 example_overrides_sorted).
  reflexivity.
Defined.

(** On the example, the callback sees the slots 1, 5 and 6: the deletion of
    slot 3 hides the store's value 7, and slot 5 has the override's value 9,
    not the store's 8. *)
Lemma ForEachStorage_example :
  fst <$> ForEachStorage example_BytesToHash [] example_WalkAsOf example_overrides
            example_address [] (fun c key seckey value => (true, c ++ [(seckey, value)]))
            10 []
  = Some [ (example_slot 1, example_BytesToHash [4]);
           (example_slot 5, example_slot 9);
           (example_slot 6, example_BytesToHash [1]) ].
Proof. vm_compute. reflexivity. Qed.
